(** * NoteUtil: a shallow embedding of [noteutil/noteutil.py]

    The development follows the Python source method by method.  Python
    strings are lists of characters, Python integers are [Z], the list of
    notes owned by a [NoteUtil] is a [list Note] that every mutating method
    receives and returns, and a raised exception is the [Raise] alternative
    of [Result]. *)

From Stdlib Require Import ZArith Ascii String Lia.
From stdpp Require Import base list gmap strings.

Local Open Scope Z_scope.
Local Open Scope nat_scope.

(** ** Python strings *)

Module Py.

(** A [str] is its sequence of code points; the embedding covers the code
    points below 256, which is what [ascii] holds. *)
Definition str := list ascii.

Definition lit (s : string) : str := list_ascii_of_string s.

#[global] Instance ascii_eq_dec : EqDecision ascii := ascii_dec.

Definition str_eqb (a b : str) : bool := bool_decide (a = b).

(** [str.isspace] on one character: TAB..CR, FS..US, SPACE, NEL and NBSP. *)
Definition isspace (c : ascii) : bool :=
  let n := N_of_ascii c in
  ((9 <=? n) && (n <=? 13) || (28 <=? n) && (n <=? 32) || (n =? 133) || (n =? 160))%N.

Fixpoint lstrip (s : str) : str :=
  match s with
  | c :: s' => if isspace c then lstrip s' else s
  | [] => []
  end.

Definition rstrip (s : str) : str := rev (lstrip (rev s)).

Definition strip (s : str) : str := rstrip (lstrip s).

Fixpoint startswith (s prefix : str) {struct prefix} : bool :=
  match prefix, s with
  | [], _ => true
  | a :: prefix', b :: s' => Ascii.eqb a b && startswith s' prefix'
  | _ :: _, [] => false
  end.

Definition endswith (s suffix : str) : bool := startswith (rev s) (rev suffix).

(** [s.find(sub)]: the lowest index at which [sub] occurs, [None] for -1. *)
Fixpoint find (sub s : str) : option nat :=
  if startswith s sub then Some 0
  else match s with
       | [] => None
       | _ :: s' => S <$> find sub s'
       end.

(** [sub in s] *)
Definition contains (sub s : str) : bool :=
  match find sub s with Some _ => true | None => false end.

(** Normalisation of a slice bound against a sequence of length [n]:
    a negative bound counts from the end, and both are clipped. *)
Definition clamp (n : nat) (i : Z) : nat :=
  if (i <? 0)%Z then Z.to_nat (Z.of_nat n + i) else Nat.min (Z.to_nat i) n.

(** [l[start:stop]] *)
Definition slice {A} (l : list A) (start stop : Z) : list A :=
  drop (clamp (length l) start) (take (clamp (length l) stop) l).

(** [l[:stop]] *)
Definition slice_to {A} (l : list A) (stop : Z) : list A :=
  take (clamp (length l) stop) l.

(** [s.count(sub)] for a non-empty [sub]: occurrences are counted from the
    left without overlap; [skip] is the number of characters still covered
    by the occurrence found last. *)
Fixpoint count_from (sub s : str) (skip : nat) : nat :=
  match s with
  | [] => 0
  | _ :: s' =>
      match skip with
      | S k => count_from sub s' k
      | 0 => if startswith s sub
             then S (count_from sub s' (length sub - 1))
             else count_from sub s' 0
      end
  end.

(** [s.count(sub, start, stop)]; the empty string occurs between every two
    characters and at both ends. *)
Definition count (sub s : str) (start stop : Z) : Z :=
  let w := slice s start stop in
  match sub with
  | [] => Z.of_nat (S (length w))
  | _ :: _ => Z.of_nat (count_from sub w 0)
  end.

(** [s * n] *)
Definition repeat_str (s : str) (n : Z) : str :=
  mjoin (replicate (Z.to_nat n) s).

(** [s.split(sep)] for a non-empty [sep].  Every round consumes an
    occurrence of [sep], so [length s] rounds are always enough
    ([split_unfold] below is the equation without the counter). *)
Fixpoint split_rounds (rounds : nat) (sep s : str) : list str :=
  match find sep s with
  | None => [s]
  | Some i =>
      match rounds with
      | 0 => [s]
      | S r => take i s :: split_rounds r sep (drop (i + length sep) s)
      end
  end.

Definition split (sep s : str) : list str := split_rounds (length s) sep s.

(** [l[i]] on a list, with Python's negative indices; [None] is IndexError. *)
Definition getitem {A} (l : list A) (i : Z) : option A :=
  if (i <? 0)%Z
  then (if (i <? - Z.of_nat (length l))%Z then None
        else l !! Z.to_nat (Z.of_nat (length l) + i))
  else l !! Z.to_nat i.

(** [l.insert(i, x)]: never fails, the position is clipped. *)
Definition list_insert {A} (l : list A) (i : Z) (x : A) : list A :=
  let k := clamp (length l) i in take k l ++ x :: drop k l.

(** [enumerate(l, p)] *)
Fixpoint enumerate_from {A} (p : nat) (l : list A) : list (nat * A) :=
  match l with
  | [] => []
  | x :: l' => (p, x) :: enumerate_from (S p) l'
  end.

(** [l.pop(i)] and [del l[i]]: [None] is IndexError. *)
Definition pop {A} (l : list A) (i : Z) : option (A * list A) :=
  let k := if (i <? 0)%Z then (Z.of_nat (length l) + i)%Z else i in
  if (k <? 0)%Z then None
  else match l !! Z.to_nat k with
       | Some x => Some (x, delete (Z.to_nat k) l)
       | None => None
       end.

(** [l.index(x)]: position of the first element equal to [x]. *)
Fixpoint list_index `{EqDecision A} (x : A) (l : list A) : option nat :=
  match l with
  | [] => None
  | y :: l' => if decide (x = y) then Some 0 else S <$> list_index x l'
  end.

End Py.

Import Py.


(** ** Exceptions and results *)

(** The exceptions of [errors.py] that the methods below raise, with the
    arguments they are raised with, and the two built-in ones that list and
    string operations raise.  [Unfinished] is no Python exception: it marks
    a run of the [while] loop of [_detect_extensions] that has not left the
    loop after as many rounds as the content has characters, which happens
    only for an empty bound, where the source loops forever. *)
Inductive exn :=
| HeadingJump (content : str) (previous_level current_level : Z)
| DuplicateHeading (heading_name : str)
| MissingBound (content lbound rbound : str)
| ExtraSeparator (content : str)
| DuplicateTerm (term : str)
| NoDefinition (content : str)
| NindexError (nindex : Z)
| IndexError
| ValueError
| Unfinished.

(** Modelled from the spec: [errors.py] is not among the sources.  The
    line-parse errors and the index error are the kinds of [NoteError]
    (section 7 of the specification; [_make_notes] and [edit] catch them as
    [NoteError]); IndexError and ValueError are Python's own. *)
Definition is_NoteError (e : exn) : bool :=
  match e with
  | HeadingJump _ _ _ | DuplicateHeading _ | MissingBound _ _ _
  | ExtraSeparator _ | DuplicateTerm _ | NoDefinition _ | NindexError _ => true
  | IndexError | ValueError | Unfinished => false
  end.

(** The six errors of the line grammar. *)
Definition is_line_parse_error (e : exn) : bool :=
  match e with
  | HeadingJump _ _ _ | DuplicateHeading _ | MissingBound _ _ _
  | ExtraSeparator _ | DuplicateTerm _ | NoDefinition _ => true
  | _ => false
  end.

Inductive Result (A : Type) : Type :=
| Ok (a : A)
| Raise (e : exn).
Arguments Ok {A} a.
Arguments Raise {A} e.

#[global] Instance Result_ret : MRet Result := @Ok.
#[global] Instance Result_bind : MBind Result :=
  λ A B f r, match r with Ok a => f a | Raise e => Raise e end.

Definition of_option {A} (e : exn) (o : option A) : Result A :=
  match o with Some a => Ok a | None => Raise e end.

(** [for x in l: acc = body(acc, x)], stopping at the first exception. *)
Fixpoint foldM {A B} (body : A → B → Result A) (acc : A) (l : list B) : Result A :=
  match l with
  | [] => Ok acc
  | x :: l' => acc' ← body acc x; foldM body acc' l'
  end.

(** ** Notes *)

Module Extension.

Record t := mk {
  text : str;
  name : str;
  lbound : str;
  rbound : str
}.

#[global] Instance eq_dec : EqDecision t.
Proof. solve_decision. Defined.

End Extension.

Abbreviation Extension := Extension.t.

(** The values that [_make_note] stores in its [kwargs] dictionary. *)
Inductive value :=
| VStr (s : str)
| VInt (z : Z)
| VList (l : list str)
| VBounds (l : list (str * str))
| VExtensions (l : list Extension).

Abbreviation Kwargs := (gmap string value).

Definition kw_str (kwargs : Kwargs) (key : string) : option str :=
  match kwargs !! key with Some (VStr s) => Some s | _ => None end.

Definition kw_int (kwargs : Kwargs) (key : string) : option Z :=
  match kwargs !! key with Some (VInt z) => Some z | _ => None end.

Definition kw_list (kwargs : Kwargs) (key : string) : list str :=
  match kwargs !! key with Some (VList l) => l | _ => [] end.

(** [kwargs[key].append(x)] for the three kinds of list. *)
Definition kw_append (key : string) (x : str) (kwargs : Kwargs) : Kwargs :=
  alter (λ v, match v with VList l => VList (l ++ [x]) | _ => v end) key kwargs.

Definition kw_append_bounds (key : string) (x : str * str) (kwargs : Kwargs) : Kwargs :=
  alter (λ v, match v with VBounds l => VBounds (l ++ [x]) | _ => v end) key kwargs.

Definition kw_append_extension (key : string) (x : Extension) (kwargs : Kwargs) : Kwargs :=
  alter (λ v, match v with VExtensions l => VExtensions (l ++ [x]) | _ => v end) key kwargs.

Module Note.

(** Modelled from the spec: the class [Note] of [notes.py] is not among the
    sources.  A Note keeps its content, its [nindex], the two ends of the
    range it owns when it is a heading, and the keyword arguments it was
    created with; a field that is absent reads as [None]. *)
Record t := mk {
  content : str;
  nindex : Z;
  begin_nindex : option Z;
  end_nindex : option Z;
  kwargs : Kwargs
}.

(** Modelled from the spec: [Note(noteutil, content, nindex, **kwargs)]; the
    end of the range is assigned later, by [make_note] and
    [_complete_headings]. *)
Definition init (content : str) (nindex : Z) (kwargs : Kwargs) : t :=
  {| content := content; nindex := nindex;
     begin_nindex := kw_int kwargs "begin_nindex"; end_nindex := None;
     kwargs := kwargs |}.

Definition level (n : t) : option Z := kw_int (kwargs n) "level".
Definition heading_name (n : t) : option str := kw_str (kwargs n) "heading_name".
Definition term (n : t) : option str := kw_str (kwargs n) "term".
Definition definition (n : t) : option str := kw_str (kwargs n) "definition".
Definition extensions (n : t) : list Extension :=
  match kwargs n !! "extensions" with Some (VExtensions l) => l | _ => [] end.

(** Modelled from the spec: [Note.is_heading] and [Note.is_pair] of
    [notes.py]; the heading fields are present only on a heading and the
    pair fields only on a pair (section 3). *)
Definition is_heading (n : t) : bool := bool_decide (is_Some (level n)).
Definition is_pair (n : t) : bool := bool_decide (is_Some (term n)).

(** The level of a heading; only ever read from a heading, whose level is
    present. *)
Definition level_of (n : t) : Z := default 0%Z (level n).

(** Attribute assignments [n.nindex = v], [n.begin_nindex = v] and
    [n.end_nindex = v]. *)
Definition set_nindex (v : Z) (n : t) : t :=
  {| content := content n; nindex := v; begin_nindex := begin_nindex n;
     end_nindex := end_nindex n; kwargs := kwargs n |}.

Definition set_begin_nindex (v : option Z) (n : t) : t :=
  {| content := content n; nindex := nindex n; begin_nindex := v;
     end_nindex := end_nindex n; kwargs := kwargs n |}.

Definition set_end_nindex (v : option Z) (n : t) : t :=
  {| content := content n; nindex := nindex n; begin_nindex := begin_nindex n;
     end_nindex := v; kwargs := kwargs n |}.

End Note.

Abbreviation Note := Note.t.

(** ** The configuration read by [_read_config] *)

Record Config := mkConfig {
  comments : option str;
  blocks : option str;
  separator : option str;
  heading_char : option str;
  levels : Z;
  level_names : list str;
  category_names : list str;
  category_prefixes : list str;
  extension_names : list str;
  extension_bounds : list (str * str)
}.

Definition LF : ascii := "010"%char.

(** ** The methods of [NoteUtil] *)

Section NoteUtil.

(** The configured instance. *)
Variable self : Config.

(** The properties [Note.next_heading] and [Note.previous_heading] of
    [notes.py] are not among the sources and the methods below are
    embedded for any such pair: [next_heading notes note] is the heading
    that [make_note] reads for a note not yet in the list, and
    [previous_heading notes p] is the position in [notes] of the heading
    that [insert] and [delete] adjust for the note at position [p]. *)
Variable next_heading : list Note → Note → option Note.
Variable previous_heading : list Note → nat → option nat.

(** *** Properties *)

(** [self.pairs] *)
Definition pairs (notes : list Note) : list Note :=
  List.filter Note.is_pair notes.

(** [self.heading_order]: every heading with its position in [notes],
    which stands for the identity of the Note object: by it the loops of
    [_complete_headings] find the object again to assign to it. *)
Definition heading_order (notes : list Note) : list (nat * Note) :=
  List.filter (λ h, Note.is_heading h.2) (enumerate_from 0 notes).

(** [self.heading_names] *)
Definition heading_names (notes : list Note) : list (option str) :=
  (λ h, Note.heading_name h.2) <$> heading_order notes.

(** [{name: [] for name in self.level_names}]: a dictionary keeps its keys
    in the order of their first insertion, each key once. *)
Fixpoint dict_fromkeys (names seen : list str) : list (str * list (nat * Note)) :=
  match names with
  | [] => []
  | k :: names' =>
      if bool_decide (k ∈ seen) then dict_fromkeys names' seen
      else (k, []) :: dict_fromkeys names' (k :: seen)
  end.

(** [d[key].append(h)] *)
Definition dict_append (key : str) (h : nat * Note)
    (d : list (str * list (nat * Note))) : list (str * list (nat * Note)) :=
  (λ kv, if bool_decide (kv.1 = key) then (kv.1, kv.2 ++ [h]) else kv) <$> d.

(** [self.level_order] *)
Definition level_order (notes : list Note) : Result (list (str * list (nat * Note))) :=
  foldM (λ level_order note,
           level_name ← of_option IndexError
                          (getitem (level_names self) (Note.level_of note.2 - 1));
           Ok (dict_append level_name note level_order))
        (dict_fromkeys (level_names self) []) (heading_order notes).

(** *** [_read_notes] *)

(** [if line != "": yield line.strip()] *)
Definition yield_line (line : str) (rest : list str) : list str :=
  match line with
  | [] => rest
  | _ :: _ => strip line :: rest
  end.

(** The inner [while index < len(lines)] loop, which continues the line
    of a block with the raw lines that follow, up to the one that closes
    the block; [read_on] is the outer loop, which goes on behind that
    one. *)
Fixpoint absorb (read_on : list str → list str) (b : str) (line : str)
    (rest : list str) : list str :=
  match rest with
  | [] => yield_line (slice_to line (- Z.of_nat (length b))) []
  | l :: rest' =>
      let line := line ++ LF :: l in
      if endswith (strip l) b
      then yield_line (slice_to line (- Z.of_nat (length b))) (read_on rest')
      else absorb read_on b line rest'
  end.

(** The outer [while index < len(lines)] loop over the raw lines from
    [index] on. *)
Fixpoint read_lines (lines : list str) : list str :=
  match lines with
  | [] => []
  | line :: rest =>
      match blocks self with
      | Some b =>
          if startswith (strip line) b
          then absorb read_lines b (drop (length b) line) rest
          else yield_line line (read_lines rest)
      | None => yield_line line (read_lines rest)
      end
  end.

(** [_read_notes], on the text of the .nu file. *)
Definition _read_notes (text : str) : list str :=
  read_lines (split [LF] text).

(** *** [_make_note] and its four detection steps *)

Definition _detect_headings (notes : list Note) (content : str) (nindex : Z)
    (kwargs : Kwargs) : Result (str * Kwargs) :=
  match heading_char self with
  | Some hc =>
      if startswith content hc then
        let kwargs := <["heading_char" := VStr hc]> kwargs in
        let previous_level :=
          match last (heading_order notes) with
          | Some h => Note.level_of h.2
          | None => 0%Z
          end in
        let current_level := count hc content 0 (levels self) in
        let kwargs := <["level" := VInt current_level]> kwargs in
        level_name ← of_option IndexError
                       (getitem (level_names self) (current_level - 1));
        let kwargs := <["level_name" := VStr level_name]> kwargs in
        if (current_level - previous_level >? 1)%Z
        then Raise (HeadingJump content previous_level current_level)
        else
          let heading := repeat_str hc current_level in
          let kwargs := <["heading" := VStr heading]> kwargs in
          let content := lstrip (drop (length heading) content) in
          let kwargs := <["heading_name" := VStr content]> kwargs in
          if bool_decide (Some content ∈ heading_names notes)
          then Raise (DuplicateHeading content)
          else Ok (content, <["begin_nindex" := VInt (nindex + 1)]> kwargs)
      else Ok (content, kwargs)
  | None => Ok (content, kwargs)
  end.

Definition _detect_categories (content : str) (kwargs : Kwargs) : str * Kwargs :=
  let kwargs := <["category_names" := VList []]> kwargs in
  let kwargs := <["category_prefixes" := VList []]> kwargs in
  foldl (λ '(content, kwargs) '(name, prefix),
           if startswith content prefix
           then (lstrip (drop (length prefix) content),
                 kw_append "category_prefixes" prefix
                   (kw_append "category_names" name kwargs))
           else (content, kwargs))
        (content, kwargs)
        (zip (category_names self) (category_prefixes self)).

(** The [while lbound in content] loop of [_detect_extensions] for one
    configured extension.  [find] answers both [lbound in content] and
    [content.index(lbound)], and likewise for [rbound] behind [lindex]. *)
Fixpoint extension_loop (rounds : nat) (name lbound rbound : str)
    (content : str) (kwargs : Kwargs) : Result (str * Kwargs) :=
  match find lbound content with
  | None => Ok (content, kwargs)
  | Some i =>
      match rounds with
      | 0 => Raise Unfinished
      | S rounds' =>
          let lindex := i + length lbound in
          match find rbound (drop lindex content) with
          | Some j =>
              let rindex := lindex + j in
              let kwargs :=
                kw_append_extension "extensions"
                  (Extension.mk (strip (take (rindex - lindex) (drop lindex content)))
                               name lbound rbound) kwargs in
              let kwargs :=
                if bool_decide (name ∈ kw_list kwargs "extension_names")
                then kwargs
                else kw_append "extension_names" name kwargs in
              let content :=
                strip (take (lindex - length lbound) content) ++ lit " "
                ++ strip (drop (rindex + length rbound) content) in
              extension_loop rounds' name lbound rbound content kwargs
          | None => Raise (MissingBound content lbound rbound)
          end
      end
  end.

(** The loop with as many rounds as it can need: every round shortens the
    content when both bounds are non-empty. *)
Definition extension_while (name lbound rbound : str) (content : str)
    (kwargs : Kwargs) : Result (str * Kwargs) :=
  extension_loop (S (length content)) name lbound rbound content kwargs.

Definition _detect_extensions (content : str) (kwargs : Kwargs)
    : Result (str * Kwargs) :=
  let kwargs := <["extensions" := VExtensions []]> kwargs in
  let kwargs := <["extension_bounds" := VBounds []]> kwargs in
  let kwargs := <["extension_names" := VList []]> kwargs in
  foldM (λ '(content, kwargs) '(name, (lbound, rbound)),
           let kwargs := kw_append_bounds "extension_bounds" (lbound, rbound) kwargs in
           extension_while name lbound rbound content kwargs)
        (content, kwargs)
        (zip (extension_names self) (extension_bounds self)).

(** [content.split(sep)]: ValueError for the empty separator. *)
Definition py_split (sep content : str) : Result (list str) :=
  match sep with
  | [] => Raise ValueError
  | _ :: _ => Ok (split sep content)
  end.

Definition _detect_pairs (notes : list Note) (content : str) (kwargs : Kwargs)
    : Result Kwargs :=
  match separator self with
  | Some sep =>
      if contains sep content then
        parts ← py_split sep content;
        if bool_decide (2 < length parts) then Raise (ExtraSeparator content)
        else
          term_part ← of_option IndexError (getitem parts 0);
          let kwargs := <["term" := VStr (strip term_part)]> kwargs in
          if bool_decide (Some (strip term_part) ∈ Note.term <$> pairs notes)
          then Raise (DuplicateTerm (strip term_part))
          else
            definition_part ← of_option IndexError (getitem parts 1);
            let kwargs := <["definition" := VStr (strip definition_part)]> kwargs in
            if bool_decide (strip definition_part = [])
            then Raise (NoDefinition content)
            else Ok (<["separator" := VStr sep]> kwargs)
      else Ok kwargs
  | None => Ok kwargs
  end.

Definition _make_note (notes : list Note) (content : str) (nindex : Z)
    : Result Note :=
  let kwargs : Kwargs := ∅ in
  '(content, kwargs) ← _detect_headings notes content nindex kwargs;
  let '(content, kwargs) := _detect_categories content kwargs in
  '(content, kwargs) ← _detect_extensions content kwargs;
  kwargs ← _detect_pairs notes content kwargs;
  let kwargs :=
    match kw_str kwargs "heading_name" with
    | Some (_ :: _) => <["heading_name" := VStr content]> kwargs
    | _ => kwargs
    end in
  Ok (Note.init content nindex kwargs).

(** *** [_complete_headings] *)

(** [while order_index != len(heading_order) and
            heading_order[order_index].level > heading.level: order_index += 1],
    where [rest] is [heading_order[order_index:]]. *)
Fixpoint skip_deeper (heading_level : Z) (rest : list (nat * Note))
    (order_index : nat) : nat :=
  match rest with
  | [] => order_index
  | h :: rest' =>
      if (Note.level_of h.2 >? heading_level)%Z
      then skip_deeper heading_level rest' (S order_index)
      else order_index
  end.

(** The body of the inner [for] loop, up to the assignment: the value of
    [end_nindex] for [headings[i]].  [l !! k] is [None] exactly when
    [k == len(l)] here, which is the test the source makes before it reads
    [l[k]]. *)
Definition end_nindex_for (N : Z) (heading_order headings : list (nat * Note))
    (i : nat) (heading : nat * Note) : Result Z :=
  let level_index := i + 1 in
  k ← of_option ValueError (list_index heading.1 heading_order.*1);
  let order_index :=
    skip_deeper (Note.level_of heading.2) (drop (k + 1) heading_order) (k + 1) in
  let level_nindex :=
    match headings !! level_index with
    | None => N
    | Some h => Note.nindex h.2
    end in
  let order_nindex :=
    match heading_order !! order_index with
    | None => N
    | Some h => Note.nindex h.2
    end in
  Ok (if (level_nindex <? order_nindex)%Z then level_nindex else order_nindex).

(** A [for] loop whose body assigns to Notes of the list: an exception
    leaves the assignments made so far. *)
Fixpoint for_each {A} (body : A → list Note → Result unit * list Note)
    (l : list A) (notes : list Note) : Result unit * list Note :=
  match l with
  | [] => (Ok (), notes)
  | x :: l' =>
      match body x notes with
      | (Ok _, notes') => for_each body l' notes'
      | (Raise e, notes') => (Raise e, notes')
      end
  end.

Definition _complete_headings (notes : list Note) : Result unit * list Note :=
  match heading_char self with
  | Some _ =>
      match level_order notes with
      | Raise e => (Raise e, notes)
      | Ok level_order =>
          let headings_by_level := level_order.*2 in
          let heading_order := heading_order notes in
          let N := Z.of_nat (length notes) in
          for_each (λ headings,
            for_each (λ '(i, heading) notes,
              match end_nindex_for N heading_order headings i heading with
              | Raise e => (Raise e, notes)
              | Ok e => (Ok (), alter (Note.set_end_nindex (Some e)) heading.1 notes)
              end) (enumerate_from 0 headings))
            headings_by_level notes
      end
  | None => (Ok (), notes)
  end.

(** *** [_make_notes] *)

(** The loop over [enumerate(self._read_notes())], with [self.notes] and
    [self.errors] as its state: the Note of a line is appended to
    [self.notes]; a [NoteError] is collected in [self.errors] and the line
    is left out; any other exception ends the loop and leaves both lists
    as they are by then. *)
Fixpoint make_notes_loop (lines : list (nat * str)) (notes : list Note)
    (errors : list exn) : Result unit * (list Note * list exn) :=
  match lines with
  | [] => (Ok (), (notes, errors))
  | (nindex, content) :: lines' =>
      match _make_note notes content (Z.of_nat nindex) with
      | Ok note => make_notes_loop lines' (notes ++ [note]) errors
      | Raise e =>
          if is_NoteError e
          then make_notes_loop lines' notes (errors ++ [e])
          else (Raise e, (notes, errors))
      end
  end.

(** [_make_notes]: the loop, then the headings are completed.  The result
    is [self.errors] where the method returns, the exception where it
    raises one, and [self.notes] as the method leaves it in either case. *)
Definition _make_notes (text : str) (notes : list Note)
    : Result (list exn) * list Note :=
  match make_notes_loop (enumerate_from 0 (_read_notes text)) notes [] with
  | (Raise e, (notes, _)) => (Raise e, notes)
  | (Ok _, (notes, errors)) =>
      match _complete_headings notes with
      | (Ok _, notes) => (Ok errors, notes)
      | (Raise e, notes) => (Raise e, notes)
      end
  end.

(** *** [insert], [delete], [make_note] and [edit] *)

(** [if n.previous_heading is not None and
        n.previous_heading.end_nindex is not None:
          n.previous_heading.end_nindex += d], for the note [n] at position
    [p] of [notes]. *)
Definition adjust_previous_heading (d : Z) (p : nat) (notes : list Note)
    : list Note :=
  match previous_heading notes p with
  | Some q =>
      match notes !! q ≫= Note.end_nindex with
      | Some e => alter (Note.set_end_nindex (Some (e + d)%Z)) q notes
      | None => notes
      end
  | None => notes
  end.

(** [range(a, b)] for [0 <= a] *)
Definition range (a b : nat) : list nat := seq a (b - a).

Definition insert (note : Note) (nindex : Z) (notes : list Note)
    : Result unit * list Note :=
  if negb ((0 <=? nindex)%Z && (nindex <=? Z.of_nat (length notes))%Z)
  then (Raise (NindexError nindex), notes)
  else
    let notes := list_insert notes nindex note in
    let notes := adjust_previous_heading 1 (Z.to_nat nindex) notes in
    let notes :=
      foldl (λ notes i,
               alter (λ n,
                        let n := Note.set_nindex (Note.nindex n + 1)%Z n in
                        if Note.is_heading n
                        then Note.set_begin_nindex (Some (Note.nindex n + 1)%Z) n
                        else n) i notes)
            notes (range (Z.to_nat nindex + 1) (length notes)) in
    _complete_headings notes.

Definition delete (nindex : Z) (notes : list Note) : Result unit * list Note :=
  if negb ((0 <=? nindex)%Z && (nindex <? Z.of_nat (length notes))%Z)
  then (Raise (NindexError nindex), notes)
  else
    let notes := adjust_previous_heading (-1) (Z.to_nat nindex) notes in
    let notes := base.delete (Z.to_nat nindex) notes in
    let notes :=
      foldl (λ notes i,
               alter (λ note,
                        let note := Note.set_nindex (Note.nindex note - 1)%Z note in
                        if Note.is_heading note
                        then Note.set_begin_nindex
                               ((λ b, (b - 1)%Z) <$> Note.begin_nindex note) note
                        else note) i notes)
            notes (range (Z.to_nat nindex) (length notes)) in
    _complete_headings notes.

Definition make_note (content : str) (nindex : Z) (notes : list Note)
    : Result Note * list Note :=
  match _make_note notes content nindex with
  | Raise e => (Raise e, notes)
  | Ok note =>
      let note :=
        Note.set_end_nindex
          (Some (match next_heading notes note with
                 | Some h => Note.nindex h
                 | None => Z.of_nat (length notes)
                 end)) note in
      match insert note nindex notes with
      | (Raise e, notes) => (Raise e, notes)
      | (Ok _, notes) => (Ok (default note (notes !! Z.to_nat nindex)), notes)
      end
  end.

Definition edit (nindex : Z) (content : str) (notes : list Note)
    : Result Note * list Note :=
  let content := strip content in
  match pop notes nindex with
  | None => (Raise IndexError, notes)
  | Some (old_note, notes) =>
      match make_note content nindex notes with
      | (Raise e, notes) =>
          if is_NoteError e
          then (Raise e, list_insert notes nindex old_note)
          else (Raise e, notes)
      | (Ok _, notes) => (of_option IndexError (getitem notes nindex), notes)
      end
  end.

End NoteUtil.


(** ** Notions of the specification *)

(** The [nindex] fields are exactly [0 .. N-1] in list order. *)
Definition consistent (notes : list Note) : Prop :=
  Note.nindex <$> notes = Z.of_nat <$> seq 0 (length notes).

(** The number of repeated occurrences of the marker at the start of a
    line. *)
Fixpoint leading_run (rounds : nat) (marker line : str) : nat :=
  match rounds with
  | 0 => 0
  | S r =>
      if startswith line marker
      then S (leading_run r marker (drop (length marker) line))
      else 0
  end.

(** The level that the specification gives a heading line: the repeated
    marker occurrences at its start, capped at the largest level. *)
Definition spec_level (marker line : str) (max_level : Z) : Z :=
  Z.min (Z.of_nat (leading_run (length line) marker line)) max_level.

(** The headings behind position [p], in chronological order. *)
Definition later_headings (notes : list Note) (p : nat) : list (nat * Note) :=
  List.filter (λ h, p <? h.1) (heading_order notes).

(** Sibling boundary of the heading [h] at position [p]: the [nindex] of
    the next heading at the same level, or the size of the store. *)
Definition sibling_boundary (notes : list Note) (p : nat) (h : Note) : Z :=
  match List.find (λ h', (Note.level_of h'.2 =? Note.level_of h)%Z)
                  (later_headings notes p) with
  | Some h' => Note.nindex h'.2
  | None => Z.of_nat (length notes)
  end.

(** Ancestor boundary: the [nindex] of the first heading behind [h] whose
    level is not greater than that of [h], or the size of the store. *)
Definition ancestor_boundary (notes : list Note) (p : nat) (h : Note) : Z :=
  match List.find (λ h', (Note.level_of h'.2 <=? Note.level_of h)%Z)
                  (later_headings notes p) with
  | Some h' => Note.nindex h'.2
  | None => Z.of_nat (length notes)
  end.

(** The parent of the heading [c] at position [p]: the nearest heading
    before it with a smaller level. *)
Definition parent (notes : list Note) (p : nat) (c : Note) : option (nat * Note) :=
  last (List.filter (λ h, (h.1 <? p) && (Note.level_of h.2 <? Note.level_of c)%Z)
                    (heading_order notes)).

(** Every heading begins its range behind itself. *)
Definition headings_begin (notes : list Note) : Prop :=
  ∀ p n, notes !! p = Some n → Note.is_heading n = true →
         Note.begin_nindex n = Some (Note.nindex n + 1)%Z.

(** ** Configurations and documents of the examples *)

Module Examples.

(** No headings, categories or extensions; pairs separated by "::". *)
Definition plain : Config :=
  {| comments := None; blocks := None; separator := Some (lit "::");
     heading_char := None; levels := 0; level_names := [];
     category_names := []; category_prefixes := [];
     extension_names := []; extension_bounds := [] |}.

(** The schema of the first scenario of section 8 of the specification,
    with blocks delimited by "%%" and the extension "tag" of the second. *)
Definition book : Config :=
  {| comments := None; blocks := Some (lit "%%"); separator := Some (lit "::");
     heading_char := Some (lit "#"); levels := 2;
     level_names := [lit "Chapter"; lit "Section"];
     category_names := []; category_prefixes := [];
     extension_names := [lit "tag"]; extension_bounds := [(lit "[", lit "]")] |}.

(** Three levels. *)
Definition outline : Config :=
  {| comments := None; blocks := None; separator := None;
     heading_char := Some (lit "#"); levels := 3;
     level_names := [lit "Part"; lit "Chapter"; lit "Section"];
     category_names := []; category_prefixes := [];
     extension_names := []; extension_bounds := [] |}.

(** Two levels under one name. *)
Definition same_names : Config :=
  {| comments := None; blocks := None; separator := None;
     heading_char := Some (lit "#"); levels := 2;
     level_names := [lit "Part"; lit "Part"];
     category_names := []; category_prefixes := [];
     extension_names := []; extension_bounds := [] |}.

Definition lines (l : list string) : str :=
  match l with
  | [] => []
  | x :: l' => foldl (λ acc y, acc ++ LF :: lit y) (lit x) l'
  end.

(** A store without headings. *)
Definition no_heading_next : list Note → Note → option Note := λ _ _, None.
Definition no_heading_before : list Note → nat → option nat := λ _ _, None.

(** The store that [__init__] builds from a document. *)
Definition parse (self : Config) (doc : list string) : list Note :=
  (_make_notes self (lines doc) []).2.

Definition book_doc : list string :=
  ["# Intro"; "term:: def"; "## Sub"; "other:: stuff"].

Definition two_notes : list Note := parse plain ["first"; "second"].

(** A chapter with two sections, and a second chapter. *)
Definition chapters : list Note :=
  parse book ["# A"; "## B"; "x"; "## C"; "# D"; "y"].

(** A heading of level 1 and a heading of level 2 under one level name. *)
Definition one_name : list Note :=
  parse same_names ["# A"; "## B"; "x"].

End Examples.

(** The two entries that one round of the loop of [_detect_extensions]
    makes in [kwargs] for the text [inner] found between the bounds. *)
Definition record_extension (name lbound rbound inner : str) (kwargs : Kwargs)
    : Kwargs :=
  let kwargs :=
    kw_append_extension "extensions"
      (Extension.mk (strip inner) name lbound rbound) kwargs in
  if bool_decide (name ∈ kw_list kwargs "extension_names")
  then kwargs
  else kw_append "extension_names" name kwargs.

(** What identifies a Note in the store and where it stands: its content,
    the keyword arguments it was made from, and its [nindex]. *)
Definition core (n : Note) : str * Kwargs * Z :=
  (Note.content n, Note.kwargs n, Note.nindex n).

(** The same Note with its [nindex] moved by [d]. *)
Definition moved (d : Z) (c : str * Kwargs * Z) : str * Kwargs * Z :=
  (c.1.1, c.1.2, (c.2 + d)%Z).

(** A line continued with further raw lines, each behind a line break. *)
Definition continued (line : str) (more : list str) : str :=
  foldl (λ line l, line ++ LF :: l) line more.

(** The level of every heading has a name. *)
Definition valid_levels (self : Config) (notes : list Note) : Prop :=
  ∀ p n, notes !! p = Some n → Note.is_heading n = true →
         (1 ≤ Note.level_of n ≤ Z.of_nat (length (level_names self)))%Z.

(** The heading [h] is filed under the level name [k] by [level_order]. *)
Definition filed_under (self : Config) (k : str) (h : nat * Note) : bool :=
  bool_decide (getitem (level_names self) (Note.level_of h.2 - 1) = Some k).

(** The smaller of the two boundaries of the Note at position [p]. *)
Definition resolved_end (notes : list Note) (p : nat) : Z :=
  match notes !! p with
  | Some n => Z.min (sibling_boundary notes p n) (ancestor_boundary notes p n)
  | None => 0
  end.

(** The assignments [notes[p].end_nindex = E p] for the positions [ps]. *)
Definition assign_ends (E : nat → Z) (ps : list nat) (notes : list Note)
    : list Note :=
  foldl (λ notes p, alter (Note.set_end_nindex (Some (E p))) p notes) notes ps.

(** Positions that increase along a list of headings. *)
Fixpoint increasing (l : list (nat * Note)) : Prop :=
  match l with
  | [] => True
  | x :: l' => Forall (λ y, x.1 < y.1) l' ∧ increasing l'
  end.

(** Two headings at the same position that agree in all but the ends of
    their ranges. *)
Definition same_heading (x y : nat * Note) : Prop :=
  x.1 = y.1 ∧ core x.2 = core y.2.


(** The level that [_detect_headings] compares a new heading with: that of
    the last heading of the store, or 0. *)
Definition previous_level (notes : list Note) : Z :=
  match last (heading_order notes) with
  | Some h => Note.level_of h.2
  | None => 0
  end.

(** What the two loops of [insert] and [delete] and the resolver read and
    write of a Note besides the end of its range. *)
Definition frame (n : Note) : Kwargs * Z * option Z :=
  (Note.kwargs n, Note.nindex n, Note.begin_nindex n).

(** A heading begins its range behind itself. *)
Definition begins_behind (n : Note) : Prop :=
  Note.is_heading n = true → Note.begin_nindex n = Some (Note.nindex n + 1)%Z.

(** The level of a heading has a name in [level_names]. *)
Definition named_level (self : Config) (n : Note) : Prop :=
  Note.is_heading n = true →
  is_Some (getitem (level_names self) (Note.level_of n - 1)).

(** Along a list of headings no heading is more than one level deeper than
    the heading before it; [prev] is the level before the first. *)
Fixpoint stepwise (prev : Z) (l : list (nat * Note)) : Prop :=
  match l with
  | [] => True
  | h :: l' => (Note.level_of h.2 - prev ≤ 1)%Z ∧ stepwise (Note.level_of h.2) l'
  end.

(** The headings of the store descend by at most one level at a time,
    from level 0 before the first heading. *)
Definition level_steps (notes : list Note) : Prop :=
  stepwise 0 (heading_order notes).

(** What holds of [self.notes] and [self.errors] when the loop of
    [_make_notes] has read [lines] logical lines. *)
Definition made_from (self : Config) (lines : nat) (notes : list Note)
    (errors : list exn) : Prop :=
  length notes + length errors = lines ∧
  (errors = [] → consistent notes) ∧
  (∀ p n, notes !! p = Some n → (Z.of_nat p ≤ Note.nindex n < Z.of_nat lines)%Z) ∧
  Forall begins_behind notes ∧
  Forall (named_level self) notes ∧
  NoDup (Note.term <$> pairs notes) ∧
  level_steps notes ∧
  Forall (λ e, is_NoteError e = true) errors.

(** A configuration under which the detection steps find what they look
    up: a heading marker of one character with as many level names as
    [levels] says and at least one, a separator that is not the empty
    string, and extension bounds that are not empty strings. *)
Definition well_formed (self : Config) : Prop :=
  match heading_char self with
  | Some hc =>
      (∃ c, hc = [c]) ∧ levels self = Z.of_nat (length (level_names self)) ∧
      1 ≤ length (level_names self)
  | None => True
  end ∧
  separator self ≠ Some [] ∧
  Forall (λ b : str * str, b.1 ≠ [] ∧ b.2 ≠ []) (extension_bounds self).

(** ** The queries [get], [get_list], [iget] and [iget_list]

    The keyword arguments of a query map attribute names to values of any
    kind, among them possibly a comparison under the key "compare".  The
    comparisons are defined in [comparisons.py]; here a comparison is any
    function of a Note and the keyword arguments, [EQUALS] is the default
    one, [truthy] is the truth value of a value and [as_compare] the
    function that a value is when it is called. *)
Section Queries.

Context {V : Type}.
Variable truthy : V → bool.
Variable as_compare : V → Note → gmap string V → bool.
Variable EQUALS : Note → gmap string V → bool.

(** [compare = kwargs.pop("compare") if kwargs.get("compare", False)
              else CompareOptions.EQUALS]: the comparison and the keyword
    arguments that are left. *)
Definition pop_compare (kwargs : gmap string V)
    : (Note → gmap string V → bool) * gmap string V :=
  match kwargs !! "compare" with
  | Some v =>
      if truthy v then (as_compare v, base.delete "compare" kwargs)
      else (EQUALS, kwargs)
  | None => (EQUALS, kwargs)
  end.

(** [notes if notes else None] *)
Definition or_None {A} (l : list A) : option (list A) :=
  match l with [] => None | _ :: _ => Some l end.

Definition get (kwargs : gmap string V) (notes : list Note) : option Note :=
  if bool_decide (kwargs = ∅) then None
  else
    let '(compare, kwargs) := pop_compare kwargs in
    List.find (λ note, compare note kwargs) notes.

Definition get_list (kwargs : gmap string V) (notes : list Note)
    : option (list Note) :=
  if bool_decide (kwargs = ∅) then None
  else
    let '(compare, kwargs) := pop_compare kwargs in
    or_None (List.filter (λ note, compare note kwargs) notes).

Definition iget (kwargs : gmap string V) (notes : list Note) : option Note :=
  if bool_decide (kwargs = ∅) then None
  else
    let '(compare, kwargs) := pop_compare kwargs in
    List.find (λ note, negb (compare note kwargs)) notes.

Definition iget_list (kwargs : gmap string V) (notes : list Note)
    : option (list Note) :=
  if bool_decide (kwargs = ∅) then None
  else
    let '(compare, kwargs) := pop_compare kwargs in
    or_None (List.filter (λ note, negb (compare note kwargs)) notes).

End Queries.

(** The Note that a call has returned, for the examples. *)
Definition returned (r : Result Note) : Note :=
  match r with
  | Ok note => note
  | Raise _ => Note.init [] 0 ∅
  end.

(** ** The note file and the .nu file

    [f.readlines()] on the text of a file opened in text mode: the lines
    with their line breaks; the last line has none when the text does not
    end with one. *)
Fixpoint file_readlines (text : str) : list str :=
  match text with
  | [] => []
  | c :: text' =>
      if Ascii.eqb c LF then [LF] :: file_readlines text'
      else match file_readlines text' with
           | [] => [[c]]
           | line :: lines => (c :: line) :: lines
           end
  end.

(** [_parse_notes], from the text of the note file to the text that is
    written to the .nu file; that the note file exists is not part of the
    model. *)
Definition _parse_notes (self : Config) (text : str) : str :=
  foldl (λ raw_notes line,
           if match comments self with
              | Some c => startswith (strip line) c
              | None => false
              end
           then raw_notes
           else if str_eqb (strip line) [] then raw_notes
           else raw_notes ++ line)
        [] (file_readlines text).

(** The lines that [_parse_notes] passes on: neither a comment nor
    blank. *)
Definition passed (self : Config) (line : str) : bool :=
  negb (match comments self with
        | Some c => startswith (strip line) c
        | None => false
        end)
  && negb (str_eqb (strip line) []).

(** Lines as [readlines] returns them: each ends with its line break and
    has no other, but for the last, which may have none. *)
Inductive file_lines : list str → Prop :=
| file_lines_nil : file_lines []
| file_lines_last body : LF ∉ body → body ≠ [] → file_lines [body]
| file_lines_cons body lines :
    LF ∉ body → file_lines lines → file_lines ((body ++ [LF]) :: lines).

(** A configuration with a comment marker, for the examples. *)
Definition commented_book : Config :=
  {| comments := Some (lit "//"); blocks := Some (lit "%%");
     separator := Some (lit "::");
     heading_char := Some (lit "#"); levels := 2;
     level_names := [lit "Chapter"; lit "Section"];
     category_names := []; category_prefixes := [];
     extension_names := [lit "tag"]; extension_bounds := [(lit "[", lit "]")] |}.

(** ** The configuration file *)

(** The exceptions of [_parse_config] and [_read_config]: the three
    errors of the configuration that they raise, the [StopIteration] of
    [next] on the exhausted generator, and the [ValueError] of [int]. *)
Inductive config_exn : Type :=
| ExtraLine (index : nat)
| UnexpectedLine (index : nat)
| IncorrectConfig (lines : nat)
| StopIteration
| IntValueError.

Definition CONFIG_IGNORE_PREFIX : str := lit "#|".

(** The loop of [_parse_config] from [index] on; [lines] is the whole
    list, for [lines[index - 1]], which is read only where [index != 0]. *)
Fixpoint parse_config_loop (lines : list str) (index : nat) (rest : list str)
    (raw_config : str) : config_exn + str :=
  match rest with
  | [] => inr raw_config
  | line :: rest' =>
      let previous : str := default [] (lines !! (index - 1) : option str) in
      if startswith line [LF] && negb (index =? 0) && startswith previous [LF]
      then inl (ExtraLine index)
      else if startswith line [LF] && negb (index =? 0)
              && negb (startswith (strip previous) CONFIG_IGNORE_PREFIX)
      then inl (UnexpectedLine index)
      else
        let line := strip line in
        if startswith line CONFIG_IGNORE_PREFIX
        then parse_config_loop lines (S index) rest' raw_config
        else parse_config_loop lines (S index) rest' (raw_config ++ line ++ [LF])
  end.

(** [_parse_config], from the text of the configuration file to the text
    of the temporary one. *)
Definition _parse_config (text : str) : config_exn + str :=
  let lines := file_readlines text in
  parse_config_loop lines 0 lines [].

(** A blank line that [_parse_config] rejects: one that is not the first
    line and does not follow a comment line. *)
Definition misplaced (lines : list str) (index : nat) : bool :=
  startswith (default [] (lines !! index : option str)) [LF] && negb (index =? 0)
  && negb (startswith (strip (default [] (lines !! (index - 1) : option str)))
             CONFIG_IGNORE_PREFIX).

(** [s.split()]: the words between runs of white space; [word] is the
    word that is being read, backwards. *)
Fixpoint words_from (word : str) (s : str) : list str :=
  match s with
  | [] => match word with [] => [] | _ :: _ => [rev word] end
  | c :: s' =>
      if isspace c
      then match word with
           | [] => words_from [] s'
           | _ :: _ => rev word :: words_from [] s'
           end
      else words_from (c :: word) s'
  end.

Definition split_whitespace (s : str) : list str := words_from [] s.

(** [x or None] on a string *)
Definition str_or_None (s : str) : option str :=
  match s with [] => None | _ :: _ => Some s end.

(** The module-level [readlines]: the lines of the text, stripped. *)
Definition readlines (text : str) : list str := strip <$> split [LF] text.

Module Attributes.

(** The attributes that [_read_config] assigns.  [levels] and
    [level_names] are assigned only with a heading marker; a bounds tuple
    has as many parts as its line has words. *)
Record t := mk {
  note_file : str;
  nu_file : str;
  comments : option str;
  blocks : option str;
  separator : option str;
  headings : option (str * Z * list str);
  category_names : list str;
  category_prefixes : list str;
  extension_names : list str;
  extension_bounds : list (list str)
}.

End Attributes.

(** A step that reads from the generator [lines]: it fails, or returns a
    value and what is left of the generator. *)
Definition Reader (A : Type) : Type := list str → config_exn + (A * list str).

#[global] Instance Reader_ret : MRet Reader := λ A a lines, inr (a, lines).

#[global] Instance Reader_bind : MBind Reader :=
  λ A B f m lines, match m lines with
                   | inl e => inl e
                   | inr (a, lines') => f a lines'
                   end.

(** [next(lines)] *)
Definition next : Reader str :=
  λ lines, match lines with
           | [] => inl StopIteration
           | line :: lines' => inr (line, lines')
           end.

(** [for _ in range(n): l.append(next(lines))] *)
Fixpoint next_n (n : nat) : Reader (list str) :=
  match n with
  | 0 => mret []
  | S n' => x ← next; l ← next_n n'; mret (x :: l)
  end.

Section ReadConfig.

(** [int] on a string, [None] for its ValueError. *)
Variable int : str → option Z.

Definition read_int (s : str) : Reader Z :=
  λ lines, match int s with
           | Some z => inr (z, lines)
           | None => inl IntValueError
           end.

Definition _read_headings : Reader (option (str * Z * list str)) :=
  heading_char ← next;
  match str_or_None heading_char with
  | Some heading_char =>
      line ← next;
      levels ← read_int line;
      level_names ← next_n (Z.to_nat levels);
      mret (Some (heading_char, levels, level_names))
  | None =>
      _ ← next;
      _ ← next;
      mret None
  end.

Definition _read_categories : Reader (list str * list str) :=
  category_number ← next;
  match str_or_None category_number with
  | Some category_number =>
      n ← read_int category_number;
      category_names ← next_n (Z.to_nat n);
      n ← read_int category_number;
      category_prefixes ← next_n (Z.to_nat n);
      mret (category_names, category_prefixes)
  | None =>
      _ ← next;
      _ ← next;
      mret ([], [])
  end.

Definition _read_extensions : Reader (list str * list (list str)) :=
  extension_number ← next;
  match str_or_None extension_number with
  | Some extension_number =>
      n ← read_int extension_number;
      extension_names ← next_n (Z.to_nat n);
      n ← read_int extension_number;
      bounds ← next_n (Z.to_nat n);
      mret (extension_names, split_whitespace <$> bounds)
  | None =>
      _ ← next;
      _ ← next;
      mret ([], [])
  end.

(** [_read_config], on the text of the temporary configuration file.
    [split] never returns an empty list, so that [split(".")[0]] is there. *)
Definition _read_config (text : str) : config_exn + Attributes.t :=
  let lines := file_readlines text in
  if length lines <? 13 then inl (IncorrectConfig (length lines))
  else
    let read : Reader Attributes.t :=
      note_file ← next;
      let nu_file := default [] (head (split (lit ".") note_file)) ++ lit ".nu" in
      comments ← next;
      blocks ← next;
      separator ← next;
      headings ← _read_headings;
      categories ← _read_categories;
      extensions ← _read_extensions;
      mret {| Attributes.note_file := note_file;
             Attributes.nu_file := nu_file;
             Attributes.comments := str_or_None comments;
             Attributes.blocks := str_or_None blocks;
             Attributes.separator := str_or_None separator;
             Attributes.headings := headings;
             Attributes.category_names := categories.1;
             Attributes.category_prefixes := categories.2;
             Attributes.extension_names := extensions.1;
             Attributes.extension_bounds := extensions.2 |} in
    match read (readlines text) with
    | inl e => inl e
    | inr (attributes, _) => inr attributes
    end.

End ReadConfig.

(** The bounds tuples as the pairs that [_detect_extensions] unpacks;
    [None] where a tuple is not a pair, which is a ValueError there. *)
Definition bounds_pairs (bounds : list (list str)) : option (list (str * str)) :=
  mapM (λ b, match b with [l; r] => Some (l, r) | _ => None end) bounds.

(** The configuration of the methods, from the attributes that
    [_read_config] has assigned.  Without a heading marker [levels] and
    [level_names] are not assigned; no method reads them then, and they
    stand here as 0 and the empty list. *)
Definition config_of (a : Attributes.t) : option Config :=
  bounds ← bounds_pairs (Attributes.extension_bounds a);
  Some {| comments := Attributes.comments a;
          blocks := Attributes.blocks a;
          separator := Attributes.separator a;
          heading_char := (λ h : str * Z * list str, h.1.1) <$> Attributes.headings a;
          levels := default 0%Z ((λ h : str * Z * list str, h.1.2) <$> Attributes.headings a);
          level_names := default [] ((λ h : str * Z * list str, h.2) <$> Attributes.headings a);
          category_names := Attributes.category_names a;
          category_prefixes := Attributes.category_prefixes a;
          extension_names := Attributes.extension_names a;
          extension_bounds := bounds |}.

(** The attributes that a call of [_read_config] has assigned, and a
    configuration file with its [int], for the examples. *)
Definition assigned (r : config_exn + Attributes.t) : Attributes.t :=
  match r with
  | inr a => a
  | inl _ =>
      {| Attributes.note_file := []; Attributes.nu_file := [];
         Attributes.comments := None; Attributes.blocks := None;
         Attributes.separator := None; Attributes.headings := None;
         Attributes.category_names := []; Attributes.category_prefixes := [];
         Attributes.extension_names := []; Attributes.extension_bounds := [] |}
  end.

Definition small_int (s : str) : option Z :=
  if str_eqb s (lit "1") then Some 1%Z
  else if str_eqb s (lit "2") then Some 2%Z
  else None.

Definition config_text : str :=
  Examples.lines
    ["#| the note file"; "notes.txt"; "#| comments, blocks, separator";
     "//"; "%%"; "::"; "#| headings"; "#"; "2"; "Chapter"; "Section";
     "#| no categories"; ""; "#|"; ""; "#|"; "";
     "#| one extension"; "1"; "tag"; "[ ]"; ""].

Definition returned_text (r : config_exn + str) : str :=
  match r with inr text => text | inl _ => [] end.

(** * Properties *)

(** Closed goals are decided by evaluation. *)
Ltac by_compute := vm_compute; reflexivity.

Ltac z_bounds :=
  split; first [apply Z.leb_le | apply Z.ltb_lt]; vm_compute; reflexivity.

Lemma pair_eq {A B} (x : A * B) (a : A) (b : B) : x.1 = a → x.2 = b → x = (a, b).
Proof. destruct x. simpl. congruence. Qed.

Lemma pair_eq_snd {A B} (x : A * B) (a : A) : x.1 = a → x = (a, x.2).
Proof. destruct x. simpl. congruence. Qed.

(** ** Strings *)

Section strings.

Implicit Types s sub sep prefix : str.

Lemma startswith_app s prefix : startswith (prefix ++ s) prefix = true.
Proof.
  induction prefix as [|a prefix IH]; simpl; [done|].
  rewrite Ascii.eqb_refl; simpl; exact IH.
Qed.

Lemma startswith_inv s prefix :
  startswith s prefix = true → s = prefix ++ drop (length prefix) s.
Proof.
  revert s; induction prefix as [|a prefix IH]; intros [|b s]; simpl; try done.
  intros [Hab Hs]%andb_true_iff. apply Ascii.eqb_eq in Hab as ->.
  f_equal. by apply IH.
Qed.

Lemma startswith_length s prefix :
  startswith s prefix = true → length prefix ≤ length s.
Proof.
  intros H%startswith_inv. rewrite H, length_app. lia.
Qed.

Lemma find_Some sub s i :
  find sub s = Some i → s = take i s ++ sub ++ drop (i + length sub) s.
Proof.
  revert i; induction s as [|c s IH]; intros i; simpl.
  - destruct (startswith [] sub) eqn:E; [|done].
    intros [= <-]. by apply startswith_inv in E.
  - destruct (startswith (c :: s) sub) eqn:E.
    + intros [= <-]. by apply startswith_inv in E.
    + destruct (find sub s) as [j|] eqn:F; simpl; [|done].
      intros [= <-]. simpl. f_equal. by apply IH.
Qed.

Lemma find_Some_length sub s i :
  find sub s = Some i → i + length sub ≤ length s.
Proof.
  revert i; induction s as [|c s IH]; intros i; simpl.
  - destruct (startswith [] sub) eqn:E; [|done].
    intros [= <-]. by apply startswith_length in E.
  - destruct (startswith (c :: s) sub) eqn:E.
    + intros [= <-]. by apply startswith_length in E.
    + destruct (find sub s) as [j|] eqn:F; simpl; [|done].
      intros [= <-]. specialize (IH j eq_refl). simpl. lia.
Qed.

Lemma find_app_first sub a s :
  find sub (a ++ sub ++ s) = Some (length a) →
  take (length a) (a ++ sub ++ s) = a ∧
  drop (length a + length sub) (a ++ sub ++ s) = s.
Proof.
  intros _. split.
  - by rewrite take_app_length.
  - rewrite <-drop_drop, drop_app_length. by rewrite drop_app_length.
Qed.

(** Enough rounds: the result of [split_rounds] no longer depends on the
    counter once it is at least the length of the string. *)
Lemma split_rounds_enough sep s r :
  sep ≠ [] → length s ≤ r →
  split_rounds r sep s = split_rounds (length s) sep s.
Proof.
  intros Hsep. revert s.
  induction r as [r IH] using lt_wf_ind. intros s Hr.
  destruct r as [|r], (length s) as [|n] eqn:Hn; simpl; try done; try lia.
  - destruct (find sep s) as [i|] eqn:F; [|done].
    apply find_Some_length in F. destruct sep; [done|simpl in F; lia].
  - destruct (find sep s) as [i|] eqn:F; [|done].
    apply find_Some_length in F.
    assert (0 < length sep) by (destruct sep; [done|simpl; lia]).
    f_equal.
    assert (length (drop (i + length sep) s) ≤ n)
      by (rewrite length_drop; lia).
    transitivity (split_rounds (length (drop (i + length sep) s)) sep
                    (drop (i + length sep) s)).
    + apply IH; lia.
    + symmetry. apply IH; lia.
Qed.

Lemma split_unfold sep s :
  sep ≠ [] →
  split sep s =
    match find sep s with
    | None => [s]
    | Some i => take i s :: split sep (drop (i + length sep) s)
    end.
Proof.
  intros Hsep. unfold split at 1.
  destruct (find sep s) as [i|] eqn:F.
  - pose proof (find_Some_length _ _ _ F).
    assert (0 < length sep) by (destruct sep; [done|simpl; lia]).
    destruct (length s) as [|n] eqn:Hn; [lia|]. simpl. rewrite F.
    f_equal. apply split_rounds_enough; [done|]. rewrite length_drop. lia.
  - destruct (length s); simpl; by rewrite F.
Qed.

Lemma split_nonempty sep s : sep ≠ [] → split sep s ≠ [].
Proof. intros H. rewrite split_unfold by done. by destruct (find sep s). Qed.

Lemma contains_find sub s : contains sub s = true ↔ is_Some (find sub s).
Proof.
  unfold contains. destruct (find sub s) as [i|].
  - split; [by eexists|done].
  - split; [done|by intros [? ?]].
Qed.

(** When the separator occurs, [split] returns the part before its first
    occurrence and at least one more part. *)
Lemma split_contains sep s :
  sep ≠ [] → contains sep s = true →
  ∃ i right rest, find sep s = Some i ∧ split sep s = take i s :: right :: rest.
Proof.
  intros Hsep [i F]%contains_find.
  rewrite split_unfold, F by done.
  destruct (split sep (drop (i + length sep) s)) as [|right rest] eqn:E.
  - by apply split_nonempty in E.
  - by exists i, right, rest.
Qed.

Lemma split_not_contains sep s :
  sep ≠ [] → contains sep s = false → split sep s = [s].
Proof.
  intros Hsep H. rewrite split_unfold by done.
  unfold contains in H. by destruct (find sep s).
Qed.

End strings.

(** ** Pair detection *)

Section detect_pairs.

Variable self : Config.

Lemma getitem_0 {A} (x : A) (l : list A) : getitem (x :: l) 0 = Some x.
Proof. done. Qed.

Lemma getitem_1 {A} (x y : A) (l : list A) : getitem (x :: y :: l) 1 = Some y.
Proof. done. Qed.

(** C3, as the code has it.  When the (non-empty) configured separator
    occurs in the content, [split] yields a left part, a right part and
    possibly more, and pair detection raises ExtraSeparator if there are
    more than two parts; otherwise DuplicateTerm if the stripped left part
    is the term of an existing pair; otherwise NoDefinition if the stripped
    right part is empty; otherwise it records the stripped left part as the
    term and the stripped right part as the definition.  An empty stripped
    left part raises nothing. *)
Theorem detect_pairs_cases (notes : list Note) (content sep : str) (kwargs : Kwargs) :
  separator self = Some sep → sep ≠ [] → contains sep content = true →
  ∃ left right rest,
    split sep content = left :: right :: rest ∧
    _detect_pairs self notes content kwargs =
      if bool_decide (2 < length (split sep content))
      then Raise (ExtraSeparator content)
      else if bool_decide (Some (strip left) ∈ Note.term <$> pairs notes)
      then Raise (DuplicateTerm (strip left))
      else if bool_decide (strip right = [])
      then Raise (NoDefinition content)
      else Ok (<["separator" := VStr sep]>
                 (<["definition" := VStr (strip right)]>
                    (<["term" := VStr (strip left)]> kwargs))).
Proof.
  intros Hsep Hne Hin.
  destruct (split_contains sep content Hne Hin) as (i & right & rest & F & E).
  exists (take i content), right, rest. split; [done|].
  unfold _detect_pairs. rewrite Hsep, Hin.
  unfold py_split. destruct sep as [|c sep]; [done|]. simpl.
  rewrite E. simpl. by repeat case_bool_decide.
Qed.

(** The term and the definition of the Note made from such kwargs. *)
Lemma pair_kwargs_fields (content sep left right : str) (nindex : Z) (kwargs : Kwargs) :
  let n := Note.init content nindex
             (<["separator" := VStr sep]>
                (<["definition" := VStr (strip right)]>
                   (<["term" := VStr (strip left)]> kwargs))) in
  Note.term n = Some (strip left) ∧ Note.definition n = Some (strip right).
Proof.
  unfold Note.term, Note.definition, kw_str. simpl.
  by rewrite !lookup_insert_ne, !lookup_insert_eq, lookup_insert_ne,
    lookup_insert_eq by done.
Qed.

End detect_pairs.

Lemma detect_pairs_cases_witness :
  separator Examples.plain = Some (lit "::") ∧ lit "::" ≠ [] ∧
  contains (lit "::") (lit "term:: def") = true ∧
  ∃ left right rest,
    split (lit "::") (lit "term:: def") = left :: right :: rest ∧
    _detect_pairs Examples.plain [] (lit "term:: def") ∅ =
      if bool_decide (2 < length (split (lit "::") (lit "term:: def")))
      then Raise (ExtraSeparator (lit "term:: def"))
      else if bool_decide (Some (strip left) ∈ Note.term <$> pairs [])
      then Raise (DuplicateTerm (strip left))
      else if bool_decide (strip right = [])
      then Raise (NoDefinition (lit "term:: def"))
      else Ok (<["separator" := VStr (lit "::")]>
                 (<["definition" := VStr (strip right)]>
                    (<["term" := VStr (strip left)]> ∅))).
Proof.
  split; [reflexivity|]. split; [done|]. split; [reflexivity|].
  apply (detect_pairs_cases Examples.plain [] (lit "term:: def") (lit "::") ∅);
    [reflexivity|done|reflexivity].
Defined.

(** C3, counterexample.  The separator occurs once in ":: def", the left
    part is empty and so is the trimmed term, and pair detection does not
    raise NoDefinition: it returns a pair with the empty term. *)
Lemma detect_pairs_empty_term :
  contains (lit "::") (lit ":: def") = true ∧
  split (lit "::") (lit ":: def") = [lit ""; lit " def"] ∧
  strip (lit "") = [] ∧
  _detect_pairs Examples.plain [] (lit ":: def") ∅
    ≠ Raise (NoDefinition (lit ":: def")) ∧
  ∃ kwargs, _detect_pairs Examples.plain [] (lit ":: def") ∅ = Ok kwargs ∧
            kw_str kwargs "term" = Some [] ∧
            kw_str kwargs "definition" = Some (lit "def").
Proof.
  split; [reflexivity|]. split; [reflexivity|]. split; [reflexivity|].
  split.
  { intros H.
    apply (f_equal (λ r, match r with Ok _ => true | Raise _ => false end)) in H.
    vm_compute in H. discriminate H. }
  eexists. split; [reflexivity|]. split; by_compute.
Qed.

(** ** Heading detection *)

Section detect_headings.

Variable self : Config.

Lemma count_from_single_le (c : ascii) (s : str) : count_from [c] s 0 ≤ length s.
Proof.
  induction s as [|b s IH]; simpl; [done|].
  destruct (Ascii.eqb c b); simpl; lia.
Qed.

Lemma count_from_single_pos (c : ascii) (s : str) :
  startswith s [c] = true → 1 ≤ count_from [c] s 0.
Proof.
  destruct s as [|b s]; simpl; [done|].
  destruct (Ascii.eqb c b); simpl; [lia|done].
Qed.

Lemma slice_0_startswith (c : ascii) (s : str) (stop : Z) :
  startswith s [c] = true → (1 ≤ stop)%Z →
  startswith (slice s 0 stop) [c] = true ∧
  (Z.of_nat (length (slice s 0 stop)) ≤ stop)%Z.
Proof.
  intros Hs Hstop. unfold slice, clamp.
  destruct (Z.ltb_spec stop 0) as [|_]; [lia|].
  destruct (Z.ltb_spec 0 0) as [|_]; [lia|]. simpl. rewrite drop_0.
  split.
  - destruct s as [|b s]; [done|].
    destruct (Z.to_nat stop) as [|k] eqn:Hk; [lia|]. simpl in *.
    by destruct (Ascii.eqb c b).
  - rewrite length_take. lia.
Qed.

(** The level of a line that starts with a one-character marker. *)
Lemma count_marker_bounds (c : ascii) (content : str) (L : Z) :
  startswith content [c] = true → (1 ≤ L)%Z →
  (1 ≤ count [c] content 0 L ≤ L)%Z.
Proof.
  intros Hs HL. unfold count.
  destruct (slice_0_startswith c content L Hs HL) as [Hw Hlen].
  pose proof (count_from_single_le c (slice content 0 L)).
  pose proof (count_from_single_pos c _ Hw). lia.
Qed.

(** C10.  With a one-character heading marker and L >= 1 level names, of
    which [levels] is the number, on a line that starts with the marker
    heading detection computes a level in 1..L and finds the level name at
    index level - 1: when it returns, this level and this name are what it
    has recorded under "level" and "level_name"; when it raises, it raises
    HeadingJump with this level or DuplicateHeading, never the IndexError
    of the lookup. *)
Theorem heading_level_in_bounds (notes : list Note) (content : str) (nindex : Z)
    (kwargs : Kwargs) (c : ascii) :
  heading_char self = Some [c] →
  levels self = Z.of_nat (length (level_names self)) →
  1 ≤ length (level_names self) →
  startswith content [c] = true →
  (1 ≤ count [c] content 0 (levels self) ≤ Z.of_nat (length (level_names self)))%Z ∧
  is_Some (getitem (level_names self) (count [c] content 0 (levels self) - 1)) ∧
  _detect_headings self notes content nindex kwargs ≠ Raise IndexError ∧
  match _detect_headings self notes content nindex kwargs with
  | Ok (_, kwargs') =>
      ∃ level level_name,
        kw_int kwargs' "level" = Some level ∧
        (1 ≤ level ≤ Z.of_nat (length (level_names self)))%Z ∧
        level = count [c] content 0 (levels self) ∧
        getitem (level_names self) (level - 1) = Some level_name ∧
        kw_str kwargs' "level_name" = Some level_name
  | Raise e =>
      (∃ level,
         e = HeadingJump content (previous_level notes) level ∧
         (1 ≤ level ≤ Z.of_nat (length (level_names self)))%Z ∧
         level = count [c] content 0 (levels self)) ∨
      ∃ name, e = DuplicateHeading name
  end.
Proof.
  intros Hc HL H1 Hs.
  assert (Hb : (1 ≤ count [c] content 0 (levels self) ≤ levels self)%Z)
    by (apply count_marker_bounds; [done|lia]).
  assert (Hg : is_Some (getitem (level_names self)
                          (count [c] content 0 (levels self) - 1))).
  { unfold getitem. destruct (Z.ltb_spec (count [c] content 0 (levels self) - 1) 0);
      [lia|]. apply lookup_lt_is_Some. lia. }
  split; [lia|]. split; [done|].
  unfold _detect_headings. rewrite Hc, Hs.
  destruct Hg as [level_name Hg]. rewrite Hg.
  set (level := count [c] content 0 (levels self)) in *.
  cbn [mbind Result_bind of_option]. fold (previous_level notes).
  destruct (_ >? 1)%Z.
  { split; [done|]. left. exists level. split; [done|]. split; [lia|done]. }
  case_bool_decide.
  { split; [done|]. right. by eexists. }
  split; [done|].
  exists level, level_name.
  unfold kw_int, kw_str.
  rewrite !(lookup_insert_ne _ "begin_nindex") by done.
  rewrite !(lookup_insert_ne _ "heading_name") by done.
  rewrite !(lookup_insert_ne _ "heading") by done.
  rewrite lookup_insert_eq.
  rewrite (lookup_insert_ne _ "level_name") by done.
  rewrite lookup_insert_eq.
  split; [done|]. split; [lia|]. by split.
Qed.

End detect_headings.

Lemma heading_level_in_bounds_witness :
  let notes := Examples.parse Examples.book Examples.book_doc in
  let run := _detect_headings Examples.book notes (lit "## New") 4 ∅ in
  heading_char Examples.book = Some ["#"%char] ∧
  levels Examples.book = Z.of_nat (length (level_names Examples.book)) ∧
  1 ≤ length (level_names Examples.book) ∧
  startswith (lit "## New") ["#"%char] = true ∧
  match run with
  | Ok (_, kwargs') => kw_int kwargs' "level" | Raise _ => None
  end = Some 2%Z ∧
  match run with
  | Ok (_, kwargs') => kw_str kwargs' "level_name" | Raise _ => None
  end = Some (lit "Section") ∧
  (1 ≤ count ["#"%char] (lit "## New") 0 (levels Examples.book)
     ≤ Z.of_nat (length (level_names Examples.book)))%Z ∧
  is_Some (getitem (level_names Examples.book)
             (count ["#"%char] (lit "## New") 0 (levels Examples.book) - 1)) ∧
  run ≠ Raise IndexError ∧
  match run with
  | Ok (_, kwargs') =>
      ∃ level level_name,
        kw_int kwargs' "level" = Some level ∧
        (1 ≤ level ≤ Z.of_nat (length (level_names Examples.book)))%Z ∧
        level = count ["#"%char] (lit "## New") 0 (levels Examples.book) ∧
        getitem (level_names Examples.book) (level - 1) = Some level_name ∧
        kw_str kwargs' "level_name" = Some level_name
  | Raise e =>
      (∃ level,
         e = HeadingJump (lit "## New") (previous_level notes) level ∧
         (1 ≤ level ≤ Z.of_nat (length (level_names Examples.book)))%Z ∧
         level = count ["#"%char] (lit "## New") 0 (levels Examples.book)) ∨
      ∃ name, e = DuplicateHeading name
  end.
Proof.
  intros notes run.
  assert (H1 : 1 ≤ length (level_names Examples.book))
    by (apply Nat.leb_le; reflexivity).
  split; [reflexivity|]. split; [reflexivity|]. split; [exact H1|].
  split; [reflexivity|]. split; [by_compute|]. split; [by_compute|].
  exact (heading_level_in_bounds Examples.book notes (lit "## New") 4 ∅ "#"%char
           eq_refl eq_refl H1 eq_refl).
Defined.

(** C5, at a line on which the code departs from it.  The line
    "# #1 goal" starts with one marker, so its level is 1 and, as the first
    heading of a store, it is no jump; the code counts the marker twice in
    the first three characters, takes the level to be 2 and raises
    HeadingJump. *)
Theorem heading_level_counts_later_markers :
  startswith (lit "# #1 goal") (lit "#") = true ∧
  spec_level (lit "#") (lit "# #1 goal") (levels Examples.outline) = 1%Z ∧
  count (lit "#") (lit "# #1 goal") 0 (levels Examples.outline) = 2%Z ∧
  _detect_headings Examples.outline [] (lit "# #1 goal") 0 ∅
    = Raise (HeadingJump (lit "# #1 goal") 0 2).
Proof. repeat split; reflexivity. Qed.

(** ** Extension detection *)

Section detect_extensions.

Implicit Types name lbound rbound content inner : str.

Lemma lstrip_length (s : str) : length (lstrip s) ≤ length s.
Proof. induction s as [|c s IH]; simpl; [done|]. destruct (isspace c); simpl; lia. Qed.

Lemma strip_length (s : str) : length (strip s) ≤ length s.
Proof.
  unfold strip, rstrip. rewrite length_rev.
  etrans; [apply lstrip_length|]. rewrite length_rev. apply lstrip_length.
Qed.

(** One round of the loop shortens the content. *)
Lemma extension_round_shorter lbound rbound content i j :
  lbound ≠ [] → rbound ≠ [] →
  find lbound content = Some i →
  find rbound (drop (i + length lbound) content) = Some j →
  length (strip (take (i + length lbound - length lbound) content) ++ lit " "
          ++ strip (drop (i + length lbound + j + length rbound) content))
  < length content.
Proof.
  intros Hl Hr Fl Fr.
  apply find_Some_length in Fl, Fr. rewrite length_drop in Fr.
  assert (0 < length lbound) by (destruct lbound; [done|simpl; lia]).
  assert (0 < length rbound) by (destruct rbound; [done|simpl; lia]).
  rewrite !length_app. simpl.
  pose proof (strip_length (take (i + length lbound - length lbound) content)).
  pose proof (strip_length (drop (i + length lbound + j + length rbound) content)).
  rewrite length_take in *. rewrite length_drop in *. lia.
Qed.

(** Enough rounds: with non-empty bounds the loop has ended before its
    counter runs out, whatever the counter above the length of the
    content. *)
Lemma extension_loop_enough name lbound rbound rounds content kwargs :
  lbound ≠ [] → rbound ≠ [] → length content < rounds →
  extension_loop rounds name lbound rbound content kwargs
  = extension_loop (S (length content)) name lbound rbound content kwargs.
Proof.
  intros Hl Hr. revert content kwargs.
  induction rounds as [rounds IH] using lt_wf_ind. intros content kwargs Hlen.
  destruct rounds as [|rounds]; [lia|]. simpl.
  destruct (find lbound content) as [i|] eqn:Fl; [|done].
  destruct (find rbound (drop (i + length lbound) content)) as [j|] eqn:Fr; [|done].
  pose proof (extension_round_shorter _ _ _ _ _ Hl Hr Fl Fr) as Hshort.
  set (content' := strip _ ++ _ ++ strip _) in *.
  set (kwargs' := if bool_decide _ then _ else _).
  transitivity (extension_loop (S (length content')) name lbound rbound content' kwargs').
  - apply IH; lia.
  - symmetry. apply IH; lia.
Qed.

Lemma extension_while_found name lbound rbound a inner b kwargs :
  lbound ≠ [] → rbound ≠ [] →
  find lbound (a ++ lbound ++ inner ++ rbound ++ b) = Some (length a) →
  find rbound (inner ++ rbound ++ b) = Some (length inner) →
  extension_while name lbound rbound (a ++ lbound ++ inner ++ rbound ++ b) kwargs
  = extension_while name lbound rbound (strip a ++ lit " " ++ strip b)
      (record_extension name lbound rbound inner kwargs).
Proof.
  intros Hl Hr Fl Fr. unfold extension_while at 1. simpl. rewrite Fl.
  assert (Hd : drop (length a + length lbound) (a ++ lbound ++ inner ++ rbound ++ b)
               = inner ++ rbound ++ b).
  { rewrite <-drop_drop, drop_app_length. by rewrite drop_app_length. }
  pose proof Fr as Fr'. rewrite <-Hd in Fr'.
  pose proof (extension_round_shorter _ _ _ _ _ Hl Hr Fl Fr') as Hshort.
  rewrite Fr'. rewrite Hd.
  replace (length a + length lbound + length inner - (length a + length lbound))
    with (length inner) in * by lia.
  replace (length a + length lbound - length lbound) with (length a) in * by lia.
  rewrite take_app_length in *.
  assert (Hb : drop (length a + length lbound + length inner + length rbound)
                 (a ++ lbound ++ inner ++ rbound ++ b) = b).
  { rewrite <-!drop_drop, drop_app_length.
    rewrite drop_app_length. rewrite drop_app_length. by rewrite drop_app_length. }
  rewrite Hb in *.
  rewrite extension_loop_enough by done.
  by rewrite (take_app_length inner).
Qed.

Lemma extension_while_missing name lbound rbound a rest kwargs :
  find lbound (a ++ lbound ++ rest) = Some (length a) →
  find rbound rest = None →
  extension_while name lbound rbound (a ++ lbound ++ rest) kwargs
  = Raise (MissingBound (a ++ lbound ++ rest) lbound rbound).
Proof.
  intros Fl Fr. unfold extension_while. simpl. rewrite Fl.
  rewrite <-drop_drop, drop_app_length. rewrite drop_app_length. by rewrite Fr.
Qed.

Lemma extension_while_done name lbound rbound content kwargs :
  find lbound content = None →
  extension_while name lbound rbound content kwargs = Ok (content, kwargs).
Proof. intros Fl. unfold extension_while. simpl. by rewrite Fl. Qed.

(** C8.  The line of the scenario, parsed at any position of any store
    under the schema with the extension "tag" bounded by "[" and "]",
    gives the content "Answer is 42" and the one extension
    "tag:important".  In general, for non-empty bounds: when the left
    bound first occurs behind [a] and the right bound first occurs behind
    [inner] in what follows, the loop records the stripped [inner] and goes
    on with the stripped sides joined by one space; when no right bound
    follows the left bound it raises MissingBound; and when there is no
    left bound the content is left as it is. *)
Theorem detect_extensions_spec :
  (∀ notes nindex, ∃ note,
     _make_note Examples.book notes (lit "Answer [tag:important] is 42") nindex
       = Ok note ∧
     Note.content note = lit "Answer is 42" ∧
     Note.extensions note
       = [Extension.mk (lit "tag:important") (lit "tag") (lit "[") (lit "]")]) ∧
  (∀ name lbound rbound a inner b kwargs,
     lbound ≠ [] → rbound ≠ [] →
     find lbound (a ++ lbound ++ inner ++ rbound ++ b) = Some (length a) →
     find rbound (inner ++ rbound ++ b) = Some (length inner) →
     extension_while name lbound rbound (a ++ lbound ++ inner ++ rbound ++ b) kwargs
     = extension_while name lbound rbound (strip a ++ lit " " ++ strip b)
         (record_extension name lbound rbound inner kwargs)) ∧
  (∀ name lbound rbound a rest kwargs,
     find lbound (a ++ lbound ++ rest) = Some (length a) →
     find rbound rest = None →
     extension_while name lbound rbound (a ++ lbound ++ rest) kwargs
     = Raise (MissingBound (a ++ lbound ++ rest) lbound rbound)) ∧
  (∀ name lbound rbound content kwargs,
     find lbound content = None →
     extension_while name lbound rbound content kwargs = Ok (content, kwargs)).
Proof.
  split; [|split; [|split]].
  - intros notes nindex. eexists. split; [by vm_compute|]. split; by vm_compute.
  - apply extension_while_found.
  - apply extension_while_missing.
  - apply extension_while_done.
Qed.

End detect_extensions.

Lemma detect_extensions_spec_witness :
  lit "[" ≠ [] ∧ lit "]" ≠ [] ∧
  find (lit "[") (lit "Answer " ++ lit "[" ++ lit "tag:important" ++ lit "]" ++ lit " is 42")
    = Some (length (lit "Answer ")) ∧
  find (lit "]") (lit "tag:important" ++ lit "]" ++ lit " is 42")
    = Some (length (lit "tag:important")) ∧
  extension_while (lit "tag") (lit "[") (lit "]")
    (lit "Answer " ++ lit "[" ++ lit "tag:important" ++ lit "]" ++ lit " is 42") ∅
  = extension_while (lit "tag") (lit "[") (lit "]")
      (strip (lit "Answer ") ++ lit " " ++ strip (lit " is 42"))
      (record_extension (lit "tag") (lit "[") (lit "]") (lit "tag:important") ∅) ∧
  find (lit "[") (lit "Answer " ++ lit "[" ++ lit "tag") = Some (length (lit "Answer ")) ∧
  find (lit "]") (lit "tag") = None ∧
  extension_while (lit "tag") (lit "[") (lit "]")
    (lit "Answer " ++ lit "[" ++ lit "tag") ∅
  = Raise (MissingBound (lit "Answer " ++ lit "[" ++ lit "tag") (lit "[") (lit "]")) ∧
  find (lit "[") (lit "Answer is 42") = None ∧
  extension_while (lit "tag") (lit "[") (lit "]") (lit "Answer is 42") ∅
  = Ok (lit "Answer is 42", ∅).
Proof.
  destruct detect_extensions_spec as (_ & Hfound & Hmissing & Hdone).
  split; [discriminate|]. split; [discriminate|].
  split; [reflexivity|]. split; [reflexivity|].
  split; [apply Hfound; [discriminate|discriminate|reflexivity|reflexivity]|].
  split; [reflexivity|]. split; [reflexivity|].
  split; [apply Hmissing; reflexivity|].
  split; [reflexivity|]. apply Hdone. reflexivity.
Defined.

(** ** Errors of [make_note] and [edit] *)

Section errors.

Variable self : Config.
Variable next_heading : list Note → Note → option Note.
Variable previous_heading : list Note → nat → option nat.

Lemma line_parse_error_is_NoteError (e : exn) :
  is_line_parse_error e = true → is_NoteError e = true.
Proof. by destruct e. Qed.

Lemma foldM_raise {A B} (P : exn → Prop) (body : A → B → Result A)
    (acc : A) (l : list B) (e : exn) :
  (∀ a x e', body a x = Raise e' → P e') →
  foldM body acc l = Raise e → P e.
Proof.
  intros Hbody. revert acc. induction l as [|x l IH]; intros acc; simpl; [done|].
  destruct (body acc x) as [acc'|e'] eqn:E; simpl.
  - apply IH.
  - intros [= <-]. by eapply Hbody.
Qed.

Lemma for_each_raise {A} (P : exn → Prop)
    (body : A → list Note → Result unit * list Note)
    (l : list A) (notes notes' : list Note) (e : exn) :
  (∀ x n e' n', body x n = (Raise e', n') → P e') →
  for_each body l notes = (Raise e, notes') → P e.
Proof.
  intros Hbody. revert notes. induction l as [|x l IH]; intros notes; simpl; [done|].
  destruct (body x notes) as [[[]|e'] n'] eqn:E.
  - apply IH.
  - intros [= <- <-]. by eapply Hbody.
Qed.

(** [_complete_headings] raises no error of the line grammar. *)
Lemma complete_headings_raise (notes notes' : list Note) (e : exn) :
  _complete_headings self notes = (Raise e, notes') →
  is_line_parse_error e = false.
Proof.
  unfold _complete_headings. destruct (heading_char self); [|done].
  destruct (level_order self notes) as [lo|e'] eqn:E.
  - apply (for_each_raise (λ e, is_line_parse_error e = false)).
    intros headings n e' n'.
    apply (for_each_raise (λ e, is_line_parse_error e = false)).
    intros [i heading] n0 e0 n0'.
    unfold end_nindex_for.
    destruct (list_index _ _); simpl; [done|]. by intros [= <- <-].
  - intros [= <- <-]. revert E. unfold level_order.
    apply (foldM_raise (λ e, is_line_parse_error e = false)). intros a x e0.
    destruct (getitem _ _); simpl; [done|]. by intros [= <-].
Qed.

Lemma insert_raise (note : Note) (nindex : Z) (notes notes' : list Note) (e : exn) :
  insert self previous_heading note nindex notes = (Raise e, notes') →
  is_line_parse_error e = false.
Proof.
  unfold insert. destruct (negb _).
  - by intros [= <- <-].
  - apply complete_headings_raise.
Qed.

(** An error of the line grammar that [make_note] raises comes from
    [_make_note], before the list of notes is touched. *)
Lemma make_note_raise (content : str) (nindex : Z) (notes notes' : list Note) (e : exn) :
  make_note self next_heading previous_heading content nindex notes = (Raise e, notes') →
  is_line_parse_error e = true →
  notes' = notes ∧ _make_note self notes content nindex = Raise e.
Proof.
  unfold make_note. destruct (_make_note self notes content nindex) as [note|e0].
  - destruct (insert _ _ _ _ _) as [[[]|e1] n1] eqn:E; [done|].
    intros [= <- <-] He. apply insert_raise in E. congruence.
  - by intros [= <- <-].
Qed.

Lemma pop_Some {A} (l : list A) (i : Z) :
  (0 ≤ i < Z.of_nat (length l))%Z →
  ∃ x, l !! Z.to_nat i = Some x ∧ pop l i = Some (x, base.delete (Z.to_nat i) l).
Proof.
  intros Hi. unfold pop.
  destruct (lookup_lt_is_Some_2 l (Z.to_nat i)) as [x Hx]; [lia|].
  exists x. split; [done|].
  assert (E : (i <? 0)%Z = false) by (apply Z.ltb_ge; lia).
  cbv zeta. by rewrite !E, Hx.
Qed.

Lemma list_insert_delete {A} (l : list A) (i : Z) (x : A) :
  (0 ≤ i)%Z → l !! Z.to_nat i = Some x →
  list_insert (base.delete (Z.to_nat i) l) i x = l.
Proof.
  intros Hi Hx. unfold list_insert, clamp.
  destruct (Z.ltb_spec i 0); [lia|].
  pose proof (lookup_lt_Some _ _ _ Hx).
  rewrite length_delete by eauto.
  replace (Z.to_nat i `min` (length l - 1)) with (Z.to_nat i) by lia.
  rewrite delete_take_drop.
  rewrite take_app_length', drop_app_length' by (rewrite length_take; lia).
  by apply take_drop_middle.
Qed.

(** C2.  When [edit] at a position of the store raises one of the six
    line-parse errors, the list of notes afterwards is the list of notes
    before the call: the old Note is back at its position and no Note has
    changed. *)
Theorem edit_parse_error_restores (notes notes' : list Note) (i : Z)
    (content : str) (e : exn) :
  (0 ≤ i < Z.of_nat (length notes))%Z →
  edit self next_heading previous_heading i content notes = (Raise e, notes') →
  is_line_parse_error e = true →
  notes' = notes.
Proof.
  intros Hi Hedit He. unfold edit in Hedit.
  destruct (pop_Some notes i Hi) as (old_note & Hold & Hpop).
  rewrite Hpop in Hedit.
  destruct (make_note _ _ _ _ _ _) as [[note|e0] notes1] eqn:Hmake.
  - destruct (getitem notes1 i); simplify_eq/=.
  - destruct (is_NoteError e0) eqn:HN; simplify_eq/=.
    + apply make_note_raise in Hmake as [-> _]; [|done].
      apply list_insert_delete; [lia|done].
    + apply line_parse_error_is_NoteError in He. congruence.
Qed.

(** C9.  When the content that is left after the heading, category and
    extension steps splits at the separator into a left and a right part
    and the stripped left part is the term of a pair of the store,
    [make_note] raises DuplicateTerm and leaves the list of notes as it
    was. *)
Theorem make_note_duplicate_term (notes : list Note) (content : str) (nindex : Z)
    (c1 c2 c3 : str) (kw1 kw2 kw3 : Kwargs) (sep left right : str) :
  _detect_headings self notes content nindex ∅ = Ok (c1, kw1) →
  _detect_categories self c1 kw1 = (c2, kw2) →
  _detect_extensions self c2 kw2 = Ok (c3, kw3) →
  separator self = Some sep → sep ≠ [] →
  split sep c3 = [left; right] →
  Some (strip left) ∈ Note.term <$> pairs notes →
  make_note self next_heading previous_heading content nindex notes
  = (Raise (DuplicateTerm (strip left)), notes).
Proof.
  intros H1 H2 H3 Hsep Hne Hsplit Hdup.
  assert (Hin : contains sep c3 = true).
  { destruct (contains sep c3) eqn:E; [done|].
    by rewrite split_not_contains in Hsplit. }
  destruct (detect_pairs_cases self notes c3 sep kw3 Hsep Hne Hin)
    as (l & r & rest & E & Hp).
  rewrite Hsplit in E. injection E as <- <- <-.
  rewrite Hsplit in Hp. simpl in Hp.
  rewrite bool_decide_true in Hp by done.
  unfold make_note, _make_note. rewrite H1. simpl. rewrite H2, H3. simpl.
  by rewrite Hp.
Qed.

End errors.
Lemma edit_parse_error_restores_witness :
  let notes := Examples.parse Examples.book Examples.book_doc in
  (0 ≤ 1 < Z.of_nat (length notes))%Z ∧
  edit Examples.book Examples.no_heading_next Examples.no_heading_before
       1 (lit "other:: again") notes
    = (Raise (DuplicateTerm (lit "other")), notes) ∧
  is_line_parse_error (DuplicateTerm (lit "other")) = true ∧
  notes = notes.
Proof.
  intros notes.
  assert (Hi : (0 ≤ 1 < Z.of_nat (length notes))%Z) by z_bounds.
  split; [exact Hi|].
  assert (H : edit Examples.book Examples.no_heading_next
                Examples.no_heading_before 1 (lit "other:: again") notes
              = (Raise (DuplicateTerm (lit "other")), notes))
    by (apply pair_eq; by_compute).
  split; [exact H|]. split; [reflexivity|].
  exact (eq_sym (edit_parse_error_restores Examples.book Examples.no_heading_next
           Examples.no_heading_before notes notes 1 (lit "other:: again")
           (DuplicateTerm (lit "other")) Hi H eq_refl)).
Defined.

Lemma make_note_duplicate_term_witness :
  let notes := Examples.parse Examples.book Examples.book_doc in
  Some (strip (lit "other")) ∈ Note.term <$> pairs notes ∧
  make_note Examples.book Examples.no_heading_next Examples.no_heading_before
            (lit "other:: again") 4 notes
    = (Raise (DuplicateTerm (strip (lit "other"))), notes).
Proof.
  intros notes.
  assert (Hdup : Some (strip (lit "other")) ∈ Note.term <$> pairs notes)
    by (apply (bool_decide_eq_true_1 _); by_compute).
  split; [exact Hdup|].
  eapply (make_note_duplicate_term Examples.book _ _ _ _ _ _ _ _ _ _ _
            (lit "::") (lit "other") (lit " again"));
    [reflexivity|reflexivity|reflexivity|reflexivity|discriminate|by_compute
    |exact Hdup].
Defined.

(** ** The effect of [insert], [delete] and [edit] on the notes *)

Section mutation.

Variable self : Config.
Variable next_heading : list Note → Note → option Note.
Variable previous_heading : list Note → nat → option nat.

Lemma alter_ge {A} (f : A → A) (l : list A) (i : nat) :
  length l ≤ i → alter f i l = l.
Proof.
  revert i. induction l as [|x l IH]; intros [|i]; simpl; try done; [lia|].
  intros H. f_equal. apply IH. lia.
Qed.

(** A [for i in range(a, a + k)] loop that assigns to the i-th element. *)
Lemma foldl_alter_seq {A} (f : A → A) (l : list A) (a k : nat) :
  foldl (λ l i, alter f i l) l (seq a k)
  = take a l ++ (f <$> take k (drop a l)) ++ drop (a + k) l.
Proof.
  induction k as [|k IH].
  - simpl. rewrite Nat.add_0_r. by rewrite take_drop.
  - rewrite seq_S, foldl_app, IH. simpl.
    destruct (decide (a + k < length l)) as [Hlt|Hge].
    + destruct (lookup_lt_is_Some_2 l (a + k) Hlt) as [x Hx].
      rewrite (take_S_r (drop a l) k x) by (by rewrite lookup_drop).
      rewrite fmap_app. simpl.
      rewrite (drop_S l x (a + k) Hx).
      rewrite !(assoc_L (++)).
      assert (Hlen : length (take a l ++ (f <$> take k (drop a l))) = a + k).
      { rewrite length_app, length_fmap, !length_take, length_drop. lia. }
      rewrite (alter_app_r_alt f (take a l ++ (f <$> take k (drop a l)))) by lia.
      rewrite Hlen, Nat.sub_diag. simpl.
      rewrite <-!(assoc_L (++)). simpl. do 3 f_equal. f_equal. lia.
    + rewrite alter_ge.
      * rewrite (take_ge (drop a l) (S k)) by (rewrite length_drop; lia).
        rewrite (take_ge (drop a l) k) by (rewrite length_drop; lia).
        by rewrite (drop_ge l (a + k)), (drop_ge l (a + S k)) by lia.
      * rewrite !length_app, length_fmap, !length_take, !length_drop. lia.
Qed.

Lemma foldl_alter_range {A} (f : A → A) (l : list A) (a : nat) :
  foldl (λ l i, alter f i l) l (range a (length l)) = take a l ++ (f <$> drop a l).
Proof.
  unfold range. rewrite foldl_alter_seq.
  rewrite (take_ge (drop a l)) by (rewrite length_drop; lia).
  rewrite (drop_ge l (a + _)) by lia. by rewrite app_nil_r.
Qed.

Lemma core_set_end_nindex (v : option Z) (n : Note) :
  core (Note.set_end_nindex v n) = core n.
Proof. done. Qed.

Lemma fmap_alter_invariant {A B} (f : A → B) (g : A → A) (i : nat) (l : list A) :
  (∀ x, f (g x) = f x) → f <$> alter g i l = f <$> l.
Proof.
  intros H. revert i. induction l as [|x l IH]; intros [|i]; simpl; try done.
  - by rewrite H.
  - f_equal. apply IH.
Qed.

Lemma core_fmap_moved (d : Z) (g : Note → Note) (l : list Note) :
  (∀ n, core (g n) = moved d (core n)) →
  core <$> (g <$> l) = moved d <$> (core <$> l).
Proof.
  intros H. rewrite <-!list_fmap_compose. apply list_fmap_ext. intros _ n _. apply H.
Qed.

Lemma core_alter_end (v : option Z) (p : nat) (notes : list Note) :
  core <$> alter (Note.set_end_nindex v) p notes = core <$> notes.
Proof. by apply fmap_alter_invariant. Qed.

Lemma for_each_core {A} (body : A → list Note → Result unit * list Note)
    (l : list A) (notes notes' : list Note) (r : Result unit) :
  (∀ x n r' n', body x n = (r', n') → core <$> n' = core <$> n) →
  for_each body l notes = (r, notes') → core <$> notes' = core <$> notes.
Proof.
  intros Hbody. revert notes. induction l as [|x l IH]; intros notes; simpl.
  - by intros [= <- <-].
  - destruct (body x notes) as [[[]|e] n1] eqn:E.
    + intros H. rewrite (IH _ H). by eapply Hbody.
    + intros [= <- <-]. by eapply Hbody.
Qed.

(** [_complete_headings] assigns to [end_nindex] only. *)
Lemma complete_headings_core (notes notes' : list Note) (r : Result unit) :
  _complete_headings self notes = (r, notes') → core <$> notes' = core <$> notes.
Proof.
  unfold _complete_headings. destruct (heading_char self); [|by intros [= <- <-]].
  destruct (level_order self notes) as [lo|e]; [|by intros [= <- <-]].
  apply for_each_core. intros headings n r' n'.
  apply for_each_core. intros [i heading] n0 r0 n0'.
  destruct (end_nindex_for _ _ _ _ _); intros [= <- <-]; [|done].
  apply core_alter_end.
Qed.

Lemma adjust_previous_heading_core (d : Z) (p : nat) (notes : list Note) :
  core <$> adjust_previous_heading previous_heading d p notes = core <$> notes.
Proof.
  unfold adjust_previous_heading.
  destruct (previous_heading notes p); [|done].
  destruct (_ ≫= _); [|done]. apply core_alter_end.
Qed.

Lemma clamp_in_range (n : nat) (i : Z) :
  (0 ≤ i ≤ Z.of_nat n)%Z → clamp n i = Z.to_nat i.
Proof. intros H. unfold clamp. destruct (Z.ltb_spec i 0); lia. Qed.

(** The notes after [insert], whether [_complete_headings] at its end
    raised or not: the new Note stands at position [nindex] and the Notes
    behind it have their [nindex] increased by one. *)
Lemma insert_core (note : Note) (nindex : Z) (notes notes' : list Note)
    (r : Result unit) :
  (0 ≤ nindex ≤ Z.of_nat (length notes))%Z →
  insert self previous_heading note nindex notes = (r, notes') →
  core <$> notes'
  = take (Z.to_nat nindex) (core <$> notes) ++ core note
      :: (moved 1 <$> drop (Z.to_nat nindex) (core <$> notes)).
Proof.
  intros Hi. unfold insert.
  destruct (Z.leb_spec 0 nindex); [|lia].
  destruct (Z.leb_spec nindex (Z.of_nat (length notes))); [|lia]. simpl.
  intros Hc%complete_headings_core. rewrite Hc. clear Hc.
  set (notes1 := adjust_previous_heading _ _ _ _).
  assert (H1 : core <$> notes1 = core <$> list_insert notes nindex note)
    by apply adjust_previous_heading_core.
  rewrite foldl_alter_range, fmap_app, fmap_take.
  rewrite (core_fmap_moved 1)
    by (intros n; unfold core, moved; simpl; by destruct (Note.is_heading _)).
  rewrite fmap_drop, H1.
  unfold list_insert. rewrite clamp_in_range by done.
  set (k := Z.to_nat nindex).
  rewrite fmap_app, fmap_cons, fmap_take, fmap_drop.
  assert (Hk : length (take k (core <$> notes)) = k)
    by (rewrite length_take, length_fmap; lia).
  rewrite (cons_middle (core note)), (assoc_L (++)).
  rewrite take_app_length', drop_app_length' by (rewrite length_app; simpl; lia).
  by rewrite <-(assoc_L (++)).
Qed.

(** The notes after [delete]. *)
Lemma delete_core (nindex : Z) (notes notes' : list Note) (r : Result unit) :
  (0 ≤ nindex < Z.of_nat (length notes))%Z →
  delete self previous_heading nindex notes = (r, notes') →
  core <$> notes'
  = take (Z.to_nat nindex) (core <$> notes)
      ++ (moved (-1) <$> drop (S (Z.to_nat nindex)) (core <$> notes)).
Proof.
  intros Hi. unfold delete.
  destruct (Z.leb_spec 0 nindex); [|lia].
  destruct (Z.ltb_spec nindex (Z.of_nat (length notes))); [|lia]. simpl.
  intros Hc%complete_headings_core. rewrite Hc. clear Hc.
  set (notes1 := adjust_previous_heading _ _ _ _).
  assert (H1 : core <$> notes1 = core <$> notes)
    by apply adjust_previous_heading_core.
  set (k := Z.to_nat nindex).
  rewrite foldl_alter_range, fmap_app, fmap_take.
  rewrite (core_fmap_moved (-1))
    by (intros n; unfold core, moved; simpl; by destruct (Note.is_heading _)).
  rewrite fmap_drop, !delete_take_drop, fmap_app, fmap_take, fmap_drop, H1.
  assert (Hk : length (take k (core <$> notes)) = k)
    by (rewrite length_take, length_fmap; lia).
  by rewrite take_app_length', drop_app_length' by lia.
Qed.

Lemma nindex_core (notes : list Note) : Note.nindex <$> notes = snd <$> (core <$> notes).
Proof. by rewrite <-list_fmap_compose. Qed.

Lemma lookup_core (notes : list Note) (p : nat) (c : str * Kwargs * Z) :
  (core <$> notes) !! p = Some c →
  ∃ n, notes !! p = Some n ∧ Note.content n = c.1.1 ∧ Note.kwargs n = c.1.2
       ∧ Note.nindex n = c.2.
Proof.
  rewrite list_lookup_fmap. destruct (notes !! p) as [n|]; simpl; [|done].
  intros [= <-]. by exists n.
Qed.

Lemma consistent_lookup (notes : list Note) (p : nat) (n : Note) :
  consistent notes → notes !! p = Some n → Note.nindex n = Z.of_nat p.
Proof.
  intros Hc Hp. apply (f_equal (λ l, l !! p)) in Hc.
  rewrite !list_lookup_fmap, Hp in Hc. simpl in Hc.
  rewrite lookup_seq_lt in Hc by (by eapply lookup_lt_Some).
  by injection Hc.
Qed.

Lemma succ_fmap_seq (a k : nat) :
  (λ z, (z + 1)%Z) <$> (Z.of_nat <$> seq a k) = Z.of_nat <$> seq (S a) k.
Proof.
  rewrite <-fmap_S_seq, <-!list_fmap_compose. apply list_fmap_ext.
  intros _ x _. simpl. lia.
Qed.

Lemma pred_fmap_seq (a k : nat) :
  (λ z, (z + -1)%Z) <$> (Z.of_nat <$> seq (S a) k) = Z.of_nat <$> seq a k.
Proof.
  rewrite <-fmap_S_seq, <-!list_fmap_compose. apply list_fmap_ext.
  intros _ x _. simpl. lia.
Qed.

Lemma snd_moved (d : Z) (l : list (str * Kwargs * Z)) :
  snd <$> (moved d <$> l) = (λ z, (z + d)%Z) <$> (snd <$> l).
Proof. rewrite <-!list_fmap_compose. by apply list_fmap_ext. Qed.

(** [insert] of a Note that carries the position as its [nindex], as
    [make_note] makes it, keeps the [nindex] fields equal to the
    positions. *)
Lemma insert_consistent (note : Note) (nindex : Z) (notes notes' : list Note)
    (r : Result unit) :
  consistent notes → (0 ≤ nindex ≤ Z.of_nat (length notes))%Z →
  Note.nindex note = nindex →
  insert self previous_heading note nindex notes = (r, notes') →
  consistent notes'.
Proof.
  intros Hc Hi Hn Hins. pose proof (insert_core _ _ _ _ _ Hi Hins) as H.
  unfold consistent in *.
  assert (Hlen : length notes' = S (length notes)).
  { apply (f_equal length) in H.
    rewrite length_app, length_take in H. simpl in H.
    rewrite !length_fmap, length_drop, length_fmap in H. lia. }
  rewrite nindex_core, H, fmap_app, fmap_cons, fmap_take, snd_moved, fmap_drop.
  rewrite <-nindex_core, Hc, Hlen. simpl snd. rewrite Hn.
  set (k := Z.to_nat nindex).
  rewrite <-fmap_take, <-fmap_drop, take_seq, drop_seq, succ_fmap_seq.
  replace (S (length notes)) with (k + S (length notes - k)) by lia.
  rewrite seq_app, fmap_app. simpl.
  replace (k `min` length notes) with k by lia. do 2 f_equal; lia.
Qed.

(** [delete] keeps the [nindex] fields equal to the positions. *)
Lemma delete_consistent (nindex : Z) (notes notes' : list Note) (r : Result unit) :
  consistent notes → (0 ≤ nindex < Z.of_nat (length notes))%Z →
  delete self previous_heading nindex notes = (r, notes') →
  consistent notes'.
Proof.
  intros Hc Hi Hdel. pose proof (delete_core _ _ _ _ Hi Hdel) as H.
  unfold consistent in *.
  assert (Hlen : S (length notes') = length notes).
  { apply (f_equal length) in H.
    rewrite length_app, length_take in H.
    rewrite !length_fmap, length_drop, length_fmap in H. lia. }
  rewrite nindex_core, H, fmap_app, fmap_take, snd_moved, fmap_drop.
  rewrite <-nindex_core, Hc.
  set (k := Z.to_nat nindex).
  rewrite <-fmap_take, <-fmap_drop, take_seq, drop_seq. simpl.
  rewrite pred_fmap_seq.
  replace (length notes') with (k + (length notes - S k)) by lia.
  rewrite seq_app, fmap_app. simpl.
  replace (k `min` length notes) with k by lia. done.
Qed.

(** C6, as the code has it.  [insert] and [delete] shift by the position
    in the list, in every store: a successful [insert] at [i] leaves a Note
    at a position before [i] where it is and with its [nindex], and moves a
    Note at a position from [i] on one position up with its [nindex]
    increased by one; a successful [delete] at [i] leaves a Note at a
    position before [i] as it is and moves a Note at a position behind [i]
    one position down with its [nindex] decreased by one; and [delete] at
    [i] after [insert] at [i] gives back every Note with its [nindex].  In
    a store whose [nindex] fields are the positions, the same holds with
    the [nindex] of the Note in the place of its position. *)
Theorem insert_delete_shift (note : Note) (i : Z) (notes : list Note) :
  (0 ≤ i ≤ Z.of_nat (length notes))%Z →
  (∀ notes', insert self previous_heading note i notes = (Ok (), notes') →
     ∀ p n, notes !! p = Some n →
       ∃ n', notes' !! (if bool_decide (Z.of_nat p < i)%Z then p else S p) = Some n' ∧
             Note.content n' = Note.content n ∧ Note.kwargs n' = Note.kwargs n ∧
             Note.nindex n' = if bool_decide (Z.of_nat p < i)%Z
                              then Note.nindex n else (Note.nindex n + 1)%Z) ∧
  (∀ notes', (i < Z.of_nat (length notes))%Z →
     delete self previous_heading i notes = (Ok (), notes') →
     ∀ p n, notes !! p = Some n → Z.of_nat p ≠ i →
       ∃ n', notes' !! (if bool_decide (Z.of_nat p < i)%Z then p else pred p) = Some n' ∧
             Note.content n' = Note.content n ∧ Note.kwargs n' = Note.kwargs n ∧
             Note.nindex n' = if bool_decide (Z.of_nat p < i)%Z
                              then Note.nindex n else (Note.nindex n - 1)%Z) ∧
  (∀ notes' notes'',
     insert self previous_heading note i notes = (Ok (), notes') →
     delete self previous_heading i notes' = (Ok (), notes'') →
     core <$> notes'' = core <$> notes) ∧
  (consistent notes →
   (∀ notes', insert self previous_heading note i notes = (Ok (), notes') →
      ∀ p n, notes !! p = Some n →
        ∃ n', notes' !! (if bool_decide (Note.nindex n < i)%Z then p else S p) = Some n' ∧
              Note.content n' = Note.content n ∧ Note.kwargs n' = Note.kwargs n ∧
              Note.nindex n' = if bool_decide (Note.nindex n < i)%Z
                               then Note.nindex n else (Note.nindex n + 1)%Z) ∧
   (∀ notes', (i < Z.of_nat (length notes))%Z →
      delete self previous_heading i notes = (Ok (), notes') →
      ∀ p n, notes !! p = Some n → Note.nindex n ≠ i →
        ∃ n', notes' !! (if bool_decide (Note.nindex n < i)%Z then p else pred p) = Some n' ∧
              Note.content n' = Note.content n ∧ Note.kwargs n' = Note.kwargs n ∧
              Note.nindex n' = if bool_decide (Note.nindex n < i)%Z
                               then Note.nindex n else (Note.nindex n - 1)%Z)).
Proof.
  intros Hi. set (k := Z.to_nat i).
  assert (Hk : length (take k (core <$> notes)) = k)
    by (rewrite length_take, length_fmap; lia).
  assert (Hinsert : ∀ notes',
            insert self previous_heading note i notes = (Ok (), notes') →
            ∀ p n, notes !! p = Some n →
              ∃ n', notes' !! (if bool_decide (Z.of_nat p < i)%Z then p else S p)
                    = Some n' ∧
                    Note.content n' = Note.content n ∧
                    Note.kwargs n' = Note.kwargs n ∧
                    Note.nindex n' = if bool_decide (Z.of_nat p < i)%Z
                                     then Note.nindex n else (Note.nindex n + 1)%Z).
  { intros notes' Hins p n Hp.
    pose proof (insert_core _ _ _ _ _ Hi Hins) as H. fold k in H.
    pose proof (lookup_lt_Some _ _ _ Hp) as Hlt.
    case_bool_decide as Hcase.
    + destruct (lookup_core notes' p (core n)) as (n' & ? & ? & ? & ?); [|by exists n'].
      rewrite H, lookup_app_l, lookup_take_lt, list_lookup_fmap, Hp by lia. done.
    + destruct (lookup_core notes' (S p) (moved 1 (core n)))
        as (n' & ? & ? & ? & ?); [|by exists n'].
      rewrite H, lookup_app_r by lia. rewrite Hk.
      replace (S p - k) with (S (p - k)) by lia. simpl.
      rewrite list_lookup_fmap, lookup_drop, list_lookup_fmap.
      replace (k + (p - k)) with p by lia. by rewrite Hp. }
  assert (Hdelete : ∀ notes', (i < Z.of_nat (length notes))%Z →
            delete self previous_heading i notes = (Ok (), notes') →
            ∀ p n, notes !! p = Some n → Z.of_nat p ≠ i →
              ∃ n', notes' !! (if bool_decide (Z.of_nat p < i)%Z then p else pred p)
                    = Some n' ∧
                    Note.content n' = Note.content n ∧
                    Note.kwargs n' = Note.kwargs n ∧
                    Note.nindex n' = if bool_decide (Z.of_nat p < i)%Z
                                     then Note.nindex n else (Note.nindex n - 1)%Z).
  { intros notes' Hi' Hdel p n Hp Hne.
    assert (Hi'' : (0 ≤ i < Z.of_nat (length notes))%Z) by lia.
    pose proof (delete_core _ _ _ _ Hi'' Hdel) as H. fold k in H.
    case_bool_decide as Hcase.
    + destruct (lookup_core notes' p (core n)) as (n' & ? & ? & ? & ?); [|by exists n'].
      rewrite H, lookup_app_l, lookup_take_lt, list_lookup_fmap, Hp by lia. done.
    + destruct (lookup_core notes' (pred p) (moved (-1) (core n)))
        as (n' & ? & ? & ? & ?); [|by exists n'].
      rewrite H, lookup_app_r by lia. rewrite Hk.
      rewrite list_lookup_fmap, lookup_drop, list_lookup_fmap.
      replace (S k + (pred p - k)) with p by lia. by rewrite Hp. }
  split; [exact Hinsert|]. split; [exact Hdelete|]. split.
  - intros notes' notes'' Hins Hdel.
    pose proof (insert_core _ _ _ _ _ Hi Hins) as H. fold k in H.
    assert (Hlen : length notes' = S (length notes)).
    { apply (f_equal length) in H.
      rewrite length_app, length_take in H. simpl in H.
      rewrite !length_fmap, length_drop, length_fmap in H. lia. }
    assert (Hi' : (0 ≤ i < Z.of_nat (length notes'))%Z) by lia.
    rewrite (delete_core _ _ _ _ Hi' Hdel). fold k. rewrite H.
    rewrite take_app_length' by done.
    rewrite (cons_middle (core note)), (assoc_L (++)).
    rewrite drop_app_length' by (rewrite length_app; simpl; lia).
    rewrite <-list_fmap_compose.
    rewrite <-(take_drop k (core <$> notes)) at 3. f_equal.
    rewrite <-(list_fmap_id (drop k (core <$> notes))) at 2.
    apply list_fmap_ext. intros _ [[c kw] z] _. unfold moved. simpl.
    f_equal. lia.
  - intros Hc. split.
    + intros notes' Hins p n Hp.
      pose proof (consistent_lookup _ _ _ Hc Hp) as Hn.
      destruct (Hinsert notes' Hins p n Hp) as (n' & H1 & H2 & H3 & H4).
      rewrite <-Hn in H1, H4. by exists n'.
    + intros notes' Hi' Hdel p n Hp Hne.
      pose proof (consistent_lookup _ _ _ Hc Hp) as Hn.
      destruct (Hdelete notes' Hi' Hdel p n Hp) as (n' & H1 & H2 & H3 & H4);
        [by rewrite <-Hn|].
      rewrite <-Hn in H1, H4. by exists n'.
Qed.

(** The notes after a successful [edit]: the new Note stands where the old
    one stood, and every Note behind it has its [nindex] increased by one,
    because the old Note is removed with [pop], which leaves the [nindex]
    fields as they are, and the new one is put in with [insert], which
    increases them. *)
Lemma edit_core (i : Z) (content : str) (notes notes' : list Note) (r : Note) :
  (0 ≤ i < Z.of_nat (length notes))%Z →
  edit self next_heading previous_heading i content notes = (Ok r, notes') →
  ∃ note,
    _make_note self (base.delete (Z.to_nat i) notes) (strip content) i = Ok note ∧
    core <$> notes'
    = take (Z.to_nat i) (core <$> notes) ++ core note
        :: (moved 1 <$> drop (S (Z.to_nat i)) (core <$> notes)).
Proof.
  intros Hi. unfold edit.
  destruct (pop_Some notes i Hi) as (old_note & Hold & ->).
  unfold make_note.
  destruct (_make_note _ _ _ _) as [note|e]; [|by destruct (is_NoteError e)].
  destruct (insert _ _ _ _ _) as [[[]|e] notes2] eqn:Hins;
    [|by destruct (is_NoteError e)].
  intros [= _ <-]. exists note. split; [done|].
  pose proof (lookup_lt_Some _ _ _ Hold).
  apply insert_core in Hins; [|rewrite length_delete by eauto; lia].
  rewrite Hins. rewrite core_set_end_nindex.
  set (k := Z.to_nat i).
  assert (Hk : length (take k (core <$> notes)) = k)
    by (rewrite length_take, length_fmap; lia).
  rewrite delete_take_drop, fmap_app, fmap_take, fmap_drop.
  by rewrite take_app_length', drop_app_length' by done.
Qed.

(** Without a heading marker [edit] succeeds whenever the new content
    parses. *)
Lemma edit_succeeds (i : Z) (content : str) (notes : list Note) (note : Note) :
  heading_char self = None →
  (0 ≤ i < Z.of_nat (length notes))%Z →
  _make_note self (base.delete (Z.to_nat i) notes) (strip content) i = Ok note →
  ∃ r notes', edit self next_heading previous_heading i content notes = (Ok r, notes').
Proof.
  intros Hh Hi Hmake. unfold edit.
  destruct (pop_Some notes i Hi) as (old_note & Hold & ->).
  pose proof (lookup_lt_Some _ _ _ Hold).
  unfold make_note. rewrite Hmake.
  destruct (insert _ _ _ _ _) as [r notes2] eqn:Hins.
  assert (Hlen : length notes2 = length notes).
  { apply insert_core in Hins; [|rewrite length_delete by eauto; lia].
    apply (f_equal length) in Hins.
    rewrite length_app, length_take in Hins. simpl in Hins.
    rewrite !length_fmap, length_drop, length_fmap, length_delete in Hins by eauto.
    lia. }
  unfold insert, _complete_headings in Hins. rewrite Hh in Hins.
  destruct (negb _) eqn:Hneg.
  - rewrite length_delete in Hneg by eauto.
    destruct (Z.leb_spec 0 i); [|lia].
    destruct (Z.leb_spec i (Z.of_nat (length notes - 1))); [done|lia].
  - injection Hins as <- Hn. unfold getitem.
    destruct (Z.ltb_spec i 0); [lia|].
    destruct (lookup_lt_is_Some_2 notes2 (Z.to_nat i)) as [x Hx]; [lia|].
    rewrite Hx. by eexists _, _.
Qed.

Lemma _make_note_nindex (notes : list Note) (content : str) (nindex : Z) (note : Note) :
  _make_note self notes content nindex = Ok note → Note.nindex note = nindex.
Proof.
  unfold _make_note.
  destruct (_detect_headings _ _ _ _ _) as [[c1 kw1]|]; simpl; [|done].
  destruct (_detect_categories _ _ _) as [c2 kw2].
  destruct (_detect_extensions _ _ _) as [[c3 kw3]|]; simpl; [|done].
  destruct (_detect_pairs _ _ _ _) as [kw4|]; simpl; [|done].
  by intros [= <-].
Qed.

(** [make_note], the insertion of a newly parsed Note, keeps the [nindex]
    fields equal to the positions. *)
Lemma make_note_consistent (content : str) (nindex : Z) (notes notes' : list Note)
    (r : Result Note) :
  consistent notes → (0 ≤ nindex ≤ Z.of_nat (length notes))%Z →
  make_note self next_heading previous_heading content nindex notes = (r, notes') →
  consistent notes'.
Proof.
  intros Hc Hi. unfold make_note.
  destruct (_make_note _ _ _ _) as [note|e] eqn:Hmake; [|by intros [= <- <-]].
  apply _make_note_nindex in Hmake.
  destruct (insert _ _ _ _ _) as [r1 notes1] eqn:Hins.
  apply insert_consistent in Hins; [|done..].
  by destruct r1; intros [= <- <-].
Qed.

(** A successful [edit] anywhere but at the last position leaves a store
    whose [nindex] fields are no longer the positions. *)
Lemma edit_not_consistent (i : Z) (content : str) (notes notes' : list Note) (r : Note) :
  consistent notes → (0 ≤ i)%Z → (i + 1 < Z.of_nat (length notes))%Z →
  edit self next_heading previous_heading i content notes = (Ok r, notes') →
  (Note.nindex <$> notes') !! S (Z.to_nat i) = Some (i + 2)%Z ∧ ¬ consistent notes'.
Proof.
  intros Hc Hi Hi' Hedit.
  destruct (edit_core i content notes notes' r) as (note & _ & H); [lia|done|].
  set (k := Z.to_nat i) in *.
  assert (Hk : length (take k (core <$> notes)) = k)
    by (rewrite length_take, length_fmap; lia).
  assert (Hl : (Note.nindex <$> notes') !! S k = Some (i + 2)%Z).
  { rewrite nindex_core, H, fmap_app, fmap_cons, snd_moved, fmap_drop, <-nindex_core.
    rewrite lookup_app_r by (rewrite length_fmap; lia).
    rewrite length_fmap, Hk, Nat.sub_succ_l, Nat.sub_diag by lia. simpl.
    rewrite list_lookup_fmap, lookup_drop, Hc, list_lookup_fmap.
    rewrite lookup_seq_lt by lia. simpl. f_equal. lia. }
  split; [done|]. intros Hc'. rewrite Hc', list_lookup_fmap in Hl.
  destruct (seq 0 (length notes') !! S k) as [x|] eqn:E; [|done].
  apply lookup_seq in E. simpl in Hl. injection Hl. lia.
Qed.

End mutation.

Lemma insert_delete_shift_witness :
  let notes := Examples.parse Examples.book Examples.book_doc in
  let note := Note.init (lit "new") 2 ∅ in
  let notes' := (insert Examples.book Examples.no_heading_before note 2 notes).2 in
  let notes'' := (delete Examples.book Examples.no_heading_before 2 notes').2 in
  consistent notes ∧ (0 ≤ 2 ≤ Z.of_nat (length notes))%Z ∧
  insert Examples.book Examples.no_heading_before note 2 notes = (Ok (), notes') ∧
  Note.nindex <$> notes' = [0; 1; 2; 3; 4]%Z ∧
  delete Examples.book Examples.no_heading_before 2 notes' = (Ok (), notes'') ∧
  core <$> notes'' = core <$> notes ∧
  (∀ p n, notes !! p = Some n →
     ∃ n', notes' !! (if bool_decide (Note.nindex n < 2)%Z then p else S p) = Some n' ∧
           Note.content n' = Note.content n ∧ Note.kwargs n' = Note.kwargs n ∧
           Note.nindex n' = if bool_decide (Note.nindex n < 2)%Z
                            then Note.nindex n else (Note.nindex n + 1)%Z).
Proof.
  intros notes note notes' notes''.
  assert (Hc : consistent notes) by by_compute.
  assert (Hi : (0 ≤ 2 ≤ Z.of_nat (length notes))%Z) by z_bounds.
  assert (Hins : insert Examples.book Examples.no_heading_before note 2 notes
                 = (Ok (), notes')).
  { refine (pair_eq_snd (insert Examples.book Examples.no_heading_before note 2 notes)
              (Ok ()) _). by_compute. }
  assert (Hdel : delete Examples.book Examples.no_heading_before 2 notes'
                 = (Ok (), notes'')).
  { refine (pair_eq_snd (delete Examples.book Examples.no_heading_before 2 notes')
              (Ok ()) _). by_compute. }
  split; [exact Hc|]. split; [exact Hi|]. split; [exact Hins|].
  split; [by_compute|]. split; [exact Hdel|].
  split.
  - exact (proj1 (proj2 (proj2 (insert_delete_shift Examples.book
                                  Examples.no_heading_before note 2 notes Hi)))
             notes' notes'' Hins Hdel).
  - exact (proj1 (proj2 (proj2 (proj2 (insert_delete_shift Examples.book
                                         Examples.no_heading_before note 2 notes Hi)))
                    Hc) notes' Hins).
Defined.

(** C6, counterexample.  The successful [edit] of position 0 of the two
    notes "first" and "second" leaves a store of size 2 with the [nindex]
    fields 0 and 2.  A successful [insert] at 2 into this store puts the
    new Note behind both: the Note "second", whose [nindex] 2 is not less
    than the position 2 of the insertion, keeps its [nindex] 2. *)
Lemma insert_shifts_by_position :
  let notes := (edit Examples.plain Examples.no_heading_next
                  Examples.no_heading_before 0 (lit "changed")
                  Examples.two_notes).2 in
  let note := Note.init (lit "new") 2 ∅ in
  let run := insert Examples.plain Examples.no_heading_before note 2 notes in
  Note.content <$> notes = [lit "changed"; lit "second"] ∧
  Note.nindex <$> notes = [0; 2]%Z ∧
  (0 ≤ 2 ≤ Z.of_nat (length notes))%Z ∧
  run.1 = Ok () ∧
  Note.content <$> run.2 = [lit "changed"; lit "second"; lit "new"] ∧
  Note.nindex <$> run.2 = [0; 2; 2]%Z.
Proof.
  intros notes note run.
  split; [by_compute|]. split; [by_compute|]. split; [z_bounds|].
  split; [by_compute|]. split; by_compute.
Qed.

(** C1, at an [edit] on which the code departs from it.  The store of the
    two notes "first" and "second" has the [nindex] fields 0 and 1; after
    the successful [edit] of position 0 they are 0 and 2, whatever the
    headings that [Note.next_heading] and [Note.previous_heading] find. *)
Theorem edit_breaks_nindex (next_heading : list Note → Note → option Note)
    (previous_heading : list Note → nat → option nat) :
  consistent Examples.two_notes ∧
  ∃ r notes',
    edit Examples.plain next_heading previous_heading 0 (lit "changed")
         Examples.two_notes = (Ok r, notes') ∧
    Note.nindex <$> notes' = [0; 2]%Z ∧
    ¬ consistent notes'.
Proof.
  assert (Hc : consistent Examples.two_notes) by by_compute.
  split; [exact Hc|].
  destruct (edit_succeeds Examples.plain next_heading previous_heading 0
              (lit "changed") Examples.two_notes
              (Note.init (lit "changed") 0
                 (<["extension_names" := VList []]>
                    (<["extension_bounds" := VBounds []]>
                       (<["extensions" := VExtensions []]>
                          (<["category_prefixes" := VList []]>
                             (<["category_names" := VList []]> ∅)))))))
    as (r & notes' & Hedit); [reflexivity|z_bounds|by_compute|].
  exists r, notes'. split; [exact Hedit|].
  destruct (edit_not_consistent Examples.plain next_heading previous_heading 0
              (lit "changed") Examples.two_notes notes' r) as [Hl Hn];
    [exact Hc|lia|apply Z.ltb_lt; by_compute|exact Hedit|].
  split; [|exact Hn].
  destruct (edit_core Examples.plain next_heading previous_heading 0
              (lit "changed") Examples.two_notes notes' r) as (note & Hm & H);
    [z_bounds|exact Hedit|].
  apply _make_note_nindex in Hm.
  rewrite nindex_core, H. simpl. rewrite Hm. reflexivity.
Qed.

(** ** Blocks *)

Section read_notes.

Variable self : Config.

Lemma absorb_closes (read_on : list str → list str) (b line last : str)
    (middle rest : list str) :
  Forall (λ l, endswith (strip l) b = false) middle →
  endswith (strip last) b = true →
  absorb read_on b line (middle ++ last :: rest)
  = yield_line (slice_to (continued line (middle ++ [last])) (- Z.of_nat (length b)))
               (read_on rest).
Proof.
  intros Hmid Hlast. revert line.
  induction Hmid as [|l middle Hl _ IH]; intros line; simpl.
  - by rewrite Hlast.
  - rewrite Hl. apply IH.
Qed.

(** What the code does with a block: the first raw line loses its first
    [len(blocks)] characters, is continued with the raw lines up to the
    closing one, and the whole loses its last [len(blocks)] characters. *)
Lemma read_lines_block (b line last : str) (middle rest : list str) :
  blocks self = Some b →
  startswith (strip line) b = true →
  Forall (λ l, endswith (strip l) b = false) middle →
  endswith (strip last) b = true →
  read_lines self (line :: middle ++ last :: rest)
  = yield_line (slice_to (continued (drop (length b) line) (middle ++ [last]))
                         (- Z.of_nat (length b)))
               (read_lines self rest).
Proof.
  intros Hb Hstart Hmid Hlast. simpl. rewrite Hb, Hstart.
  by apply absorb_closes.
Qed.

Lemma slice_to_app_suffix (s b : str) :
  b ≠ [] → slice_to (s ++ b) (- Z.of_nat (length b)) = s.
Proof.
  intros Hb. unfold slice_to, clamp.
  assert (0 < length b) by (destruct b; [done|simpl; lia]).
  destruct (Z.ltb_spec (- Z.of_nat (length b)) 0); [|lia].
  rewrite length_app.
  replace (Z.to_nat (Z.of_nat (length s + length b) + - Z.of_nat (length b)))
    with (length s) by lia.
  by rewrite take_app_length.
Qed.

Lemma continued_snoc (line l : str) (more : list str) :
  continued line (more ++ [l]) = continued line more ++ LF :: l.
Proof. unfold continued. by rewrite foldl_app. Qed.

(** When the opening line starts with the delimiter itself and the closing
    line ends with the delimiter itself, both delimiters are what the code
    strips, and the block is one logical line. *)
Lemma read_lines_block_clean (b first body : str) (middle rest : list str) :
  blocks self = Some b → b ≠ [] →
  startswith (strip (b ++ first)) b = true →
  Forall (λ l, endswith (strip l) b = false) middle →
  endswith (strip (body ++ b)) b = true →
  read_lines self ((b ++ first) :: middle ++ (body ++ b) :: rest)
  = strip (continued first middle ++ LF :: body) :: read_lines self rest.
Proof.
  intros Hb Hne Hstart Hmid Hlast.
  rewrite (read_lines_block b) by done.
  rewrite drop_app_length, continued_snoc.
  rewrite (cons_middle LF), !(assoc_L (++)), slice_to_app_suffix by done.
  rewrite <-(assoc_L (++)). simpl.
  by destruct (continued first middle).
Qed.

End read_notes.

(** C7, at documents on which the code departs from it.  In the first
    document the opening raw line starts with the delimiter "%%" after
    trimming, behind one space: the code strips that space and one "%"
    and yields a logical line that still begins with "%".  In the second
    one the closing raw line ends with the delimiter after trimming, before
    one space: the code strips that space and one "%".  Without the two
    spaces the block is merged with both delimiters stripped. *)
Theorem read_notes_strips_by_length :
  startswith (strip (lit " %%a")) (lit "%%") = true ∧
  endswith (strip (lit "b%%")) (lit "%%") = true ∧
  _read_notes Examples.book (Examples.lines [" %%a"; "b%%"; "c"])
    = [lit "%a" ++ LF :: lit "b"; lit "c"] ∧
  endswith (strip (lit "b%% ")) (lit "%%") = true ∧
  _read_notes Examples.book (Examples.lines ["%%a"; "b%% "; "c"])
    = [lit "a" ++ LF :: lit "b%"; lit "c"] ∧
  _read_notes Examples.book (Examples.lines ["%%a"; "b%%"; "c"])
    = [lit "a" ++ LF :: lit "b"; lit "c"].
Proof. repeat split; reflexivity. Qed.

(** ** The heading resolver *)

Section headings.

Variable self : Config.

Implicit Types notes : list Note.
Implicit Types h : nat * Note.

(** *** The headings in their order *)

Lemma enumerate_from_app {A} (a : nat) (l1 l2 : list A) :
  enumerate_from a (l1 ++ l2)
  = enumerate_from a l1 ++ enumerate_from (a + length l1) l2.
Proof.
  revert a. induction l1 as [|x l1 IH]; intros a; simpl.
  - by rewrite Nat.add_0_r.
  - rewrite IH. do 3 f_equal. lia.
Qed.

Lemma enumerate_from_range {A} (a : nat) (l : list A) :
  Forall (λ x, a ≤ x.1 < a + length l) (enumerate_from a l).
Proof.
  revert a. induction l as [|x l IH]; intros a; simpl; constructor.
  - simpl. lia.
  - eapply Forall_impl; [apply IH|]. simpl. intros; lia.
Qed.

Lemma enumerate_from_lookup {A} (a : nat) (l : list A) (x : nat * A) :
  x ∈ enumerate_from a l → l !! (x.1 - a) = Some x.2 ∧ a ≤ x.1.
Proof.
  revert a. induction l as [|y l IH]; intros a; simpl.
  - by intros ?%elem_of_nil.
  - intros [->|Hx]%elem_of_cons.
    + simpl. by rewrite Nat.sub_diag.
    + destruct (IH _ Hx) as [Hl Ha].
      replace (x.1 - a) with (S (x.1 - S a)) by lia. split; [done|lia].
Qed.

Lemma Forall_filter {A} (P : A → Prop) (f : A → bool) (l : list A) :
  Forall P l → Forall P (List.filter f l).
Proof.
  induction 1 as [|x l Hx _ IH]; simpl; [constructor|].
  destruct (f x); [by constructor|done].
Qed.

Lemma filter_all {A} (f : A → bool) (l : list A) :
  Forall (λ x, f x = true) l → List.filter f l = l.
Proof. induction 1 as [|x l Hx _ IH]; simpl; [done|]. by rewrite Hx, IH. Qed.

Lemma filter_none {A} (f : A → bool) (l : list A) :
  Forall (λ x, f x = false) l → List.filter f l = [].
Proof. induction 1 as [|x l Hx _ IH]; simpl; [done|]. by rewrite Hx. Qed.

Lemma elem_of_filter {A} (f : A → bool) (l : list A) (x : A) :
  x ∈ List.filter f l ↔ x ∈ l ∧ f x = true.
Proof. rewrite !list_elem_of_In. apply filter_In. Qed.

Lemma elem_of_heading_order notes h :
  h ∈ heading_order notes → notes !! h.1 = Some h.2 ∧ Note.is_heading h.2 = true.
Proof.
  unfold heading_order. intros [Hin Hh]%elem_of_filter.
  apply enumerate_from_lookup in Hin as [Hl _].
  by rewrite Nat.sub_0_r in Hl.
Qed.

(** The headings before a heading, the heading, and the headings behind
    it. *)
Lemma heading_order_split notes (p : nat) (n : Note) :
  notes !! p = Some n → Note.is_heading n = true →
  ∃ pre post,
    heading_order notes = pre ++ (p, n) :: post ∧
    Forall (λ h, h.1 < p) pre ∧ Forall (λ h, p < h.1) post ∧
    later_headings notes p = post.
Proof.
  intros Hp Hn.
  pose proof (lookup_lt_Some _ _ _ Hp) as Hlt.
  exists (List.filter (λ h, Note.is_heading h.2) (enumerate_from 0 (take p notes))),
         (List.filter (λ h, Note.is_heading h.2)
            (enumerate_from (S p) (drop (S p) notes))).
  assert (Hpre : Forall (λ h : nat * Note, h.1 < p)
                   (List.filter (λ h, Note.is_heading h.2)
                      (enumerate_from 0 (take p notes)))).
  { apply Forall_filter. eapply Forall_impl; [apply enumerate_from_range|].
    simpl. intros h. rewrite length_take. lia. }
  assert (Hpost : Forall (λ h : nat * Note, p < h.1)
                    (List.filter (λ h, Note.is_heading h.2)
                       (enumerate_from (S p) (drop (S p) notes)))).
  { apply Forall_filter. eapply Forall_impl; [apply enumerate_from_range|].
    simpl. intros; lia. }
  assert (Hsplit : heading_order notes
                   = List.filter (λ h, Note.is_heading h.2)
                       (enumerate_from 0 (take p notes))
                     ++ (p, n)
                     :: List.filter (λ h, Note.is_heading h.2)
                          (enumerate_from (S p) (drop (S p) notes))).
  { unfold heading_order.
    rewrite <-(take_drop_middle notes p n Hp) at 1.
    rewrite enumerate_from_app, List.filter_app. simpl.
    rewrite length_take, Hn. by replace (p `min` length notes) with p by lia. }
  split; [done|]. split; [done|]. split; [done|].
  unfold later_headings. rewrite Hsplit, List.filter_app. simpl.
  rewrite Nat.ltb_irrefl.
  rewrite filter_none, filter_all; [done|..].
  - eapply Forall_impl; [exact Hpost|]. simpl. intros h. apply Nat.ltb_lt.
  - eapply Forall_impl; [exact Hpre|]. simpl. intros h ?. apply Nat.ltb_ge. lia.
Qed.

(** *** [level_order] *)

Lemma dict_fromkeys_values (names seen : list str) :
  dict_fromkeys names seen = (λ k, (k, [])) <$> (dict_fromkeys names seen).*1.
Proof.
  revert seen. induction names as [|k names IH]; intros seen; simpl; [done|].
  case_bool_decide; [apply IH|]. simpl. f_equal. apply IH.
Qed.

Lemma elem_of_dict_fromkeys (names seen : list str) (k : str) :
  k ∈ names → k ∉ seen → k ∈ (dict_fromkeys names seen).*1.
Proof.
  revert seen. induction names as [|k' names IH]; intros seen; simpl.
  - by intros ?%elem_of_nil.
  - intros [->|Hin]%elem_of_cons Hseen.
    + rewrite bool_decide_false by done. simpl. by left.
    + case_bool_decide as Hk'; [by apply IH|].
      simpl. destruct (decide (k = k')) as [->|Hne]; [by left|].
      right. apply IH; [done|]. by intros [?|?]%elem_of_cons.
Qed.

Lemma filter_snoc {A} (f : A → bool) (l : list A) (x : A) :
  List.filter f (l ++ [x]) = List.filter f l ++ (if f x then [x] else []).
Proof. rewrite List.filter_app. simpl. by destruct (f x). Qed.

Lemma getitem_level {A} (l : list A) (z : Z) :
  (1 ≤ z ≤ Z.of_nat (length l))%Z → getitem l (z - 1) = l !! Z.to_nat (z - 1).
Proof. intros H. unfold getitem. destruct (Z.ltb_spec (z - 1) 0); [lia|done]. Qed.

(** [level_order] files every heading under the name of its level, each
    list in the order of [heading_order]. *)
Lemma level_order_Ok notes :
  valid_levels self notes →
  level_order self notes
  = Ok ((λ k, (k, List.filter (filed_under self k) (heading_order notes)))
          <$> (dict_fromkeys (level_names self) []).*1).
Proof.
  intros Hvalid. unfold level_order.
  rewrite dict_fromkeys_values at 1.
  set (keys := (dict_fromkeys (level_names self) []).*1).
  assert (Hall : Forall (λ h, ∃ k, getitem (level_names self)
                                     (Note.level_of h.2 - 1) = Some k)
                   (heading_order notes)).
  { apply Forall_forall. intros h [Hl Hh]%elem_of_heading_order.
    pose proof (Hvalid _ _ Hl Hh) as Hlv.
    rewrite getitem_level by done. apply lookup_lt_is_Some_2. lia. }
  enough (Hgen : ∀ pre,
    foldM (λ level_order note,
             level_name ← of_option IndexError
                            (getitem (level_names self) (Note.level_of note.2 - 1));
             Ok (dict_append level_name note level_order))
          ((λ k, (k, List.filter (filed_under self k) pre)) <$> keys)
          (heading_order notes)
    = Ok ((λ k, (k, List.filter (filed_under self k) (pre ++ heading_order notes)))
            <$> keys)) by apply (Hgen []).
  induction Hall as [|h l [k Hk] _ IH]; intros pre; simpl.
  - by rewrite app_nil_r.
  - rewrite Hk. simpl. rewrite (cons_middle h pre l), (assoc_L (++)).
    rewrite <-IH. f_equal. unfold dict_append.
    rewrite <-list_fmap_compose. apply list_fmap_ext. intros _ k' _. simpl.
    rewrite filter_snoc.
    assert (Hf : filed_under self k' h = bool_decide (k' = k)).
    { unfold filed_under. rewrite Hk. apply bool_decide_ext. split; congruence. }
    rewrite Hf. case_bool_decide; [done|by rewrite app_nil_r].
Qed.

(** *** The two loops as a list of assignments *)

Lemma assign_ends_lookup (E : nat → Z) (ps : list nat) notes (p : nat) :
  assign_ends E ps notes !! p
  = (if bool_decide (p ∈ ps) then Note.set_end_nindex (Some (E p)) else id)
      <$> notes !! p.
Proof.
  revert notes. induction ps as [|q ps IH]; intros notes; simpl.
  - by destruct (notes !! p).
  - unfold assign_ends in *. simpl. rewrite IH.
    destruct (decide (p = q)) as [->|Hne].
    + rewrite list_lookup_alter_eq. rewrite (bool_decide_true (q ∈ q :: ps)) by left.
      destruct (notes !! q); simpl; [|done]. by case_bool_decide.
    + rewrite list_lookup_alter_ne by done.
      destruct (notes !! p); simpl; [|done].
      case_bool_decide as E1; case_bool_decide as E2; try done.
      * exfalso. apply E2. by right.
      * apply elem_of_cons in E2 as [?|?]; done.
Qed.

Lemma assign_ends_app (E : nat → Z) (ps qs : list nat) notes :
  assign_ends E (ps ++ qs) notes = assign_ends E qs (assign_ends E ps notes).
Proof. unfold assign_ends. by rewrite foldl_app. Qed.

(** The inner loop over one list of headings. *)
Lemma inner_loop_assigns (E : nat → Z) (N : Z) (ho g g' : list (nat * Note))
    (i : nat) notes :
  (∀ j h, g' !! j = Some h → end_nindex_for N ho g (i + j) h = Ok (E h.1)) →
  for_each (λ '(i, heading) notes,
              match end_nindex_for N ho g i heading with
              | Raise e => (Raise e, notes)
              | Ok e => (Ok (), alter (Note.set_end_nindex (Some e)) heading.1 notes)
              end) (enumerate_from i g') notes
  = (Ok (), assign_ends E g'.*1 notes).
Proof.
  revert i notes. induction g' as [|h g' IH]; intros i notes Hend; simpl; [done|].
  pose proof (Hend 0 h eq_refl) as H0. rewrite Nat.add_0_r in H0. rewrite H0.
  unfold assign_ends. simpl. apply IH. intros j h' Hj.
  replace (S i + j) with (i + S j) by lia. by apply Hend.
Qed.

(** The outer loop over the lists of headings. *)
Lemma outer_loop_assigns (E : nat → Z) (N : Z) (ho : list (nat * Note))
    (groups : list (list (nat * Note))) notes :
  Forall (λ g, ∀ j h, g !! j = Some h → end_nindex_for N ho g j h = Ok (E h.1))
         groups →
  for_each (λ headings,
              for_each (λ '(i, heading) notes,
                          match end_nindex_for N ho headings i heading with
                          | Raise e => (Raise e, notes)
                          | Ok e => (Ok (), alter (Note.set_end_nindex (Some e))
                                              heading.1 notes)
                          end) (enumerate_from 0 headings)) groups notes
  = (Ok (), assign_ends E (mjoin groups).*1 notes).
Proof.
  intros Hall. revert notes.
  induction Hall as [|g groups Hg _ IH]; intros notes; simpl; [done|].
  rewrite (inner_loop_assigns E) by (intros j h; apply Hg).
  rewrite IH. by rewrite fmap_app, assign_ends_app.
Qed.

(** *** The end computed for one heading *)

Lemma list_index_app_first `{EqDecision A} (x : A) (l1 l2 : list A) :
  x ∉ l1 → list_index x (l1 ++ x :: l2) = Some (length l1).
Proof.
  induction l1 as [|y l1 IH]; simpl; intros Hx.
  - by rewrite decide_True.
  - rewrite decide_False by (intros ->; apply Hx; left).
    rewrite IH; [done|]. intros ?. apply Hx. by right.
Qed.

Lemma lookup_middle_unique {A} (l1 l2 : list A) (x : A) (i : nat) :
  (l1 ++ x :: l2) !! i = Some x → x ∉ l1 → x ∉ l2 → i = length l1.
Proof.
  intros Hi H1 H2.
  destruct (Nat.lt_trichotomy i (length l1)) as [Hlt|[->|Hgt]]; [|done|].
  - rewrite lookup_app_l in Hi by done. by apply list_elem_of_lookup_2 in Hi.
  - rewrite lookup_app_r in Hi by lia.
    destruct (i - length l1) as [|j] eqn:E; [lia|]. simpl in Hi.
    by apply list_elem_of_lookup_2 in Hi.
Qed.

Lemma head_filter {A} (f : A → bool) (l : list A) :
  head (List.filter f l) = List.find f l.
Proof. induction l as [|x l IH]; simpl; [done|]. by destruct (f x). Qed.

Lemma find_ext_in {A} (f g : A → bool) (l : list A) :
  Forall (λ x, f x = g x) l → List.find f l = List.find g l.
Proof. induction 1 as [|x l Hx _ IH]; simpl; [done|]. by rewrite Hx, IH. Qed.

(** The [while] loop stops at the first heading that is not deeper. *)
Lemma skip_deeper_find (lvl : Z) (front rest : list (nat * Note)) :
  (front ++ rest) !! skip_deeper lvl rest (length front)
  = List.find (λ h, (Note.level_of h.2 <=? lvl)%Z) rest.
Proof.
  revert front. induction rest as [|h rest IH]; intros front; simpl.
  - rewrite app_nil_r. apply lookup_ge_None_2. lia.
  - destruct (Z.gtb_spec (Note.level_of h.2) lvl) as [Hgt|Hle].
    + destruct (Z.leb_spec (Note.level_of h.2) lvl); [lia|].
      rewrite (cons_middle h front rest), (assoc_L (++)).
      specialize (IH (front ++ [h])). rewrite length_app in IH. simpl in IH.
      rewrite Nat.add_1_r in IH. apply IH.
    + destruct (Z.leb_spec (Note.level_of h.2) lvl); [|lia].
      by rewrite list_lookup_middle.
Qed.

Lemma Z_min_if (a b : Z) : (if (a <? b)%Z then a else b) = Z.min a b.
Proof. destruct (Z.ltb_spec a b); lia. Qed.

(** Under pairwise distinct level names, two headings with named levels
    are filed under the same name exactly when they have the same level. *)
Lemma filed_under_same_level (k : str) (h h' : nat * Note) :
  NoDup (level_names self) →
  (1 ≤ Note.level_of h.2 ≤ Z.of_nat (length (level_names self)))%Z →
  (1 ≤ Note.level_of h'.2 ≤ Z.of_nat (length (level_names self)))%Z →
  filed_under self k h = true →
  filed_under self k h' = (Note.level_of h'.2 =? Note.level_of h.2)%Z.
Proof.
  intros Hnd Hh Hh'. unfold filed_under.
  rewrite !getitem_level by done. intros Hk%bool_decide_eq_true.
  destruct (Z.eqb_spec (Note.level_of h'.2) (Note.level_of h.2)) as [->|Hne].
  - by apply bool_decide_eq_true.
  - apply bool_decide_eq_false. intros Hk'.
    pose proof (NoDup_lookup _ _ _ _ Hnd Hk Hk'). lia.
Qed.

Lemma end_nindex_for_resolved notes (k : str) (i p : nat) (n : Note) :
  NoDup (level_names self) → valid_levels self notes →
  List.filter (filed_under self k) (heading_order notes) !! i = Some (p, n) →
  end_nindex_for (Z.of_nat (length notes)) (heading_order notes)
    (List.filter (filed_under self k) (heading_order notes)) i (p, n)
  = Ok (resolved_end notes p).
Proof.
  intros Hnd Hvalid Hi.
  pose proof (list_elem_of_lookup_2 _ _ _ Hi) as [Hin Hk]%elem_of_filter.
  destruct (elem_of_heading_order _ _ Hin) as [Hp Hn]. simpl in Hp, Hn.
  destruct (heading_order_split notes p n Hp Hn)
    as (pre & post & Hsplit & Hpre & Hpost & Hlater).
  assert (Hvpost : Forall (λ h, (1 ≤ Note.level_of h.2
                                   ≤ Z.of_nat (length (level_names self)))%Z) post).
  { apply Forall_forall. intros h Hh.
    assert (Hh' : h ∈ heading_order notes)
      by (rewrite Hsplit; apply elem_of_app; right; by right).
    apply elem_of_heading_order in Hh' as [? ?]. by eapply Hvalid. }
  unfold resolved_end, sibling_boundary, ancestor_boundary.
  rewrite Hp, Hlater. clear Hlater.
  rewrite Hsplit in Hi |- *. clear Hsplit Hin.
  unfold end_nindex_for. simpl.
  rewrite fmap_app, fmap_cons. simpl.
  rewrite list_index_app_first; last first.
  { intros ([q m] & -> & Hq)%list_elem_of_fmap.
    rewrite Forall_forall in Hpre. apply Hpre in Hq. simpl in Hq. lia. }
  simpl. rewrite length_fmap.
  rewrite List.filter_app in Hi |- *. simpl in Hi |- *.
  rewrite Hk in Hi |- *.
  rewrite (cons_middle (p, n) pre post), (assoc_L (++)).
  rewrite drop_app_length' by (rewrite length_app; simpl; lia).
  replace (length pre + 1) with (length (pre ++ [(p, n)]))
    by (rewrite length_app; simpl; lia).
  rewrite skip_deeper_find.
  assert (Hi' : i = length (List.filter (filed_under self k) pre)).
  { apply (lookup_middle_unique _ _ _ _ Hi).
    - intros [Hq _]%elem_of_filter. rewrite Forall_forall in Hpre.
      apply Hpre in Hq. simpl in Hq. lia.
    - intros [Hq _]%elem_of_filter. rewrite Forall_forall in Hpost.
      apply Hpost in Hq. simpl in Hq. lia. }
  rewrite Hi'.
  rewrite (cons_middle (p, n)), (assoc_L (++)), lookup_app_r
    by (rewrite length_app; simpl; lia).
  rewrite length_app. simpl.
  replace (length (List.filter (filed_under self k) pre) + 1
           - (length (List.filter (filed_under self k) pre) + 1)) with 0 by lia.
  rewrite <-head_lookup, head_filter.
  rewrite (find_ext_in (filed_under self k)
             (λ h', (Note.level_of h'.2 =? Note.level_of n)%Z) post); last first.
  { eapply Forall_impl; [exact Hvpost|]. simpl. intros h Hh.
    apply (filed_under_same_level k (p, n) h); [done| |done|done].
    by eapply Hvalid. }
  by rewrite Z_min_if.
Qed.

(** *** The resolver *)

Lemma heading_order_elem_of notes (p : nat) (n : Note) :
  notes !! p = Some n → Note.is_heading n = true → (p, n) ∈ heading_order notes.
Proof.
  intros Hp Hn.
  destruct (heading_order_split notes p n Hp Hn) as (pre & post & -> & _).
  apply elem_of_app. right. by left.
Qed.

(** With named levels the resolver succeeds, and what it does is the
    assignment of [resolved_end] to a list of positions, among which is
    every heading. *)
Lemma complete_headings_resolved notes :
  is_Some (heading_char self) → NoDup (level_names self) →
  valid_levels self notes →
  ∃ ps,
    _complete_headings self notes
      = (Ok (), assign_ends (resolved_end notes) ps notes) ∧
    ∀ p n, notes !! p = Some n → Note.is_heading n = true → p ∈ ps.
Proof.
  intros [hc Hhc] Hnd Hvalid.
  set (keys := (dict_fromkeys (level_names self) []).*1).
  set (groups := (λ k, List.filter (filed_under self k) (heading_order notes))
                   <$> keys).
  exists (mjoin groups).*1. split.
  - unfold _complete_headings. rewrite Hhc, level_order_Ok by done.
    rewrite <-list_fmap_compose.
    apply outer_loop_assigns. apply Forall_fmap, Forall_forall.
    intros k _ j [p n] Hj. simpl.
    by apply end_nindex_for_resolved.
  - intros p n Hp Hn.
    pose proof (Hvalid _ _ Hp Hn) as Hlv.
    destruct (lookup_lt_is_Some_2 (level_names self)
                (Z.to_nat (Note.level_of n - 1))) as [k Hk]; [lia|].
    apply list_elem_of_fmap. exists (p, n). split; [done|].
    apply list_elem_of_join.
    exists (List.filter (filed_under self k) (heading_order notes)). split.
    + apply elem_of_filter. split; [by apply heading_order_elem_of|].
      unfold filed_under. simpl. rewrite getitem_level by done.
      by apply bool_decide_eq_true.
    + apply list_elem_of_fmap. exists k. split; [done|].
      apply elem_of_dict_fromkeys; [|by intros ?%elem_of_nil].
      by eapply list_elem_of_lookup_2.
Qed.

(** *** The boundaries do not depend on the ends of the ranges *)

Lemma core_is_heading (x y : Note) :
  core x = core y → Note.is_heading x = Note.is_heading y.
Proof. unfold core, Note.is_heading, Note.level. by intros [= _ -> _]. Qed.

Lemma core_level_of (x y : Note) :
  core x = core y → Note.level_of x = Note.level_of y.
Proof. unfold core, Note.level_of, Note.level. by intros [= _ -> _]. Qed.

Lemma core_nindex (x y : Note) : core x = core y → Note.nindex x = Note.nindex y.
Proof. unfold core. by intros [= _ _ ->]. Qed.

Lemma fmap_eq_Forall2 {A B} (f : A → B) (l l' : list A) :
  f <$> l = f <$> l' → Forall2 (λ x y, f x = f y) l l'.
Proof.
  revert l'. induction l as [|x l IH]; intros [|y l']; simpl; try done.
  intros [= Hxy Hl]. constructor; [done|by apply IH].
Qed.

Lemma enumerate_from_same (a : nat) (l l' : list Note) :
  Forall2 (λ x y, core x = core y) l l' →
  Forall2 same_heading (enumerate_from a l) (enumerate_from a l').
Proof.
  intros H. revert a. induction H as [|x y l l' Hxy _ IH]; intros a; simpl;
    constructor; [done|apply IH].
Qed.

Lemma filter_same {A} (R : A → A → Prop) (f g : A → bool) (l l' : list A) :
  (∀ x y, R x y → f x = g y) →
  Forall2 R l l' → Forall2 R (List.filter f l) (List.filter g l').
Proof.
  intros Hfg. induction 1 as [|x y l l' Hxy _ IH]; simpl; [constructor|].
  rewrite (Hfg x y Hxy). destruct (g y); [by constructor|done].
Qed.

Lemma find_same {A} (R : A → A → Prop) (f g : A → bool) (l l' : list A) :
  (∀ x y, R x y → f x = g y) →
  Forall2 R l l' → option_Forall2 R (List.find f l) (List.find g l').
Proof.
  intros Hfg. induction 1 as [|x y l l' Hxy _ IH]; simpl; [constructor|].
  rewrite (Hfg x y Hxy). destruct (g y); [by constructor|done].
Qed.

Lemma heading_order_same (a b : list Note) :
  core <$> a = core <$> b →
  Forall2 same_heading (heading_order a) (heading_order b).
Proof.
  intros H. unfold heading_order.
  apply filter_same; [by intros x y [_ ?%core_is_heading]|].
  apply enumerate_from_same. by apply fmap_eq_Forall2.
Qed.

Lemma later_headings_same (a b : list Note) (p : nat) :
  core <$> a = core <$> b →
  Forall2 same_heading (later_headings a p) (later_headings b p).
Proof.
  intros H. unfold later_headings.
  apply filter_same; [|by apply heading_order_same].
  intros x y [Hxy _]. by rewrite Hxy.
Qed.

Lemma boundaries_same (a b : list Note) (p : nat) (x y : Note) :
  core <$> a = core <$> b → core x = core y →
  sibling_boundary a p x = sibling_boundary b p y ∧
  ancestor_boundary a p x = ancestor_boundary b p y.
Proof.
  intros H Hxy.
  assert (Hlen : length a = length b)
    by (apply (f_equal length) in H; by rewrite !length_fmap in H).
  unfold sibling_boundary, ancestor_boundary.
  rewrite (core_level_of x y Hxy), Hlen.
  split.
  - destruct (find_same same_heading
                (λ h', (Note.level_of h'.2 =? Note.level_of y)%Z)
                (λ h', (Note.level_of h'.2 =? Note.level_of y)%Z)
                (later_headings a p) (later_headings b p)) as [h h' [_ Hh]|];
      [by intros ?? [_ ->%core_level_of]|by apply later_headings_same|..|done].
    by apply core_nindex.
  - destruct (find_same same_heading
                (λ h', (Note.level_of h'.2 <=? Note.level_of y)%Z)
                (λ h', (Note.level_of h'.2 <=? Note.level_of y)%Z)
                (later_headings a p) (later_headings b p)) as [h h' [_ Hh]|];
      [by intros ?? [_ ->%core_level_of]|by apply later_headings_same|..|done].
    by apply core_nindex.
Qed.

(** *** Nesting *)

Lemma increasing_enumerate_from (a : nat) (l : list Note) :
  increasing (enumerate_from a l).
Proof.
  revert a. induction l as [|x l IH]; intros a; simpl; [done|].
  split; [|apply IH].
  eapply Forall_impl; [apply enumerate_from_range|]. simpl. intros; lia.
Qed.

Lemma increasing_filter (f : nat * Note → bool) (l : list (nat * Note)) :
  increasing l → increasing (List.filter f l).
Proof.
  induction l as [|x l IH]; simpl; [done|]. intros [Hx Hl].
  destruct (f x); simpl; [|by apply IH].
  split; [by apply Forall_filter|by apply IH].
Qed.

Lemma increasing_heading_order notes : increasing (heading_order notes).
Proof. apply increasing_filter, increasing_enumerate_from. Qed.

Lemma find_elem_of {A} (f : A → bool) (l : list A) (x : A) :
  List.find f l = Some x → x ∈ l ∧ f x = true.
Proof. intros H%find_some. by rewrite list_elem_of_In. Qed.

Lemma find_None_elem_of {A} (f : A → bool) (l : list A) (x : A) :
  List.find f l = None → x ∈ l → f x = false.
Proof. intros H Hx%list_elem_of_In. by eapply find_none. Qed.

(** In a list of increasing positions [find] returns the match with the
    least position and [last] the element with the greatest. *)
Lemma find_first (f : nat * Note → bool) (l : list (nat * Note)) (x y : nat * Note) :
  increasing l → List.find f l = Some x → y ∈ l → f y = true → x.1 ≤ y.1.
Proof.
  induction l as [|z l IH]; simpl; [done|]. intros [Hz Hl].
  destruct (f z) eqn:Hfz.
  - intros [= <-] [->|Hy]%elem_of_cons _; [done|].
    rewrite Forall_forall in Hz. apply Hz in Hy. lia.
  - intros Hx [->|Hy]%elem_of_cons Hfy; [congruence|]. by apply IH.
Qed.

Lemma last_greatest (l : list (nat * Note)) (x y : nat * Note) :
  increasing l → last l = Some x → y ∈ l → y.1 ≤ x.1.
Proof.
  induction l as [|z l IH]; simpl; [done|]. intros [Hz Hl].
  destruct l as [|z' l].
  - by intros [= <-] ->%list_elem_of_singleton.
  - intros Hx [->|Hy]%elem_of_cons; [|by apply IH].
    assert (Hin : x ∈ z' :: l) by (by apply last_Some_elem_of).
    rewrite Forall_forall in Hz. apply Hz in Hin. lia.
Qed.

Lemma heading_position notes h :
  consistent notes → h ∈ heading_order notes →
  Note.nindex h.2 = Z.of_nat h.1 ∧ h.1 < length notes.
Proof.
  intros Hc [Hl _]%elem_of_heading_order. split.
  - by eapply consistent_lookup.
  - by eapply lookup_lt_Some.
Qed.

(** The ancestor boundary of a heading is at most the size of the
    store. *)
Lemma ancestor_boundary_le_length notes (p : nat) (n : Note) :
  consistent notes →
  (ancestor_boundary notes p n ≤ Z.of_nat (length notes))%Z.
Proof.
  intros Hc. unfold ancestor_boundary.
  destruct (List.find _ _) as [h|] eqn:E; [|lia].
  apply find_elem_of in E as [[Hh _]%elem_of_filter _].
  destruct (heading_position _ _ Hc Hh). lia.
Qed.

Lemma parent_inv notes (pc pp : nat) (c p : Note) :
  parent notes pc c = Some (pp, p) →
  (pp, p) ∈ heading_order notes ∧ pp < pc ∧
  (Note.level_of p < Note.level_of c)%Z ∧
  ∀ h, h ∈ heading_order notes → h.1 < pc →
       (Note.level_of h.2 < Note.level_of c)%Z → h.1 ≤ pp.
Proof.
  unfold parent. intros Hlast.
  pose proof (last_Some_elem_of _ _ Hlast) as [Hin HF]%elem_of_filter.
  apply andb_true_iff in HF as [Hpos%Nat.ltb_lt Hlv%Z.ltb_lt]. simpl in *.
  split; [done|]. split; [done|]. split; [done|].
  intros h Hh Hlt Hl.
  apply (last_greatest _ (pp, p) h (increasing_filter _ _
           (increasing_heading_order notes)) Hlast).
  apply elem_of_filter. split; [done|].
  apply andb_true_iff. split; [by apply Nat.ltb_lt|by apply Z.ltb_lt].
Qed.

(** A boundary of the parent that is found among the headings that are
    not deeper than the parent lies at or behind the ancestor boundary of
    the child. *)
Lemma ancestor_boundary_le notes (pc pp : nat) (c p : Note)
    (f : nat * Note → bool) :
  consistent notes → notes !! pc = Some c →
  parent notes pc c = Some (pp, p) →
  (∀ q, f q = true → (Note.level_of q.2 ≤ Note.level_of p)%Z) →
  (ancestor_boundary notes pc c
   ≤ match List.find f (later_headings notes pp) with
     | Some q => Note.nindex q.2
     | None => Z.of_nat (length notes)
     end)%Z.
Proof.
  intros Hc Hpc Hparent Hf.
  destruct (parent_inv _ _ _ _ _ Hparent) as (Hp & Hlt & Hlv & Hnearest).
  destruct (List.find f _) as [q|] eqn:E;
    [|by apply ancestor_boundary_le_length].
  apply find_elem_of in E as [[Hq Hpos%Nat.ltb_lt]%elem_of_filter Hfq].
  apply Hf in Hfq.
  assert (Hbehind : pc < q.1).
  { destruct (Nat.lt_trichotomy q.1 pc) as [Hlt'|[Heq|?]]; [| |done].
    - specialize (Hnearest q Hq Hlt'). lia.
    - apply elem_of_heading_order in Hq as [Hq _].
      rewrite Heq, Hpc in Hq. injection Hq as Hq. rewrite <-Hq in Hfq. lia. }
  unfold ancestor_boundary.
  destruct (List.find _ (later_headings notes pc)) as [h|] eqn:E.
  - assert (Hle : h.1 ≤ q.1).
    { eapply find_first; [|exact E| |].
      - apply increasing_filter, increasing_heading_order.
      - apply elem_of_filter. split; [done|]. by apply Nat.ltb_lt.
      - apply Z.leb_le. lia. }
    apply find_elem_of in E as [[Hh _]%elem_of_filter _].
    destruct (heading_position _ _ Hc Hh) as [-> _].
    destruct (heading_position _ _ Hc Hq) as [-> _]. lia.
  - exfalso.
    assert (Hg : (Note.level_of q.2 <=? Note.level_of c)%Z = false).
    { eapply (find_None_elem_of _ _ q) in E; [done|].
      apply elem_of_filter. split; [done|]. by apply Nat.ltb_lt. }
    apply Z.leb_gt in Hg. lia.
Qed.

(** *** The claim *)

Lemma assign_ends_inv (E : nat → Z) (ps : list nat) notes (p : nat) (h : Note) :
  assign_ends E ps notes !! p = Some h →
  ∃ n, notes !! p = Some n ∧ core h = core n ∧
       Note.begin_nindex h = Note.begin_nindex n ∧
       (p ∈ ps → Note.end_nindex h = Some (E p)).
Proof.
  rewrite assign_ends_lookup. destruct (notes !! p) as [n|]; simpl; [|done].
  intros [= <-]. exists n. split; [done|].
  case_bool_decide; simpl; by repeat split.
Qed.

Lemma consistent_core (a b : list Note) :
  core <$> a = core <$> b → consistent a → consistent b.
Proof.
  intros H. unfold consistent. rewrite !nindex_core, H.
  apply (f_equal length) in H. rewrite !length_fmap in H. by rewrite H.
Qed.

(** C4, as the code has it.  When a heading marker is configured, the
    level names are pairwise distinct and the level of every heading has a
    name, the resolver succeeds and changes nothing but the ends of the
    ranges; afterwards the end of the range of every heading is the
    smaller of its sibling boundary and its ancestor boundary; and if
    moreover the [nindex] fields are the positions and every heading begins
    its range behind itself, the range of a heading is contained in the
    range of its parent. *)
Theorem complete_headings_boundaries notes :
  is_Some (heading_char self) → NoDup (level_names self) →
  valid_levels self notes →
  ∃ notes',
    _complete_headings self notes = (Ok (), notes') ∧
    core <$> notes' = core <$> notes ∧
    (∀ (p : nat) (h : Note), notes' !! p = Some h → Note.is_heading h = true →
       Note.end_nindex h
       = Some (Z.min (sibling_boundary notes' p h) (ancestor_boundary notes' p h))) ∧
    (consistent notes → headings_begin notes →
     ∀ pc c pp p,
       notes' !! pc = Some c → Note.is_heading c = true →
       parent notes' pc c = Some (pp, p) →
       ∃ bc ec bp ep,
         Note.begin_nindex c = Some bc ∧ Note.end_nindex c = Some ec ∧
         Note.begin_nindex p = Some bp ∧ Note.end_nindex p = Some ep ∧
         (bp ≤ bc)%Z ∧ (ec ≤ ep)%Z).
Proof.
  intros Hhc Hnd Hvalid.
  destruct (complete_headings_resolved notes Hhc Hnd Hvalid) as (ps & Hrun & Hps).
  set (notes' := assign_ends (resolved_end notes) ps notes) in *.
  pose proof (complete_headings_core _ _ _ _ Hrun) as Hcore.
  assert (Hend : ∀ (p : nat) (h : Note), notes' !! p = Some h → Note.is_heading h = true →
            Note.end_nindex h
            = Some (Z.min (sibling_boundary notes' p h)
                          (ancestor_boundary notes' p h))).
  { intros p h Hp Hh.
    destruct (assign_ends_inv _ _ _ _ _ Hp) as (n & Hn & Hhn & _ & He).
    rewrite (core_is_heading h n Hhn) in Hh.
    rewrite (He (Hps p n Hn Hh)). unfold resolved_end. rewrite Hn.
    by destruct (boundaries_same notes notes' p n h) as [-> ->]. }
  exists notes'. split; [done|]. split; [done|]. split; [done|].
  intros Hc Hbegin pc c pp p Hpc Hcl Hparent.
  assert (Hc' : consistent notes') by (by eapply consistent_core).
  destruct (parent_inv _ _ _ _ _ Hparent) as (Hp & Hlt & Hlv & _).
  apply elem_of_heading_order in Hp as [Hpp Hpl]. simpl in Hpp, Hpl.
  assert (Hb : ∀ (q : nat) (h : Note), notes' !! q = Some h → Note.is_heading h = true →
            Note.begin_nindex h = Some (Z.of_nat q + 1)%Z).
  { intros q h Hq Hh.
    destruct (assign_ends_inv _ _ _ _ _ Hq) as (n & Hn & Hhn & -> & _).
    rewrite (core_is_heading h n Hhn) in Hh.
    rewrite (Hbegin q n Hn Hh). by rewrite (consistent_lookup _ _ _ Hc Hn). }
  eexists _, _, _, _.
  split; [by apply Hb|]. split; [by apply Hend|].
  split; [by apply Hb|]. split; [by apply Hend|].
  split; [lia|].
  pose proof (ancestor_boundary_le notes' pc pp c p
                (λ h', (Note.level_of h'.2 =? Note.level_of p)%Z)
                Hc' Hpc Hparent) as Hsib.
  pose proof (ancestor_boundary_le notes' pc pp c p
                (λ h', (Note.level_of h'.2 <=? Note.level_of p)%Z)
                Hc' Hpc Hparent) as Hanc.
  fold (sibling_boundary notes' pp p) in Hsib.
  fold (ancestor_boundary notes' pp p) in Hanc.
  specialize (Hsib ltac:(intros q ?%Z.eqb_eq; lia)).
  specialize (Hanc ltac:(intros q ?%Z.leb_le; lia)).
  lia.
Qed.

Lemma valid_levels_Forall notes :
  Forall (λ n, Note.is_heading n = true →
               (1 ≤ Note.level_of n ≤ Z.of_nat (length (level_names self)))%Z) notes →
  valid_levels self notes.
Proof.
  intros H p n Hp. rewrite Forall_forall in H. apply H.
  by eapply list_elem_of_lookup_2.
Qed.

Lemma headings_begin_Forall notes :
  Forall (λ n, Note.is_heading n = true →
               Note.begin_nindex n = Some (Note.nindex n + 1)%Z) notes →
  headings_begin notes.
Proof.
  intros H p n Hp. rewrite Forall_forall in H. apply H.
  by eapply list_elem_of_lookup_2.
Qed.

End headings.

Lemma complete_headings_boundaries_witness :
  is_Some (heading_char Examples.book) ∧ NoDup (level_names Examples.book) ∧
  valid_levels Examples.book Examples.chapters ∧
  consistent Examples.chapters ∧ headings_begin Examples.chapters ∧
  ∃ notes',
    _complete_headings Examples.book Examples.chapters = (Ok (), notes') ∧
    Note.end_nindex <$> notes' = [Some 4; Some 3; None; Some 4; Some 6; None]%Z ∧
    (∀ (p : nat) (h : Note), notes' !! p = Some h → Note.is_heading h = true →
       Note.end_nindex h
       = Some (Z.min (sibling_boundary notes' p h) (ancestor_boundary notes' p h))) ∧
    (∀ pc c pp p,
       notes' !! pc = Some c → Note.is_heading c = true →
       parent notes' pc c = Some (pp, p) →
       ∃ bc ec bp ep,
         Note.begin_nindex c = Some bc ∧ Note.end_nindex c = Some ec ∧
         Note.begin_nindex p = Some bp ∧ Note.end_nindex p = Some ep ∧
         (bp ≤ bc)%Z ∧ (ec ≤ ep)%Z).
Proof.
  assert (H1 : is_Some (heading_char Examples.book)) by (by eexists).
  assert (H2 : NoDup (level_names Examples.book))
    by (apply (bool_decide_eq_true_1 _); by_compute).
  assert (H3 : valid_levels Examples.book Examples.chapters)
    by (apply valid_levels_Forall, (bool_decide_eq_true_1 _); by_compute).
  assert (H4 : consistent Examples.chapters) by by_compute.
  assert (H5 : headings_begin Examples.chapters)
    by (apply headings_begin_Forall, (bool_decide_eq_true_1 _); by_compute).
  split; [exact H1|]. split; [exact H2|]. split; [exact H3|].
  split; [exact H4|]. split; [exact H5|].
  destruct (complete_headings_boundaries Examples.book Examples.chapters H1 H2 H3)
    as (notes' & Hrun & _ & Hend & Hnest).
  exists notes'. split; [exact Hrun|]. split; [|split; [exact Hend|exact (Hnest H4 H5)]].
  assert (Hn : notes' = (_complete_headings Examples.book Examples.chapters).2)
    by (rewrite Hrun; reflexivity).
  rewrite Hn. by_compute.
Defined.

(** C4, counterexample.  Under the two level names "Part" and "Part" the
    heading "A" of level 1 is followed by the heading "B" of level 2 and a
    plain note.  No heading of level 1 and no heading of a level up to 1
    follows "A", so both boundaries of "A" are the size 3 of the store;
    the resolver files "B" under the same name as "A" and ends the range of
    "A" at the [nindex] 1 of "B".  The range of "B" then ends at 3, behind
    the end of the range of its parent "A". *)
Lemma complete_headings_same_names :
  let notes := Examples.one_name in
  let notes' := (_complete_headings Examples.same_names notes).2 in
  _complete_headings Examples.same_names notes = (Ok (), notes') ∧
  Note.level <$> notes' = [Some 1; Some 2; None]%Z ∧
  Note.end_nindex <$> notes' !! 0 = Some (Some 1%Z) ∧
  sibling_boundary notes' 0 <$> notes' !! 0 = Some 3%Z ∧
  ancestor_boundary notes' 0 <$> notes' !! 0 = Some 3%Z ∧
  (λ c, fst <$> parent notes' 1 c) <$> notes' !! 1 = Some (Some 0) ∧
  Note.end_nindex <$> notes' !! 1 = Some (Some 3%Z).
Proof.
  intros notes notes'. split.
  { refine (pair_eq_snd (_complete_headings Examples.same_names notes) (Ok ()) _).
    by_compute. }
  repeat split; by_compute.
Qed.

(** * Further properties of the code *)

(** ** Logical lines *)

Section logical_lines.

Variable self : Config.

(** X1.  Where no raw line opens a block (no delimiter is configured, or no
    line starts with it after trimming), the logical lines are the raw
    lines that have at least one character, each stripped, in their order:
    a raw line of white space only gives an empty logical line. *)
Theorem read_lines_plain (lines : list str) :
  (∀ b, blocks self = Some b →
        Forall (λ line, startswith (strip line) b = false) lines) →
  read_lines self lines
  = strip <$> List.filter (λ line, negb (str_eqb line [])) lines.
Proof.
  intros Hb. induction lines as [|line rest IH]; simpl; [done|].
  assert (IH' : read_lines self rest
                = strip <$> List.filter (λ line, negb (str_eqb line [])) rest).
  { apply IH. intros b Hsome. by eapply Forall_inv_tail, Hb. }
  assert (Hy : yield_line line (read_lines self rest)
               = strip <$> (if negb (str_eqb line [])
                            then line :: List.filter (λ line, negb (str_eqb line [])) rest
                            else List.filter (λ line, negb (str_eqb line [])) rest)).
  { rewrite IH'. by destruct line. }
  destruct (blocks self) as [b|] eqn:E; [|done].
  specialize (Hb b eq_refl). apply Forall_inv in Hb. by rewrite Hb.
Qed.

(** X2.  A block that no following raw line closes takes in every raw line
    to the end of the document and still loses its last [len(blocks)]
    characters; it is the last logical line. *)
Theorem read_lines_unterminated (b line : str) (rest : list str) :
  blocks self = Some b →
  startswith (strip line) b = true →
  Forall (λ l, endswith (strip l) b = false) rest →
  read_lines self (line :: rest)
  = yield_line (slice_to (continued (drop (length b) line) rest)
                         (- Z.of_nat (length b))) [].
Proof.
  intros Hb Hstart Hrest. simpl. rewrite Hb, Hstart.
  generalize (drop (length b) line). clear Hstart.
  induction Hrest as [|l rest Hl _ IH]; intros acc; simpl; [done|].
  rewrite Hl. apply IH.
Qed.

End logical_lines.

Lemma read_lines_plain_witness :
  (∀ b, blocks Examples.book = Some b →
        Forall (λ line, startswith (strip line) b = false)
               [lit " a "; lit ""; lit "  "; lit "b"]) ∧
  read_lines Examples.book [lit " a "; lit ""; lit "  "; lit "b"]
  = [lit "a"; lit ""; lit "b"].
Proof.
  assert (H : ∀ b, blocks Examples.book = Some b →
                Forall (λ line, startswith (strip line) b = false)
                       [lit " a "; lit ""; lit "  "; lit "b"]).
  { intros b [= <-]. repeat constructor. }
  split; [exact H|].
  exact (read_lines_plain Examples.book _ H).
Defined.

Lemma read_lines_unterminated_witness :
  blocks Examples.book = Some (lit "%%") ∧
  startswith (strip (lit "%%a")) (lit "%%") = true ∧
  Forall (λ l, endswith (strip l) (lit "%%") = false) [lit "b"; lit "cde"] ∧
  read_lines Examples.book [lit "%%a"; lit "b"; lit "cde"]
  = [lit "a" ++ LF :: lit "b" ++ LF :: lit "c"].
Proof.
  assert (H : Forall (λ l, endswith (strip l) (lit "%%") = false)
                     [lit "b"; lit "cde"]) by (repeat constructor).
  split; [reflexivity|]. split; [reflexivity|]. split; [exact H|].
  exact (read_lines_unterminated Examples.book (lit "%%") (lit "%%a")
           [lit "b"; lit "cde"] eq_refl eq_refl H).
Defined.

(** X3.  A block whose opening raw line starts with the delimiter itself
    and whose closing raw line ends with the delimiter itself is one
    logical line: the text between the two delimiters, the raw lines
    joined by line breaks, stripped. *)
Theorem read_lines_block_merged (self : Config) (b first body : str)
    (middle rest : list str) :
  blocks self = Some b → b ≠ [] →
  startswith (strip (b ++ first)) b = true →
  Forall (λ l, endswith (strip l) b = false) middle →
  endswith (strip (body ++ b)) b = true →
  read_lines self ((b ++ first) :: middle ++ (body ++ b) :: rest)
  = strip (continued first middle ++ LF :: body) :: read_lines self rest.
Proof. apply read_lines_block_clean. Qed.

Lemma read_lines_block_merged_witness :
  blocks Examples.book = Some (lit "%%") ∧ lit "%%" ≠ [] ∧
  startswith (strip (lit "%%" ++ lit " one")) (lit "%%") = true ∧
  Forall (λ l, endswith (strip l) (lit "%%") = false) [lit "two"] ∧
  endswith (strip (lit "three " ++ lit "%%")) (lit "%%") = true ∧
  read_lines Examples.book
    ((lit "%%" ++ lit " one") :: [lit "two"] ++ (lit "three " ++ lit "%%") :: [lit "x"])
  = strip (continued (lit " one") [lit "two"] ++ LF :: lit "three ")
    :: read_lines Examples.book [lit "x"].
Proof.
  assert (H : Forall (λ l, endswith (strip l) (lit "%%") = false) [lit "two"])
    by (repeat constructor).
  split; [reflexivity|]. split; [discriminate|]. split; [reflexivity|].
  split; [exact H|]. split; [reflexivity|].
  exact (read_lines_block_merged Examples.book (lit "%%") (lit " one")
           (lit "three ") [lit "two"] [lit "x"] eq_refl ltac:(discriminate)
           eq_refl H eq_refl).
Defined.

(** ** The loop of [_detect_extensions] *)

Section extension_loop.

Implicit Types name lbound rbound content : str.

Lemma extension_loop_outcome name lbound rbound rounds content kwargs :
  lbound ≠ [] → rbound ≠ [] → length content < rounds →
  match extension_loop rounds name lbound rbound content kwargs with
  | Ok (content', _) => find lbound content' = None ∧ length content' ≤ length content
  | Raise e => ∃ content', e = MissingBound content' lbound rbound
                           ∧ length content' ≤ length content
  end.
Proof.
  intros Hl Hr. revert content kwargs.
  induction rounds as [|rounds IH]; intros content kwargs Hlen; [lia|]. simpl.
  destruct (find lbound content) as [i|] eqn:Fl; [|done].
  destruct (find rbound (drop (i + length lbound) content)) as [j|] eqn:Fr;
    [|by exists content].
  pose proof (extension_round_shorter _ _ _ _ _ Hl Hr Fl Fr) as Hshort.
  simpl in Hshort.
  set (content' := strip _ ++ _ :: strip _) in *.
  set (kwargs' := if bool_decide _ then _ else _).
  specialize (IH content' kwargs' ltac:(lia)). revert IH.
  destruct (extension_loop rounds name lbound rbound content' kwargs')
    as [[c k]|e]; intros IH.
  - destruct IH as [IH1 IH2]. split; [done|lia].
  - destruct IH as (c & -> & ?). exists c. split; [done|lia].
Qed.

(** X4.  With two non-empty bounds the [while] loop of one extension ends:
    either it returns a content that is not longer than the one it started
    from and in which the left bound no longer occurs, or it raises
    MissingBound. *)
Theorem extension_while_ends name lbound rbound content kwargs :
  lbound ≠ [] → rbound ≠ [] →
  (∃ content' kwargs',
     extension_while name lbound rbound content kwargs = Ok (content', kwargs') ∧
     contains lbound content' = false ∧ length content' ≤ length content) ∨
  (∃ content',
     extension_while name lbound rbound content kwargs
     = Raise (MissingBound content' lbound rbound)).
Proof.
  intros Hl Hr. unfold extension_while.
  pose proof (extension_loop_outcome name lbound rbound (S (length content))
                content kwargs Hl Hr ltac:(lia)) as H. revert H.
  destruct (extension_loop _ _ _ _ _ _) as [[c k]|e]; intros H.
  - left. exists c, k. destruct H as [H1 H2]. unfold contains. by rewrite H1.
  - right. destruct H as (c & -> & _). by exists c.
Qed.

End extension_loop.

Lemma extension_while_ends_witness :
  lit "[" ≠ [] ∧ lit "]" ≠ [] ∧
  ((∃ content' kwargs',
      extension_while (lit "tag") (lit "[") (lit "]") (lit "a [b] c [d]") ∅
      = Ok (content', kwargs') ∧
      contains (lit "[") content' = false ∧
      length content' ≤ length (lit "a [b] c [d]")) ∨
   (∃ content',
      extension_while (lit "tag") (lit "[") (lit "]") (lit "a [b] c [d]") ∅
      = Raise (MissingBound content' (lit "[") (lit "]")))).
Proof.
  split; [discriminate|]. split; [discriminate|].
  apply extension_while_ends; discriminate.
Defined.

(** ** Heading detection *)

Section heading_detection.

Variable self : Config.

Lemma count_from_single_replicate (c : ascii) (k : nat) (rest : str) :
  count_from [c] (replicate k c ++ rest) 0 = k + count_from [c] rest 0.
Proof.
  induction k as [|k IH]; simpl; [done|].
  by rewrite Ascii.eqb_refl, IH.
Qed.

Lemma count_from_single_none (c : ascii) (s : str) :
  Forall (λ a, a ≠ c) s → count_from [c] s 0 = 0.
Proof.
  induction 1 as [|a s Ha _ IH]; simpl; [done|].
  destruct (Ascii.eqb_spec c a); [congruence|done].
Qed.

Lemma leading_run_single (c : ascii) (k rounds : nat) (rest : str) :
  head rest ≠ Some c → k + length rest ≤ rounds →
  leading_run rounds [c] (replicate k c ++ rest) = k.
Proof.
  intros Hhead. revert rounds. induction k as [|k IH]; intros rounds Hr; simpl.
  - destruct rounds as [|rounds]; [done|]. simpl.
    destruct rest as [|a rest]; [done|]. simpl in *.
    destruct (Ascii.eqb_spec c a); [congruence|done].
  - destruct rounds as [|rounds]; [simpl in Hr; lia|]. simpl.
    rewrite Ascii.eqb_refl. simpl. f_equal. apply IH. simpl in Hr. lia.
Qed.

(** X5.  On a line that begins with [k] markers and has no further marker
    among its first [levels] characters, the level that the code computes
    is the number of markers at the start of the line, capped at
    [levels]. *)
Theorem heading_level_leading_run (c : ascii) (k : nat) (rest : str) (L : Z) :
  (0 ≤ L)%Z →
  head rest ≠ Some c →
  Forall (λ a, a ≠ c) (take (Z.to_nat L - k) rest) →
  count [c] (replicate k c ++ rest) 0 L = Z.min (Z.of_nat k) L ∧
  count [c] (replicate k c ++ rest) 0 L = spec_level [c] (replicate k c ++ rest) L.
Proof.
  intros HL Hhead Hrest.
  assert (Hc : count [c] (replicate k c ++ rest) 0 L = Z.min (Z.of_nat k) L).
  { unfold count, slice, clamp.
    destruct (Z.ltb_spec L 0); [lia|]. destruct (Z.ltb_spec 0 0); [lia|].
    simpl. rewrite drop_0, length_app, length_replicate.
    destruct (decide (Z.to_nat L ≤ k)) as [Hle|Hgt].
    - replace (Z.to_nat L `min` (k + length rest)) with (Z.to_nat L) by lia.
      rewrite take_app_le by (rewrite length_replicate; lia).
      rewrite take_replicate.
      replace (Z.to_nat L `min` k) with (Z.to_nat L) by lia.
      rewrite <-(app_nil_r (replicate _ _)), count_from_single_replicate. simpl. lia.
    - rewrite take_app_ge by (rewrite length_replicate; lia).
      rewrite length_replicate, count_from_single_replicate.
      rewrite count_from_single_none; [lia|].
      destruct (decide (Z.to_nat L ≤ k + length rest)).
      + by replace (Z.to_nat L `min` (k + length rest) - k)
          with (Z.to_nat L - k) by lia.
      + replace (Z.to_nat L `min` (k + length rest) - k) with (length rest) by lia.
        rewrite take_ge in Hrest by lia. by rewrite firstn_all. }
  split; [exact Hc|]. rewrite Hc. unfold spec_level.
  rewrite leading_run_single; [done|done|].
  rewrite length_app, length_replicate. lia.
Qed.

(** X6.  Under a one-character marker with [levels] level names, heading
    detection on a line that starts with the marker raises HeadingJump
    exactly when the level it computes exceeds by more than one the level
    of the last heading of the store (0 without one); otherwise it raises
    DuplicateHeading when the rest of the line, without the leading white
    space, is a heading name of the store; otherwise it returns that rest
    with the level and [nindex + 1] as the begin of the range. *)
Theorem detect_headings_outcome (notes : list Note) (content : str) (nindex : Z)
    (kwargs : Kwargs) (c : ascii) :
  heading_char self = Some [c] →
  levels self = Z.of_nat (length (level_names self)) →
  1 ≤ length (level_names self) →
  startswith content [c] = true →
  let level := count [c] content 0 (levels self) in
  let name := lstrip (drop (Z.to_nat level) content) in
  ((level - previous_level notes > 1)%Z →
   _detect_headings self notes content nindex kwargs
   = Raise (HeadingJump content (previous_level notes) level)) ∧
  ((level - previous_level notes ≤ 1)%Z → Some name ∈ heading_names notes →
   _detect_headings self notes content nindex kwargs = Raise (DuplicateHeading name)) ∧
  ((level - previous_level notes ≤ 1)%Z → Some name ∉ heading_names notes →
   ∃ kwargs',
     _detect_headings self notes content nindex kwargs = Ok (name, kwargs') ∧
     kw_int kwargs' "level" = Some level ∧
     kw_int kwargs' "begin_nindex" = Some (nindex + 1)%Z ∧
     kw_str kwargs' "heading_name" = Some name).
Proof.
  intros Hc HL H1 Hs level name.
  assert (Hb : (1 ≤ level ≤ levels self)%Z)
    by (apply count_marker_bounds; [done|lia]).
  assert (Hg : is_Some (getitem (level_names self) (level - 1))).
  { unfold getitem. destruct (Z.ltb_spec (level - 1) 0); [lia|].
    apply lookup_lt_is_Some. lia. }
  destruct Hg as [level_name Hg].
  assert (Hlen : length (repeat_str [c] level) = Z.to_nat level).
  { unfold repeat_str. generalize (Z.to_nat level). intros n.
    induction n as [|n IH]; simpl; [done|]. by rewrite IH. }
  unfold _detect_headings. rewrite Hc, Hs. fold level. rewrite Hg. simpl.
  fold (previous_level notes). rewrite Hlen. fold name.
  split; [|split].
  - intros Hjump. by destruct (Z.gtb_spec (level - previous_level notes) 1); [|lia].
  - intros Hle Hdup. destruct (Z.gtb_spec (level - previous_level notes) 1); [lia|].
    by rewrite bool_decide_true.
  - intros Hle Hnew. destruct (Z.gtb_spec (level - previous_level notes) 1); [lia|].
    rewrite bool_decide_false by done. eexists. split; [done|].
    unfold kw_int, kw_str.
    rewrite lookup_insert_eq.
    rewrite !(lookup_insert_ne _ "begin_nindex") by done.
    rewrite lookup_insert_eq.
    rewrite !(lookup_insert_ne _ "heading_name") by done.
    rewrite !(lookup_insert_ne _ "heading") by done.
    rewrite !(lookup_insert_ne _ "level_name") by done.
    by rewrite lookup_insert_eq.
Qed.

End heading_detection.

Lemma heading_level_leading_run_witness :
  (0 ≤ 3)%Z ∧ head (lit " Sub") ≠ Some "#"%char ∧
  Forall (λ a, a ≠ "#"%char) (take (Z.to_nat 3 - 2) (lit " Sub")) ∧
  count (lit "#") (replicate 2 "#"%char ++ lit " Sub") 0 3 = Z.min (Z.of_nat 2) 3 ∧
  count (lit "#") (replicate 2 "#"%char ++ lit " Sub") 0 3
  = spec_level (lit "#") (replicate 2 "#"%char ++ lit " Sub") 3.
Proof.
  assert (H1 : (0 ≤ 3)%Z) by (apply Z.leb_le; reflexivity).
  assert (H2 : head (lit " Sub") ≠ Some "#"%char) by discriminate.
  assert (H3 : Forall (λ a, a ≠ "#"%char) (take (Z.to_nat 3 - 2) (lit " Sub")))
    by (repeat constructor; discriminate).
  split; [exact H1|]. split; [exact H2|]. split; [exact H3|].
  exact (heading_level_leading_run "#"%char 2 (lit " Sub") 3 H1 H2 H3).
Defined.

Lemma detect_headings_outcome_witness :
  let notes := Examples.parse Examples.book Examples.book_doc in
  heading_char Examples.book = Some (lit "#") ∧
  levels Examples.book = Z.of_nat (length (level_names Examples.book)) ∧
  1 ≤ length (level_names Examples.book) ∧
  startswith (lit "## New") (lit "#") = true ∧
  (count (lit "#") (lit "## New") 0 (levels Examples.book)
   - previous_level notes ≤ 1)%Z ∧
  (Some (lstrip (drop (Z.to_nat (count (lit "#") (lit "## New") 0
                                   (levels Examples.book))) (lit "## New")))
     ∉ heading_names notes) ∧
  ∃ kwargs',
    _detect_headings Examples.book notes (lit "## New") 4 ∅
    = Ok (lstrip (drop (Z.to_nat (count (lit "#") (lit "## New") 0
                                    (levels Examples.book))) (lit "## New")),
          kwargs') ∧
    kw_int kwargs' "level"
    = Some (count (lit "#") (lit "## New") 0 (levels Examples.book)) ∧
    kw_int kwargs' "begin_nindex" = Some (4 + 1)%Z ∧
    kw_str kwargs' "heading_name"
    = Some (lstrip (drop (Z.to_nat (count (lit "#") (lit "## New") 0
                                      (levels Examples.book))) (lit "## New"))).
Proof.
  intros notes.
  assert (H1 : 1 ≤ length (level_names Examples.book)) by (apply Nat.leb_le; reflexivity).
  assert (H2 : (count (lit "#") (lit "## New") 0 (levels Examples.book)
                - previous_level notes ≤ 1)%Z) by (apply Z.leb_le; by_compute).
  assert (H3 : Some (lstrip (drop (Z.to_nat (count (lit "#") (lit "## New") 0
                                              (levels Examples.book)))
                               (lit "## New")))
               ∉ heading_names notes)
    by (apply (bool_decide_eq_false_1 _); by_compute).
  split; [reflexivity|]. split; [reflexivity|]. split; [exact H1|].
  split; [reflexivity|]. split; [exact H2|]. split; [exact H3|].
  exact (proj2 (proj2 (detect_headings_outcome Examples.book notes (lit "## New") 4 ∅
                         "#"%char eq_refl eq_refl H1 eq_refl)) H2 H3).
Defined.

(** ** The Note that [_make_note] makes *)

Ltac by_elem := repeat constructor.
Ltac not_elem :=
  let H := fresh in
  intros H; repeat (apply elem_of_cons in H as [H|H]; [discriminate H|]);
  by apply elem_of_nil in H.

Section made_note.

Variable self : Config.

(** Each detection step writes its own keys of [kwargs] only. *)
Lemma detect_headings_other_keys (notes : list Note) (content c : str) (nindex : Z)
    (kwargs kw : Kwargs) (key : string) :
  key ∉ ["heading_char"; "level"; "level_name"; "heading"; "heading_name";
         "begin_nindex"]%string →
  _detect_headings self notes content nindex kwargs = Ok (c, kw) →
  kw !! key = kwargs !! key.
Proof.
  intros Hkey. unfold _detect_headings.
  destruct (heading_char self) as [hc|]; [|by intros [= _ <-]].
  destruct (startswith content hc); [|by intros [= _ <-]].
  destruct (getitem _ _); simpl; [|done].
  destruct (_ >? 1)%Z; [done|]. case_bool_decide; [done|].
  intros [= _ <-].
  rewrite !lookup_insert_ne; [done|..]; intros <-; apply Hkey; by_elem.
Qed.

Lemma kw_append_other_key (k key : string) (x : str) (kwargs : Kwargs) :
  key ≠ k → kw_append k x kwargs !! key = kwargs !! key.
Proof. intros H. unfold kw_append. by rewrite lookup_alter_ne. Qed.

Lemma detect_categories_other_keys (content : str) (kwargs : Kwargs) (key : string) :
  key ≠ "category_names"%string → key ≠ "category_prefixes"%string →
  (_detect_categories self content kwargs).2 !! key = kwargs !! key.
Proof.
  intros H1 H2. unfold _detect_categories.
  set (kw0 := <["category_prefixes" := _]> _).
  assert (H0 : kw0 !! key = kwargs !! key)
    by (unfold kw0; by rewrite !lookup_insert_ne).
  rewrite <-H0. clear H0. generalize kw0 content.
  induction (zip (category_names self) (category_prefixes self)) as [|[n p] l IH];
    intros kw c; simpl; [done|].
  destruct (startswith c p); rewrite IH; [|done].
  by rewrite !kw_append_other_key.
Qed.

Lemma extension_loop_other_keys (rounds : nat) (name lbound rbound content c : str)
    (kwargs kw : Kwargs) (key : string) :
  key ≠ "extensions"%string → key ≠ "extension_names"%string →
  extension_loop rounds name lbound rbound content kwargs = Ok (c, kw) →
  kw !! key = kwargs !! key.
Proof.
  intros H1 H2. revert content kwargs.
  induction rounds as [|rounds IH]; intros content kwargs; simpl.
  - destruct (find lbound content); [done|by intros [= _ <-]].
  - destruct (find lbound content) as [i|]; [|by intros [= _ <-]].
    destruct (find rbound _) as [j|]; [|done].
    intros H%IH. rewrite H. case_bool_decide.
    + unfold kw_append_extension. by rewrite lookup_alter_ne.
    + rewrite kw_append_other_key by done.
      unfold kw_append_extension. by rewrite lookup_alter_ne.
Qed.

Lemma detect_extensions_other_keys (content c : str) (kwargs kw : Kwargs)
    (key : string) :
  key ∉ ["extensions"; "extension_bounds"; "extension_names"]%string →
  _detect_extensions self content kwargs = Ok (c, kw) →
  kw !! key = kwargs !! key.
Proof.
  intros Hkey. unfold _detect_extensions.
  assert (H1 : key ≠ "extensions"%string) by (intros ->; apply Hkey; by_elem).
  assert (H2 : key ≠ "extension_bounds"%string) by (intros ->; apply Hkey; by_elem).
  assert (H3 : key ≠ "extension_names"%string) by (intros ->; apply Hkey; by_elem).
  set (kw0 := <["extension_names" := _]> _).
  assert (H0 : kw0 !! key = kwargs !! key)
    by (unfold kw0; by rewrite !lookup_insert_ne).
  rewrite <-H0. clear H0. generalize kw0 content.
  induction (zip (extension_names self) (extension_bounds self))
    as [|[n [l r]] exts IH]; intros kw1 c1; simpl; [by intros [= _ <-]|].
  unfold extension_while.
  destruct (extension_loop _ _ _ _ _ _) as [[c2 kw2]|] eqn:E; simpl; [|done].
  intros H%IH. rewrite H.
  rewrite (extension_loop_other_keys _ _ _ _ _ _ _ _ _ H1 H3 E).
  unfold kw_append_bounds. by rewrite lookup_alter_ne.
Qed.

(** What pair detection returns, read from its result. *)
Lemma detect_pairs_inv (notes : list Note) (content : str) (kwargs kw : Kwargs) :
  _detect_pairs self notes content kwargs = Ok kw →
  kw = kwargs ∨
  ∃ sep t d,
    separator self = Some sep ∧ contains sep content = true ∧
    (Some t ∉ Note.term <$> pairs notes) ∧ d ≠ [] ∧
    kw = <["separator" := VStr sep]>
           (<["definition" := VStr d]> (<["term" := VStr t]> kwargs)).
Proof.
  unfold _detect_pairs.
  destruct (separator self) as [sep|]; [|intros [= <-]; by left].
  destruct (contains sep content) eqn:Hin; [|intros [= <-]; by left].
  destruct (py_split sep content) as [parts|]; simpl; [|done].
  case_bool_decide; [done|].
  destruct (getitem parts 0) as [t|]; simpl; [|done].
  case_bool_decide as Hdup; [done|].
  destruct (getitem parts 1) as [d|]; simpl; [|done].
  case_bool_decide as Hd; [done|].
  intros [= <-]. right. by exists sep, (strip t), (strip d).
Qed.

Lemma made_kwargs (notes : list Note) (content : str) (nindex : Z) (note : Note) :
  _make_note self notes content nindex = Ok note →
  ∃ c1 kw1 c3 kw3 kw4,
    _detect_headings self notes content nindex ∅ = Ok (c1, kw1) ∧
    _detect_extensions self (_detect_categories self c1 kw1).1
                            (_detect_categories self c1 kw1).2 = Ok (c3, kw3) ∧
    _detect_pairs self notes c3 kw3 = Ok kw4 ∧
    Note.nindex note = nindex ∧
    Note.begin_nindex note = kw_int (Note.kwargs note) "begin_nindex" ∧
    ∀ key, key ≠ "heading_name"%string → Note.kwargs note !! key = kw4 !! key.
Proof.
  unfold _make_note.
  destruct (_detect_headings _ _ _ _ _) as [[c1 kw1]|]; simpl; [|done].
  destruct (_detect_categories self c1 kw1) as [c2 kw2] eqn:E2.
  destruct (_detect_extensions _ _ _) as [[c3 kw3]|] eqn:E3; simpl; [|done].
  destruct (_detect_pairs _ _ _ _) as [kw4|] eqn:E4; simpl; [|done].
  intros [= <-]. exists c1, kw1, c3, kw3, kw4.
  split; [done|]. split; [by rewrite E2|]. split; [done|]. split; [done|]. split; [done|].
  intros key Hkey. simpl.
  destruct (kw_str kw4 "heading_name") as [[|]|]; try done.
  by rewrite lookup_insert_ne.
Qed.

(** The keys of a pair come from pair detection, on the content that the
    three steps before it have left. *)
Lemma made_pair (notes : list Note) (content : str) (nindex : Z) (note : Note) :
  _make_note self notes content nindex = Ok note →
  Note.is_pair note = true →
  ∃ t d, Note.term note = Some t ∧ Note.definition note = Some d ∧ d ≠ [] ∧
         Some t ∉ (Note.term <$> pairs notes).
Proof.
  intros (c1 & kw1 & c3 & kw3 & kw4 & H1 & H3 & H4 & _ & _ & Hkeys)%made_kwargs
         Hpair.
  assert (Hterm : kw3 !! "term" = None).
  { rewrite (detect_extensions_other_keys _ _ _ _ "term" ltac:(not_elem) H3).
    rewrite detect_categories_other_keys by done.
    by rewrite (detect_headings_other_keys _ _ _ _ _ _ "term" ltac:(not_elem) H1). }
  unfold Note.is_pair, Note.term, Note.definition, kw_str in *.
  rewrite !Hkeys by done. rewrite Hkeys in Hpair by done.
  destruct (detect_pairs_inv _ _ _ _ H4) as [->|(sep & t & d & _ & _ & Hdup & Hd & ->)].
  - rewrite Hterm in Hpair. apply bool_decide_eq_true in Hpair. by destruct Hpair.
  - exists t, d.
    rewrite !(lookup_insert_ne _ "separator") by done.
    rewrite lookup_insert_eq, lookup_insert_ne, lookup_insert_eq by done. done.
Qed.

(** X7.  A pair that [_make_note] makes has a non-empty definition and a
    term that no pair of the store has. *)
Theorem make_note_pair_fresh (notes : list Note) (content : str) (nindex : Z)
    (note : Note) :
  _make_note self notes content nindex = Ok note →
  Note.is_pair note = true →
  ∃ t d, Note.term note = Some t ∧ Note.definition note = Some d ∧ d ≠ [] ∧
         Some t ∉ (Note.term <$> pairs notes).
Proof. apply made_pair. Qed.

Lemma detect_headings_level (notes : list Note) (content c : str) (nindex : Z)
    (kw : Kwargs) (l : Z) :
  _detect_headings self notes content nindex ∅ = Ok (c, kw) →
  kw !! "level" = Some (VInt l) →
  kw !! "begin_nindex" = Some (VInt (nindex + 1)%Z) ∧
  is_Some (getitem (level_names self) (l - 1)) ∧
  (l - previous_level notes ≤ 1)%Z.
Proof.
  unfold _detect_headings. fold (previous_level notes).
  destruct (heading_char self) as [hc|]; [|by intros [= _ <-]].
  destruct (startswith content hc); [|by intros [= _ <-]].
  destruct (getitem _ _) as [level_name|] eqn:Hg; simpl; [|done].
  destruct (Z.gtb_spec (count hc content 0 (levels self) - previous_level notes) 1);
    [done|].
  case_bool_decide; [done|]. intros [= _ <-].
  rewrite lookup_insert_eq.
  rewrite !(lookup_insert_ne _ _ "level") by done. rewrite lookup_insert_eq.
  intros [= <-]. rewrite Hg. by repeat split.
Qed.

Lemma made_heading (notes : list Note) (content : str) (nindex : Z) (note : Note) :
  _make_note self notes content nindex = Ok note →
  Note.is_heading note = true →
  Note.nindex note = nindex ∧
  Note.begin_nindex note = Some (nindex + 1)%Z ∧
  is_Some (getitem (level_names self) (Note.level_of note - 1)) ∧
  (Note.level_of note - previous_level notes ≤ 1)%Z.
Proof.
  intros (c1 & kw1 & c3 & kw3 & kw4 & H1 & H3 & H4 & Hn & Hb & Hkeys)%made_kwargs
         Hh.
  assert (Hother : ∀ key,
            key ∉ ["extensions"; "extension_bounds"; "extension_names";
                   "category_names"; "category_prefixes";
                   "term"; "definition"; "separator"]%string →
            kw4 !! key = kw1 !! key).
  { intros key Hkey.
    assert (kw3 !! key = kw1 !! key) as <-.
    { transitivity ((_detect_categories self c1 kw1).2 !! key).
      - eapply detect_extensions_other_keys; [|exact H3].
        intros Hin. apply Hkey.
        repeat (apply elem_of_cons in Hin as [->|Hin]; [by_elem|]).
        by apply elem_of_nil in Hin.
      - apply detect_categories_other_keys; intros ->; apply Hkey; by_elem. }
    destruct (detect_pairs_inv _ _ _ _ H4) as [->|(sep & t & d & _ & _ & _ & _ & ->)];
      [done|].
    rewrite !lookup_insert_ne; [done|..]; intros <-; apply Hkey; by_elem. }
  unfold Note.is_heading, Note.level_of, Note.level, kw_int in *.
  rewrite Hb. unfold kw_int. rewrite !Hkeys by done.
  rewrite Hkeys in Hh by done.
  rewrite !Hother by not_elem. rewrite Hother in Hh by not_elem.
  apply bool_decide_eq_true in Hh as [l Hl].
  destruct (kw1 !! "level") as [[| l' | | |]|] eqn:E; try done.
  destruct (detect_headings_level _ _ _ _ _ l' H1 E) as (Hbegin & Hname & Hstep).
  rewrite Hbegin. simpl. done.
Qed.

(** X8.  A heading that [_make_note] makes carries the position it was made
    for as its [nindex], begins its range at the next position, has a level
    for which there is a level name, and is at most one level deeper than
    the last heading of the store. *)
Theorem make_note_heading_fields (notes : list Note) (content : str) (nindex : Z)
    (note : Note) :
  _make_note self notes content nindex = Ok note →
  Note.is_heading note = true →
  Note.nindex note = nindex ∧
  Note.begin_nindex note = Some (nindex + 1)%Z ∧
  is_Some (getitem (level_names self) (Note.level_of note - 1)) ∧
  (Note.level_of note - previous_level notes ≤ 1)%Z.
Proof. apply made_heading. Qed.

End made_note.

Lemma make_note_pair_fresh_witness :
  let notes := Examples.parse Examples.book Examples.book_doc in
  let note := returned (_make_note Examples.book notes (lit "new:: thing") 4) in
  _make_note Examples.book notes (lit "new:: thing") 4 = Ok note ∧
  Note.is_pair note = true ∧
  ∃ t d, Note.term note = Some t ∧ Note.definition note = Some d ∧ d ≠ [] ∧
         Some t ∉ (Note.term <$> pairs notes).
Proof.
  intros notes note.
  assert (H1 : _make_note Examples.book notes (lit "new:: thing") 4 = Ok note)
    by by_compute.
  assert (H2 : Note.is_pair note = true) by by_compute.
  split; [exact H1|]. split; [exact H2|].
  exact (make_note_pair_fresh Examples.book notes (lit "new:: thing") 4 note H1 H2).
Defined.

Lemma make_note_heading_fields_witness :
  let notes := Examples.parse Examples.book Examples.book_doc in
  let note := returned (_make_note Examples.book notes (lit "## New") 4) in
  _make_note Examples.book notes (lit "## New") 4 = Ok note ∧
  Note.is_heading note = true ∧
  Note.nindex note = 4%Z ∧
  Note.begin_nindex note = Some (4 + 1)%Z ∧
  is_Some (getitem (level_names Examples.book) (Note.level_of note - 1)) ∧
  (Note.level_of note - previous_level notes ≤ 1)%Z.
Proof.
  intros notes note.
  assert (H1 : _make_note Examples.book notes (lit "## New") 4 = Ok note)
    by by_compute.
  assert (H2 : Note.is_heading note = true) by by_compute.
  split; [exact H1|]. split; [exact H2|].
  exact (make_note_heading_fields Examples.book notes (lit "## New") 4 note H1 H2).
Defined.

(** ** Invariants of the store under [make_note], [insert] and [delete] *)

Section store_invariants.

Variable self : Config.
Variable next_heading : list Note → Note → option Note.
Variable previous_heading : list Note → nat → option nat.

(** The resolver and the adjustment of the previous heading leave every
    field but [end_nindex] as it is. *)
Lemma for_each_frame {A B} (f : Note → B)
    (body : A → list Note → Result unit * list Note)
    (l : list A) (notes notes' : list Note) (r : Result unit) :
  (∀ x n r' n', body x n = (r', n') → f <$> n' = f <$> n) →
  for_each body l notes = (r, notes') → f <$> notes' = f <$> notes.
Proof.
  intros Hbody. revert notes. induction l as [|x l IH]; intros notes; simpl.
  - by intros [= <- <-].
  - destruct (body x notes) as [[[]|e] n1] eqn:E.
    + intros H. rewrite (IH _ H). by eapply Hbody.
    + intros [= <- <-]. by eapply Hbody.
Qed.

Lemma complete_headings_frame {B} (f : Note → B) (notes notes' : list Note)
    (r : Result unit) :
  (∀ v n, f (Note.set_end_nindex v n) = f n) →
  _complete_headings self notes = (r, notes') → f <$> notes' = f <$> notes.
Proof.
  intros Hf. unfold _complete_headings.
  destruct (heading_char self); [|by intros [= <- <-]].
  destruct (level_order self notes) as [lo|e]; [|by intros [= <- <-]].
  apply for_each_frame. intros headings n r' n'.
  apply for_each_frame. intros [i heading] n0 r0 n0'.
  destruct (end_nindex_for _ _ _ _ _); intros [= <- <-]; [|done].
  by apply fmap_alter_invariant.
Qed.

Lemma adjust_previous_heading_frame {B} (f : Note → B) (d : Z) (p : nat)
    (notes : list Note) :
  (∀ v n, f (Note.set_end_nindex v n) = f n) →
  f <$> adjust_previous_heading previous_heading d p notes = f <$> notes.
Proof.
  intros Hf. unfold adjust_previous_heading.
  destruct (previous_heading notes p); [|done].
  destruct (_ ≫= _); [|done]. by apply fmap_alter_invariant.
Qed.

Lemma begins_behind_frame (a b : list Note) :
  frame <$> a = frame <$> b → Forall begins_behind a → Forall begins_behind b.
Proof.
  intros H%fmap_eq_Forall2 Ha. induction H as [|x y a b Hxy _ IH]; [done|].
  apply Forall_cons in Ha as [Hx Ha]. constructor; [|by apply IH].
  unfold begins_behind, frame, Note.is_heading, Note.level in *.
  injection Hxy as <- <- <-. done.
Qed.

Lemma headings_begin_iff (notes : list Note) :
  headings_begin notes ↔ Forall begins_behind notes.
Proof.
  split.
  - intros H. apply Forall_forall. intros n [p Hp]%list_elem_of_lookup_1.
    intros Hn. by eapply H.
  - apply headings_begin_Forall.
Qed.

(** The outcome of [insert] and [delete] when the position is in range. *)
Lemma insert_in_range (note : Note) (nindex : Z) (notes : list Note) :
  (0 ≤ nindex ≤ Z.of_nat (length notes))%Z →
  insert self previous_heading note nindex notes
  = _complete_headings self
      (let notes1 := adjust_previous_heading previous_heading 1 (Z.to_nat nindex)
                       (list_insert notes nindex note) in
       take (Z.to_nat nindex + 1) notes1
       ++ ((λ n, let n := Note.set_nindex (Note.nindex n + 1)%Z n in
                 if Note.is_heading n
                 then Note.set_begin_nindex (Some (Note.nindex n + 1)%Z) n
                 else n) <$> drop (Z.to_nat nindex + 1) notes1)).
Proof.
  intros Hi. unfold insert.
  destruct (Z.leb_spec 0 nindex); [|lia].
  destruct (Z.leb_spec nindex (Z.of_nat (length notes))); [|lia]. simpl.
  by rewrite foldl_alter_range.
Qed.

Lemma delete_in_range (nindex : Z) (notes : list Note) :
  (0 ≤ nindex < Z.of_nat (length notes))%Z →
  delete self previous_heading nindex notes
  = _complete_headings self
      (let notes1 := base.delete (Z.to_nat nindex)
                       (adjust_previous_heading previous_heading (-1)
                          (Z.to_nat nindex) notes) in
       take (Z.to_nat nindex) notes1
       ++ ((λ note, let note := Note.set_nindex (Note.nindex note - 1)%Z note in
                    if Note.is_heading note
                    then Note.set_begin_nindex
                           ((λ b, (b - 1)%Z) <$> Note.begin_nindex note) note
                    else note) <$> drop (Z.to_nat nindex) notes1)).
Proof.
  intros Hi. unfold delete.
  destruct (Z.leb_spec 0 nindex); [|lia].
  destruct (Z.ltb_spec nindex (Z.of_nat (length notes))); [|lia]. simpl.
  by rewrite foldl_alter_range.
Qed.

Lemma frame_set_end (v : option Z) (n : Note) : frame (Note.set_end_nindex v n) = frame n.
Proof. done. Qed.

(** X9.  [insert] of a Note that, if it is a heading, begins its range
    behind itself (as [_make_note] makes it) into a store in which every
    heading does, gives a store in which every heading does. *)
Theorem insert_headings_begin (note : Note) (nindex : Z) (notes notes' : list Note)
    (r : Result unit) :
  headings_begin notes → begins_behind note →
  insert self previous_heading note nindex notes = (r, notes') →
  headings_begin notes'.
Proof.
  rewrite !headings_begin_iff. intros Hnotes Hnote.
  destruct (decide (0 ≤ nindex ≤ Z.of_nat (length notes))%Z) as [Hi|Hi].
  - rewrite insert_in_range by done. simpl.
    intros H%(complete_headings_frame frame); [|done].
    apply (begins_behind_frame _ _ (eq_sym H)).
    assert (H1 : Forall begins_behind
                   (adjust_previous_heading previous_heading 1 (Z.to_nat nindex)
                      (list_insert notes nindex note))).
    { eapply begins_behind_frame;
        [symmetry; by apply adjust_previous_heading_frame|].
      unfold list_insert. apply Forall_app. split; [by apply Forall_take|].
      constructor; [done|by apply Forall_drop]. }
    apply Forall_app. split; [by apply Forall_take|].
    apply Forall_fmap, Forall_forall. intros n _. unfold begins_behind. simpl.
    destruct (Note.is_heading (Note.set_nindex _ n)) eqn:E; [done|].
    intros Hn. unfold Note.is_heading, Note.level in *. simpl in *. congruence.
  - unfold insert.
    destruct (negb _) eqn:E; [by intros [= _ <-]|].
    apply negb_false_iff, andb_true_iff in E as [?%Z.leb_le ?%Z.leb_le]. lia.
Qed.

(** X10.  [delete] from a store in which every heading begins its range
    behind itself gives a store in which every heading does. *)
Theorem delete_headings_begin (nindex : Z) (notes notes' : list Note)
    (r : Result unit) :
  headings_begin notes →
  delete self previous_heading nindex notes = (r, notes') →
  headings_begin notes'.
Proof.
  rewrite !headings_begin_iff. intros Hnotes.
  destruct (decide (0 ≤ nindex < Z.of_nat (length notes))%Z) as [Hi|Hi].
  - rewrite delete_in_range by done. simpl.
    intros H%(complete_headings_frame frame); [|done].
    apply (begins_behind_frame _ _ (eq_sym H)).
    assert (H1 : Forall begins_behind
                   (base.delete (Z.to_nat nindex)
                      (adjust_previous_heading previous_heading (-1)
                         (Z.to_nat nindex) notes))).
    { rewrite delete_take_drop. apply Forall_app.
      assert (Forall begins_behind
                (adjust_previous_heading previous_heading (-1) (Z.to_nat nindex) notes))
        by (eapply begins_behind_frame;
            [symmetry; by apply adjust_previous_heading_frame|done]).
      split; [by apply Forall_take|by apply Forall_drop]. }
    apply Forall_app. split; [by apply Forall_take|].
    apply Forall_fmap. eapply Forall_impl; [by apply Forall_drop|].
    intros n Hn. unfold begins_behind in *. simpl.
    destruct (Note.is_heading (Note.set_nindex _ n)) eqn:E; [|congruence].
    intros _. assert (Hh : Note.is_heading n = true) by exact E.
    simpl. rewrite (Hn Hh). simpl. f_equal. lia.
  - unfold delete.
    destruct (negb _) eqn:E; [by intros [= _ <-]|].
    apply negb_false_iff, andb_true_iff in E as [?%Z.leb_le ?%Z.ltb_lt]. lia.
Qed.

End store_invariants.

Lemma insert_headings_begin_witness :
  let notes := Examples.chapters in
  let note := returned (_make_note Examples.book notes (lit "## E") 2) in
  let run := insert Examples.book Examples.no_heading_before note 2 notes in
  headings_begin notes ∧ begins_behind note ∧
  Note.is_heading note = true ∧
  run = (run.1, run.2) ∧ headings_begin run.2.
Proof.
  intros notes note run.
  assert (H1 : headings_begin notes)
    by (apply headings_begin_Forall, (bool_decide_eq_true_1 _); by_compute).
  assert (H2 : begins_behind note) by (intros _; by_compute).
  assert (H3 : run = (run.1, run.2)) by apply surjective_pairing.
  split; [exact H1|]. split; [exact H2|]. split; [by_compute|].
  split; [exact H3|].
  exact (insert_headings_begin Examples.book Examples.no_heading_before
           note 2 notes run.2 run.1 H1 H2 H3).
Defined.

Lemma delete_headings_begin_witness :
  let notes := Examples.chapters in
  let run := delete Examples.book Examples.no_heading_before 2 notes in
  headings_begin notes ∧ run = (run.1, run.2) ∧ headings_begin run.2.
Proof.
  intros notes run.
  assert (H1 : headings_begin notes)
    by (apply headings_begin_Forall, (bool_decide_eq_true_1 _); by_compute).
  assert (H3 : run = (run.1, run.2)) by apply surjective_pairing.
  split; [exact H1|]. split; [exact H3|].
  exact (delete_headings_begin Examples.book Examples.no_heading_before
           2 notes run.2 run.1 H1 H3).
Defined.

(** ** Errors and outcomes of [insert], [delete] and [make_note] *)

Section outcomes.

Variable self : Config.
Variable next_heading : list Note → Note → option Note.
Variable previous_heading : list Note → nat → option nat.

(** What [_complete_headings] raises is an [IndexError] of the lookup of a
    level name or the [ValueError] of [list.index]. *)
Lemma complete_headings_raise_kind (notes notes' : list Note) (e : exn) :
  _complete_headings self notes = (Raise e, notes') →
  e = IndexError ∨ e = ValueError.
Proof.
  unfold _complete_headings. destruct (heading_char self); [|done].
  destruct (level_order self notes) as [lo|e'] eqn:E.
  - apply (for_each_raise (λ e, e = IndexError ∨ e = ValueError)).
    intros headings n e' n'.
    apply (for_each_raise (λ e, e = IndexError ∨ e = ValueError)).
    intros [i heading] n0 e0 n0'.
    unfold end_nindex_for.
    destruct (list_index _ _); simpl; [done|]. intros [= <- <-]. by right.
  - intros [= <- <-]. revert E. unfold level_order.
    apply (foldM_raise (λ e, e = IndexError ∨ e = ValueError)). intros a x e0.
    destruct (getitem _ _); simpl; [done|]. intros [= <-]. by left.
Qed.

(** X11.  [insert] raises [NindexError] exactly when the position is
    outside [0 .. len(notes)], and then with the position in the error and
    the store as it was. *)
Theorem insert_index_error (note : Note) (nindex : Z) (notes : list Note) :
  (∀ z notes',
     insert self previous_heading note nindex notes = (Raise (NindexError z), notes')
     → ¬ (0 ≤ nindex ≤ Z.of_nat (length notes))%Z ∧ z = nindex ∧ notes' = notes) ∧
  (¬ (0 ≤ nindex ≤ Z.of_nat (length notes))%Z →
   insert self previous_heading note nindex notes
   = (Raise (NindexError nindex), notes)).
Proof.
  unfold insert. split.
  - intros z notes'. destruct (negb _) eqn:E.
    + intros [= <- <-]. split; [|done].
      apply negb_true_iff, andb_false_iff in E as [?%Z.leb_gt|?%Z.leb_gt]; lia.
    + by intros [|]%complete_headings_raise_kind.
  - intros Hi. destruct (negb _) eqn:E; [done|].
    apply negb_false_iff, andb_true_iff in E as [?%Z.leb_le ?%Z.leb_le]. lia.
Qed.

(** X12.  [delete] raises [NindexError] exactly when the position is
    outside [0 .. len(notes) - 1], and then with the position in the error
    and the store as it was. *)
Theorem delete_index_error (nindex : Z) (notes : list Note) :
  (∀ z notes',
     delete self previous_heading nindex notes = (Raise (NindexError z), notes')
     → ¬ (0 ≤ nindex < Z.of_nat (length notes))%Z ∧ z = nindex ∧ notes' = notes) ∧
  (¬ (0 ≤ nindex < Z.of_nat (length notes))%Z →
   delete self previous_heading nindex notes
   = (Raise (NindexError nindex), notes)).
Proof.
  unfold delete. split.
  - intros z notes'. destruct (negb _) eqn:E.
    + intros [= <- <-]. split; [|done].
      apply negb_true_iff, andb_false_iff in E as [?%Z.leb_gt|?%Z.ltb_ge]; lia.
    + by intros [|]%complete_headings_raise_kind.
  - intros Hi. destruct (negb _) eqn:E; [done|].
    apply negb_false_iff, andb_true_iff in E as [?%Z.leb_le ?%Z.ltb_lt]. lia.
Qed.

Lemma insert_Ok_in_range (note : Note) (nindex : Z) (notes notes' : list Note) :
  insert self previous_heading note nindex notes = (Ok (), notes') →
  (0 ≤ nindex ≤ Z.of_nat (length notes))%Z.
Proof.
  unfold insert. destruct (negb _) eqn:E; [done|]. intros _.
  apply negb_false_iff, andb_true_iff in E as [?%Z.leb_le ?%Z.leb_le]. lia.
Qed.

(** The steps of a [make_note] that returns a Note. *)
Lemma make_note_Ok_inv (content : str) (nindex : Z) (notes notes' : list Note)
    (note : Note) :
  make_note self next_heading previous_heading content nindex notes = (Ok note, notes') →
  ∃ made e,
    _make_note self notes content nindex = Ok made ∧
    insert self previous_heading (Note.set_end_nindex e made) nindex notes
      = (Ok (), notes') ∧
    note = default (Note.set_end_nindex e made) (notes' !! Z.to_nat nindex).
Proof.
  unfold make_note.
  destruct (_make_note self notes content nindex) as [made|e0] eqn:Hmake; [|done].
  match goal with |- context [insert _ _ (Note.set_end_nindex ?e made)] =>
    set (end_ := e) end.
  destruct (insert _ _ _ _ _) as [[[]|e1] n1] eqn:E; [|done].
  intros [= <- <-]. by exists made, end_.
Qed.

(** X13.  A [make_note] that returns a Note has put it into the store at
    the position asked for: the store has one Note more, the Note returned
    is the one at the position and has the position as its [nindex]; the
    Notes before the position are the ones from before it, those behind
    are the ones from there on with their [nindex] one greater; and if the
    [nindex] fields were the positions before, they are so afterwards. *)
Theorem make_note_inserts (content : str) (nindex : Z) (notes notes' : list Note)
    (note : Note) :
  make_note self next_heading previous_heading content nindex notes = (Ok note, notes') →
  (0 ≤ nindex ≤ Z.of_nat (length notes))%Z ∧
  length notes' = S (length notes) ∧
  notes' !! Z.to_nat nindex = Some note ∧
  Note.nindex note = nindex ∧
  core <$> notes'
  = take (Z.to_nat nindex) (core <$> notes) ++ core note
      :: (moved 1 <$> drop (Z.to_nat nindex) (core <$> notes)) ∧
  (consistent notes → consistent notes').
Proof.
  intros (made & e & Hmake & Hins & Hnote)%make_note_Ok_inv.
  pose proof (insert_Ok_in_range _ _ _ _ Hins) as Hi.
  pose proof (insert_core _ _ _ _ _ _ _ Hi Hins) as Hcore.
  pose proof (_make_note_nindex _ _ _ _ _ Hmake) as Hn.
  assert (Hk : length (take (Z.to_nat nindex) (core <$> notes)) = Z.to_nat nindex)
    by (rewrite length_take, length_fmap; lia).
  assert (Hlen : length notes' = S (length notes)).
  { apply (f_equal length) in Hcore.
    rewrite length_app, length_cons, !length_fmap, length_take, length_drop,
      length_fmap in Hcore. lia. }
  assert (Hat : (core <$> notes') !! Z.to_nat nindex
                = Some (core (Note.set_end_nindex e made))).
  { rewrite Hcore, lookup_app_r by lia. by rewrite Hk, Nat.sub_diag. }
  destruct (notes' !! Z.to_nat nindex) as [n|] eqn:E.
  2: { apply lookup_ge_None in E. lia. }
  simpl in Hnote. subst n.
  rewrite list_lookup_fmap, E in Hat. simpl in Hat. injection Hat as Hc Hkw Hni.
  split; [done|]. split; [done|]. split; [done|].
  split; [by rewrite Hni|].
  split.
  - rewrite Hcore. do 2 f_equal. unfold core. by rewrite Hc, Hkw, Hni.
  - intros Hcons.
    by apply (insert_consistent self previous_heading
                (Note.set_end_nindex e made) nindex notes notes' (Ok ())).
Qed.

Lemma terms_of_pairs (notes : list Note) :
  Note.term <$> pairs notes
  = List.filter (λ o, bool_decide (is_Some o)) (Note.term <$> notes).
Proof.
  unfold pairs. induction notes as [|n notes IH]; [done|].
  rewrite fmap_cons. cbn [List.filter]. unfold Note.is_pair at 1.
  destruct (bool_decide _); [rewrite fmap_cons|]; by rewrite IH.
Qed.

Lemma terms_of_core (notes : list Note) :
  Note.term <$> notes = (λ c, kw_str c.1.2 "term") <$> (core <$> notes).
Proof. by rewrite <-list_fmap_compose. Qed.

Lemma filter_app_list {A} (f : A → bool) (l k : list A) :
  List.filter f (l ++ k) = List.filter f l ++ List.filter f k.
Proof. induction l as [|x l IH]; simpl; [done|]. destruct (f x); simpl; by rewrite IH. Qed.

(** X14.  [make_note] keeps the terms of the pairs distinct: when no two
    pairs of the store have the same term and [make_note] returns a Note,
    no two pairs of the store have the same term afterwards. *)
Theorem make_note_terms_distinct (content : str) (nindex : Z)
    (notes notes' : list Note) (note : Note) :
  NoDup (Note.term <$> pairs notes) →
  make_note self next_heading previous_heading content nindex notes = (Ok note, notes') →
  NoDup (Note.term <$> pairs notes').
Proof.
  intros Hnd (made & e & Hmake & Hins & _)%make_note_Ok_inv.
  pose proof (insert_Ok_in_range _ _ _ _ Hins) as Hi.
  pose proof (insert_core _ _ _ _ _ _ _ Hi Hins) as Hcore.
  rewrite terms_of_pairs in *.
  assert (Hmoved : ∀ l : list (str * Kwargs * Z),
            (λ c, kw_str c.1.2 "term") <$> (moved 1 <$> l)
            = (λ c, kw_str c.1.2 "term") <$> l)
    by (intros l; by rewrite <-list_fmap_compose).
  rewrite (terms_of_core notes'), Hcore, fmap_app, fmap_cons, Hmoved.
  rewrite fmap_take, fmap_drop, <-!terms_of_core. clear Hmoved.
  set (T := Note.term <$> notes) in *. set (k := Z.to_nat nindex).
  rewrite <-(take_drop k T), filter_app_list in Hnd.
  rewrite filter_app_list. simpl.
  change (kw_str (Note.kwargs made) "term") with (Note.term made).
  destruct (bool_decide (is_Some (Note.term made))) eqn:E; [|done].
  assert (Hp : Note.is_pair made = true) by exact E.
  destruct (made_pair _ _ _ _ _ Hmake Hp) as (t & d & Ht & _ & _ & Hfresh).
  rewrite terms_of_pairs in Hfresh. fold T in Hfresh.
  rewrite <-(take_drop k T), filter_app_list in Hfresh.
  rewrite Ht. rewrite <-Permutation_middle. by apply NoDup_cons.
Qed.

End outcomes.

Lemma make_note_inserts_witness :
  let notes := Examples.chapters in
  let run := make_note Examples.book Examples.no_heading_next
               Examples.no_heading_before (lit "z") 2 notes in
  let note := returned run.1 in
  run = (Ok note, run.2) ∧
  (0 ≤ 2 ≤ Z.of_nat (length notes))%Z ∧
  length run.2 = S (length notes) ∧
  run.2 !! Z.to_nat 2 = Some note ∧
  Note.nindex note = 2%Z ∧
  core <$> run.2
  = take (Z.to_nat 2) (core <$> notes) ++ core note
      :: (moved 1 <$> drop (Z.to_nat 2) (core <$> notes)) ∧
  (consistent notes → consistent run.2).
Proof.
  intros notes run note.
  assert (H : run = (Ok note, run.2)) by (apply pair_eq_snd; by_compute).
  split; [exact H|].
  exact (make_note_inserts Examples.book Examples.no_heading_next
           Examples.no_heading_before (lit "z") 2 notes run.2 note H).
Defined.

Lemma make_note_terms_distinct_witness :
  let notes := Examples.parse Examples.book Examples.book_doc in
  let run := make_note Examples.book Examples.no_heading_next
               Examples.no_heading_before (lit "new:: thing") 4 notes in
  let note := returned run.1 in
  NoDup (Note.term <$> pairs notes) ∧
  run = (Ok note, run.2) ∧
  Note.is_pair note = true ∧
  NoDup (Note.term <$> pairs run.2).
Proof.
  intros notes run note.
  assert (H1 : NoDup (Note.term <$> pairs notes))
    by (apply (bool_decide_eq_true_1 _); by_compute).
  assert (H2 : run = (Ok note, run.2)) by (apply pair_eq_snd; by_compute).
  split; [exact H1|]. split; [exact H2|]. split; [by_compute|].
  exact (make_note_terms_distinct Examples.book Examples.no_heading_next
           Examples.no_heading_before (lit "new:: thing") 4 notes run.2 note H1 H2).
Defined.

(** ** The store that [_make_notes] builds *)

Section made_store.

Variable self : Config.

Lemma stepwise_snoc (prev : Z) (l : list (nat * Note)) (h : nat * Note) :
  stepwise prev l →
  (Note.level_of h.2
   - match last l with Some x => Note.level_of x.2 | None => prev end ≤ 1)%Z →
  stepwise prev (l ++ [h]).
Proof.
  revert prev. induction l as [|x l IH]; intros prev; simpl; [done|].
  intros [Hx Hl] Hh. split; [done|]. apply IH; [done|].
  destruct l as [|y l]; [done|].
  change (last (x :: y :: l)) with (last (y :: l)) in Hh.
  destruct (last (y :: l)) eqn:E; [done|].
  by apply last_None in E.
Qed.

Lemma stepwise_same (prev : Z) (l l' : list (nat * Note)) :
  Forall2 same_heading l l' → stepwise prev l → stepwise prev l'.
Proof.
  intros H. revert prev. induction H as [|x y l l' [_ Hxy] _ IH]; intros prev;
    simpl; [done|].
  rewrite (core_level_of _ _ Hxy). intros [? ?]. split; [done|by apply IH].
Qed.

Lemma heading_order_snoc (notes : list Note) (note : Note) :
  heading_order (notes ++ [note])
  = heading_order notes
    ++ (if Note.is_heading note then [(length notes, note)] else []).
Proof.
  unfold heading_order. rewrite enumerate_from_app. simpl.
  by rewrite filter_app_list.
Qed.

Lemma pairs_snoc (notes : list Note) (note : Note) :
  pairs (notes ++ [note])
  = pairs notes ++ (if Note.is_pair note then [note] else []).
Proof. unfold pairs. by rewrite filter_app_list. Qed.

(** One round of the loop of [_make_notes]. *)
Lemma made_from_step (j : nat) (notes : list Note) (errors : list exn)
    (content : str) :
  made_from self j notes errors →
  match _make_note self notes content (Z.of_nat j) with
  | Ok note => made_from self (S j) (notes ++ [note]) errors
  | Raise e => is_NoteError e = true → made_from self (S j) notes (errors ++ [e])
  end.
Proof.
  intros (Hlen & Hcons & Hpos & Hbegin & Hnamed & Hterms & Hsteps & Herr).
  destruct (_make_note self notes content (Z.of_nat j)) as [note|e] eqn:Hmake.
  - pose proof (_make_note_nindex _ _ _ _ _ Hmake) as Hn.
    repeat split.
    + rewrite length_app. simpl. lia.
    + intros ->. simpl in Hlen. rewrite Nat.add_0_r in Hlen. subst j.
      unfold consistent. rewrite fmap_app, length_app, seq_app, fmap_app.
      simpl. rewrite Hn. f_equal. by apply Hcons.
    + apply lookup_app_Some in H as [H|[Hge H]].
      * apply Hpos in H. lia.
      * apply list_lookup_singleton_Some in H as [Hp <-]. rewrite Hn. lia.
    + apply lookup_app_Some in H as [H|[Hge H]].
      * apply Hpos in H. lia.
      * apply list_lookup_singleton_Some in H as [Hp <-]. rewrite Hn. lia.
    + apply Forall_app. split; [done|]. constructor; [|done].
      intros Hh. destruct (made_heading _ _ _ _ _ Hmake Hh) as (-> & -> & _). done.
    + apply Forall_app. split; [done|]. constructor; [|done].
      intros Hh. by destruct (made_heading _ _ _ _ _ Hmake Hh) as (_ & _ & ? & _).
    + rewrite pairs_snoc, fmap_app.
      destruct (Note.is_pair note) eqn:Hp; simpl; [|by rewrite app_nil_r].
      destruct (made_pair _ _ _ _ _ Hmake Hp) as (t & d & Ht & _ & _ & Hfresh).
      rewrite Ht. apply NoDup_app. split; [done|]. split; [|apply NoDup_singleton].
      intros x Hx ->%list_elem_of_singleton. done.
    + unfold level_steps. rewrite heading_order_snoc.
      destruct (Note.is_heading note) eqn:Hh; [|by rewrite app_nil_r].
      apply stepwise_snoc; [done|].
      by destruct (made_heading _ _ _ _ _ Hmake Hh) as (_ & _ & _ & ?).
    + done.
  - intros He. repeat split; try done.
    + rewrite length_app. simpl. lia.
    + by intros [? ?]%app_eq_nil.
    + apply Hpos in H. lia.
    + apply Hpos in H. lia.
    + apply Forall_app. split; [done|]. by constructor.
Qed.

(** The whole loop, when it runs to its end. *)
Lemma made_from_loop (lines : list str) (j : nat) (notes notes' : list Note)
    (errors errors' : list exn) :
  made_from self j notes errors →
  make_notes_loop self (enumerate_from j lines) notes errors
  = (Ok (), (notes', errors')) →
  made_from self (j + length lines) notes' errors'.
Proof.
  revert j notes errors. induction lines as [|content lines IH];
    intros j notes errors Hinv; simpl.
  - intros [= <- <-]. by rewrite Nat.add_0_r.
  - pose proof (made_from_step j notes errors content Hinv) as Hstep.
    destruct (_make_note self notes content (Z.of_nat j)) as [note|e].
    + intros H%IH; [|done]. by rewrite Nat.add_succ_r.
    + destruct (is_NoteError e) eqn:He; [|done].
      intros H%IH; [|by apply Hstep]. by rewrite Nat.add_succ_r.
Qed.

(** The resolver keeps what the loop has established. *)
Lemma made_from_frame (j : nat) (a b : list Note) (errors : list exn) :
  core <$> a = core <$> b → frame <$> a = frame <$> b →
  made_from self j a errors → made_from self j b errors.
Proof.
  intros Hcore Hframe
         (Hlen & Hcons & Hpos & Hbegin & Hnamed & Hterms & Hsteps & Herr).
  assert (Hab : Forall2 (λ x y, core x = core y) a b) by (by apply fmap_eq_Forall2).
  repeat split.
  - by rewrite <-(Forall2_length _ _ _ Hab).
  - intros He. by eapply consistent_core; [|apply Hcons].
  - destruct (Forall2_lookup_r _ _ _ _ _ Hab H) as (m & Hm & Hmn).
    rewrite <-(core_nindex _ _ Hmn). apply Hpos in Hm. lia.
  - destruct (Forall2_lookup_r _ _ _ _ _ Hab H) as (m & Hm & Hmn).
    rewrite <-(core_nindex _ _ Hmn). apply Hpos in Hm. lia.
  - by eapply begins_behind_frame.
  - clear -Hab Hnamed. induction Hab as [|x y a b Hxy _ IH]; [done|].
    apply Forall_cons in Hnamed as [Hx Ha]. constructor; [|by apply IH].
    unfold named_level in *.
    by rewrite <-(core_is_heading _ _ Hxy), <-(core_level_of _ _ Hxy).
  - by rewrite terms_of_pairs, terms_of_core, <-Hcore, <-terms_of_core,
      <-terms_of_pairs.
  - unfold level_steps in *. eapply stepwise_same; [|done].
    by apply heading_order_same.
  - done.
Qed.

(** The outcome of [_make_notes] on the empty store of [__init__]. *)
Lemma make_notes_made_from (text : str) (errors : list exn) (notes : list Note) :
  _make_notes self text [] = (Ok errors, notes) →
  made_from self (length (_read_notes self text)) notes errors.
Proof.
  unfold _make_notes.
  destruct (make_notes_loop _ _ _ _) as [[[]|e] [notes0 errors0]] eqn:Hloop;
    [|done].
  apply (made_from_loop _ 0) in Hloop.
  2: { repeat split; try done. apply NoDup_nil_2. }
  destruct (_complete_headings self notes0) as [[[]|e] notes1] eqn:Hrun; [|done].
  intros [= <- <-].
  eapply made_from_frame; [| |exact Hloop].
  - symmetry. by eapply complete_headings_core.
  - symmetry. by eapply (complete_headings_frame _ frame).
Qed.

(** X15.  When [_make_notes] on the empty store collects no error, the
    store has one Note for each logical line of the text and the [nindex]
    fields are the positions. *)
Theorem make_notes_consistent (text : str) (notes : list Note) :
  _make_notes self text [] = (Ok [], notes) →
  length notes = length (_read_notes self text) ∧ consistent notes.
Proof.
  intros (Hlen & Hcons & _)%make_notes_made_from. simpl in Hlen.
  split; [lia|by apply Hcons].
Qed.

(** X16.  [_make_notes] leaves out the lines with an error but counts
    them: the Notes and the errors together are as many as the logical
    lines, every error collected is a NoteError, and the [nindex] of a
    Note is not less than its position in the store and less than the
    number of logical lines. *)
Theorem make_notes_counts_errors (text : str) (errors : list exn)
    (notes : list Note) :
  _make_notes self text [] = (Ok errors, notes) →
  length notes + length errors = length (_read_notes self text) ∧
  Forall (λ e, is_NoteError e = true) errors ∧
  ∀ p n, notes !! p = Some n →
         (Z.of_nat p ≤ Note.nindex n < Z.of_nat (length (_read_notes self text)))%Z.
Proof.
  intros (Hlen & _ & Hpos & _ & _ & _ & _ & Herr)%make_notes_made_from. done.
Qed.

(** X17.  In the store that [_make_notes] builds every heading begins its
    range behind itself and has a level with a name, and no heading is
    more than one level deeper than the heading before it, the first not
    deeper than level 1. *)
Theorem make_notes_headings (text : str) (errors : list exn) (notes : list Note) :
  _make_notes self text [] = (Ok errors, notes) →
  headings_begin notes ∧ Forall (named_level self) notes ∧ level_steps notes.
Proof.
  intros (_ & _ & _ & Hbegin & Hnamed & _ & Hsteps & _)%make_notes_made_from.
  by rewrite headings_begin_iff.
Qed.

(** X18.  In the store that [_make_notes] builds no two pairs have the
    same term. *)
Theorem make_notes_terms_distinct (text : str) (errors : list exn)
    (notes : list Note) :
  _make_notes self text [] = (Ok errors, notes) →
  NoDup (Note.term <$> pairs notes).
Proof. by intros (_ & _ & _ & _ & _ & Hterms & _)%make_notes_made_from. Qed.

End made_store.

Lemma make_notes_consistent_witness :
  let run := _make_notes Examples.book (Examples.lines Examples.book_doc) [] in
  run = (Ok [], run.2) ∧
  length run.2 = length (_read_notes Examples.book (Examples.lines Examples.book_doc)) ∧
  consistent run.2.
Proof.
  intros run.
  assert (H : run = (Ok [], run.2)) by (apply pair_eq_snd; by_compute).
  split; [exact H|].
  exact (make_notes_consistent Examples.book (Examples.lines Examples.book_doc)
           run.2 H).
Defined.

Lemma make_notes_counts_errors_witness :
  let text := Examples.lines ["# A"; "t:: d"; "t:: e"; "x"] in
  let run := _make_notes Examples.book text [] in
  run = (Ok [DuplicateTerm (lit "t")], run.2) ∧
  length run.2 + length [DuplicateTerm (lit "t")]
  = length (_read_notes Examples.book text) ∧
  Forall (λ e, is_NoteError e = true) [DuplicateTerm (lit "t")] ∧
  ∀ p n, run.2 !! p = Some n →
         (Z.of_nat p ≤ Note.nindex n
          < Z.of_nat (length (_read_notes Examples.book text)))%Z.
Proof.
  intros text run.
  assert (H : run = (Ok [DuplicateTerm (lit "t")], run.2))
    by (apply pair_eq_snd; by_compute).
  split; [exact H|].
  exact (make_notes_counts_errors Examples.book text [DuplicateTerm (lit "t")]
           run.2 H).
Defined.

Lemma make_notes_headings_witness :
  let text := Examples.lines ["# A"; "## B"; "x"; "## C"; "# D"; "y"] in
  let run := _make_notes Examples.book text [] in
  run = (Ok [], run.2) ∧
  headings_begin run.2 ∧ Forall (named_level Examples.book) run.2 ∧
  level_steps run.2.
Proof.
  intros text run.
  assert (H : run = (Ok [], run.2)) by (apply pair_eq_snd; by_compute).
  split; [exact H|].
  exact (make_notes_headings Examples.book text [] run.2 H).
Defined.

Lemma make_notes_terms_distinct_witness :
  let text := Examples.lines ["# A"; "t:: d"; "t:: e"; "u:: f"] in
  let run := _make_notes Examples.book text [] in
  run = (Ok [DuplicateTerm (lit "t")], run.2) ∧
  NoDup (Note.term <$> pairs run.2).
Proof.
  intros text run.
  assert (H : run = (Ok [DuplicateTerm (lit "t")], run.2))
    by (apply pair_eq_snd; by_compute).
  split; [exact H|].
  exact (make_notes_terms_distinct Examples.book text [DuplicateTerm (lit "t")]
           run.2 H).
Defined.

(** ** Under a well-formed configuration *)

Section well_formed.

Variable self : Config.
Hypothesis Hwf : well_formed self.

Lemma detect_headings_raise_wf (notes : list Note) (content : str) (nindex : Z)
    (kwargs : Kwargs) (e : exn) :
  _detect_headings self notes content nindex kwargs = Raise e →
  is_line_parse_error e = true.
Proof.
  destruct Hwf as (Hh & _ & _). unfold _detect_headings.
  destruct (heading_char self) as [hc|]; [|done].
  destruct Hh as ([c ->] & HL & H1).
  destruct (startswith content [c]) eqn:Hs; [|done].
  pose proof (count_marker_bounds c content (levels self) Hs ltac:(lia)) as Hb.
  set (level := count [c] content 0 (levels self)) in *.
  assert (Hg : is_Some (getitem (level_names self) (level - 1))).
  { unfold getitem. destruct (Z.ltb_spec (level - 1) 0); [lia|].
    apply lookup_lt_is_Some. lia. }
  destruct Hg as [level_name ->]. simpl.
  destruct (_ >? 1)%Z; [by intros [= <-]|].
  case_bool_decide; [by intros [= <-]|done].
Qed.

Lemma detect_extensions_raise_wf (content : str) (kwargs : Kwargs) (e : exn) :
  _detect_extensions self content kwargs = Raise e →
  is_line_parse_error e = true.
Proof.
  destruct Hwf as (_ & _ & Hb). unfold _detect_extensions.
  generalize (<["extension_names" := VList []]>
                (<["extension_bounds" := VBounds []]>
                   (<["extensions" := VExtensions []]> kwargs))).
  revert content. revert Hb. generalize (extension_bounds self) as bounds.
  induction (extension_names self) as [|name names IH];
    intros [|[lbound rbound] bounds] Hb content kw; simpl; try done.
  apply Forall_cons in Hb as [[Hl Hr] Hb]. simpl in Hl, Hr.
  pose proof (extension_loop_outcome name lbound rbound (S (length content))
                content (kw_append_bounds "extension_bounds" (lbound, rbound) kw)
                Hl Hr ltac:(lia)) as H.
  unfold extension_while.
  destruct (extension_loop _ _ _ _ _ _) as [[c k]|e'] eqn:E; simpl.
  - by apply IH.
  - destruct H as (c & -> & _). by intros [= <-].
Qed.

Lemma detect_pairs_raise_wf (notes : list Note) (content : str) (kwargs : Kwargs)
    (e : exn) :
  _detect_pairs self notes content kwargs = Raise e →
  is_line_parse_error e = true.
Proof.
  destruct Hwf as (_ & Hsep & _).
  destruct (separator self) as [sep|] eqn:Es; [|by unfold _detect_pairs; rewrite Es].
  assert (Hne : sep ≠ []) by (by intros ->).
  destruct (contains sep content) eqn:Hin;
    [|by unfold _detect_pairs; rewrite Es, Hin].
  destruct (split_contains sep content Hne Hin) as (i & right & rest & _ & E).
  unfold _detect_pairs. rewrite Es, Hin.
  unfold py_split. destruct sep as [|c sep]; [done|]. simpl.
  rewrite E. simpl. repeat case_bool_decide; by intros [= <-].
Qed.

Lemma make_note_raise_wf (notes : list Note) (content : str)
    (nindex : Z) (e : exn) :
  _make_note self notes content nindex = Raise e →
  is_line_parse_error e = true.
Proof.
  unfold _make_note.
  destruct (_detect_headings _ _ _ _ _) as [[c1 kw1]|e1] eqn:E1; simpl.
  2: { intros [= <-]. by eapply detect_headings_raise_wf. }
  destruct (_detect_categories self c1 kw1) as [c2 kw2].
  destruct (_detect_extensions _ _ _) as [[c3 kw3]|e3] eqn:E3; simpl.
  2: { intros [= <-]. by eapply detect_extensions_raise_wf. }
  destruct (_detect_pairs _ _ _ _) as [kw4|e4] eqn:E4; simpl; [done|].
  intros [= <-]. by eapply detect_pairs_raise_wf.
Qed.

(** X19.  Under a well-formed configuration [_make_note] raises nothing
    but the six errors of the line grammar. *)
Theorem make_note_raises_parse_errors (notes : list Note) (content : str)
    (nindex : Z) (e : exn) :
  _make_note self notes content nindex = Raise e →
  is_line_parse_error e = true.
Proof. apply make_note_raise_wf. Qed.

(** The level of a heading that [_make_note] makes is the one that heading
    detection has computed. *)
Lemma made_heading_level (notes : list Note) (content : str) (nindex : Z)
    (note : Note) :
  _make_note self notes content nindex = Ok note →
  Note.is_heading note = true →
  ∃ c1 kw1,
    _detect_headings self notes content nindex ∅ = Ok (c1, kw1) ∧
    kw1 !! "level" = Some (VInt (Note.level_of note)).
Proof.
  intros (c1 & kw1 & c3 & kw3 & kw4 & H1 & H3 & H4 & _ & _ & Hkeys)%made_kwargs
         Hh.
  exists c1, kw1. split; [done|].
  assert (Hl : kw4 !! "level" = kw1 !! "level").
  { assert (kw3 !! "level" = kw1 !! "level") as <-.
    { rewrite (detect_extensions_other_keys _ _ _ _ _ "level" ltac:(not_elem) H3).
      by apply detect_categories_other_keys. }
    destruct (detect_pairs_inv _ _ _ _ _ H4)
      as [->|(sep & t & d & _ & _ & _ & _ & ->)]; [done|].
    by rewrite !lookup_insert_ne. }
  unfold Note.is_heading, Note.level_of, Note.level, kw_int in *.
  rewrite Hkeys in Hh by done. rewrite Hkeys by done. rewrite Hl in *.
  apply bool_decide_eq_true in Hh as [l Hl'].
  by destruct (kw1 !! "level") as [[| l' | | |]|].
Qed.

Lemma made_heading_valid (notes : list Note) (content : str) (nindex : Z)
    (note : Note) :
  _make_note self notes content nindex = Ok note →
  Note.is_heading note = true →
  is_Some (heading_char self) ∧
  (1 ≤ Note.level_of note ≤ Z.of_nat (length (level_names self)))%Z.
Proof.
  intros Hmake Hh.
  destruct (made_heading_level _ _ _ _ Hmake Hh) as (c1 & kw1 & H1 & Hl).
  revert H1 Hl. destruct Hwf as (Hhc & _ & _). unfold _detect_headings.
  destruct (heading_char self) as [hc|]; [|by intros [= _ <-]].
  destruct Hhc as ([c ->] & HL & Hn).
  destruct (startswith content [c]) eqn:Hs; [|by intros [= _ <-]].
  pose proof (count_marker_bounds c content (levels self) Hs ltac:(lia)) as Hb.
  destruct (getitem _ _); simpl; [|done].
  destruct (_ >? 1)%Z; [done|]. case_bool_decide; [done|]. intros [= _ <-].
  rewrite lookup_insert_ne by done.
  rewrite !(lookup_insert_ne _ _ "level") by done. rewrite lookup_insert_eq.
  intros [= <-]. split; [done|]. unfold count in Hb. lia.
Qed.

(** The loop of [_make_notes] runs to its end, and every heading it makes
    has its level among the named ones. *)
Lemma make_notes_loop_wf (lines : list str) (j : nat) (notes : list Note)
    (errors : list exn) :
  Forall (λ n, Note.is_heading n = true →
               is_Some (heading_char self) ∧
               (1 ≤ Note.level_of n ≤ Z.of_nat (length (level_names self)))%Z)
         notes →
  ∃ notes' errors',
    make_notes_loop self (enumerate_from j lines) notes errors
    = (Ok (), (notes', errors')) ∧
    Forall (λ n, Note.is_heading n = true →
                 is_Some (heading_char self) ∧
                 (1 ≤ Note.level_of n ≤ Z.of_nat (length (level_names self)))%Z)
           notes'.
Proof.
  revert j notes errors. induction lines as [|content lines IH];
    intros j notes errors Hv; simpl; [by exists notes, errors|].
  destruct (_make_note self notes content (Z.of_nat j)) as [note|e] eqn:Hmake;
    simpl.
  - apply IH. apply Forall_app. split; [done|]. constructor; [|done].
    by eapply made_heading_valid.
  - apply make_note_raise_wf, line_parse_error_is_NoteError in Hmake.
    rewrite Hmake. simpl. by apply IH.
Qed.

Hypothesis Hnames : NoDup (level_names self).

(** [_make_notes] on the empty store: the loop, then the resolver. *)
Lemma make_notes_run (text : str) :
  ∃ notes0 errors ps,
    valid_levels self notes0 ∧
    (∀ p n, notes0 !! p = Some n → Note.is_heading n = true → p ∈ ps) ∧
    made_from self (length (_read_notes self text)) notes0 errors ∧
    _make_notes self text []
      = (Ok errors, assign_ends (resolved_end notes0) ps notes0).
Proof.
  destruct (make_notes_loop_wf (_read_notes self text) 0 [] [])
    as (notes0 & errors & Hloop & Hv); [done|].
  assert (Hinv : made_from self (length (_read_notes self text)) notes0 errors).
  { apply (made_from_loop self _ 0 [] notes0 [] errors); [|done].
    repeat split; try done. apply NoDup_nil_2. }
  assert (Hvalid : valid_levels self notes0).
  { apply valid_levels_Forall. eapply Forall_impl; [exact Hv|].
    intros n Hn Hh. by apply Hn. }
  destruct (heading_char self) as [hc|] eqn:Ehc.
  - destruct (complete_headings_resolved self notes0) as (ps & Hrun & Hps);
      [by rewrite Ehc|done|done|].
    exists notes0, errors, ps.
    split; [done|]. split; [done|]. split; [done|].
    unfold _make_notes. by rewrite Hloop, Hrun.
  - exists notes0, errors, [].
    split; [done|]. split; [|split; [done|]].
    + intros p n Hp Hn. rewrite Forall_forall in Hv.
      destruct (Hv n (list_elem_of_lookup_2 _ _ _ Hp) Hn) as [[? ?] _]. done.
    + unfold _make_notes, _complete_headings. by rewrite Hloop, Ehc.
Qed.

(** X20.  Under a well-formed configuration with distinct level names
    [_make_notes] on the empty store raises no exception: it returns, with
    the NoteErrors that it has collected. *)
Theorem make_notes_returns (text : str) :
  ∃ errors notes,
    _make_notes self text [] = (Ok errors, notes) ∧
    Forall (λ e, is_NoteError e = true) errors.
Proof.
  destruct (make_notes_run text) as (notes0 & errors & ps & _ & _ & Hinv & Hrun).
  exists errors, (assign_ends (resolved_end notes0) ps notes0).
  split; [done|]. by destruct Hinv as (_ & _ & _ & _ & _ & _ & _ & ?).
Qed.

End well_formed.

Lemma book_well_formed : well_formed Examples.book.
Proof.
  split; [|split].
  - split; [by exists "#"%char|]. split; [reflexivity|]. apply Nat.leb_le. reflexivity.
  - discriminate.
  - repeat constructor; discriminate.
Defined.

Lemma make_note_raises_parse_errors_witness :
  let notes := Examples.parse Examples.book Examples.book_doc in
  well_formed Examples.book ∧
  _make_note Examples.book notes (lit "other:: again") 4
  = Raise (DuplicateTerm (lit "other")) ∧
  is_line_parse_error (DuplicateTerm (lit "other")) = true.
Proof.
  intros notes.
  assert (H : _make_note Examples.book notes (lit "other:: again") 4
              = Raise (DuplicateTerm (lit "other"))) by by_compute.
  split; [exact book_well_formed|]. split; [exact H|].
  exact (make_note_raises_parse_errors Examples.book book_well_formed notes
           (lit "other:: again") 4 (DuplicateTerm (lit "other")) H).
Defined.

Lemma make_notes_returns_witness :
  well_formed Examples.book ∧ NoDup (level_names Examples.book) ∧
  ∃ errors notes,
    _make_notes Examples.book (Examples.lines Examples.book_doc) []
    = (Ok errors, notes) ∧
    Forall (λ e, is_NoteError e = true) errors.
Proof.
  assert (H : NoDup (level_names Examples.book))
    by (apply (bool_decide_eq_true_1 _); by_compute).
  split; [exact book_well_formed|]. split; [exact H|].
  exact (make_notes_returns Examples.book book_well_formed H
           (Examples.lines Examples.book_doc)).
Defined.

(** ** The ranges of the headings *)

Section ranges.

Variable self : Config.

(** Both boundaries of a position lie behind it and within the store. *)
Lemma boundary_bounds (notes : list Note) (p : nat) (f : nat * Note → bool) :
  consistent notes → p < length notes →
  (Z.of_nat p + 1
   ≤ match List.find f (later_headings notes p) with
     | Some h' => Note.nindex h'.2
     | None => Z.of_nat (length notes)
     end ≤ Z.of_nat (length notes))%Z.
Proof.
  intros Hc Hp. destruct (List.find _ _) as [h'|] eqn:E; [|lia].
  apply find_elem_of in E as [[Hh Hlt]%elem_of_filter _].
  destruct (heading_position _ _ Hc Hh) as [-> ?].
  apply Nat.ltb_lt in Hlt. lia.
Qed.

Lemma assign_ends_core (E : nat → Z) (ps : list nat) (notes : list Note) :
  core <$> assign_ends E ps notes = core <$> notes.
Proof.
  unfold assign_ends. revert notes.
  induction ps as [|q ps IH]; intros notes; simpl; [done|].
  by rewrite IH, core_alter_end.
Qed.

(** The ranges after the assignments of the resolver. *)
Lemma resolved_ranges (notes : list Note) (ps : list nat) (p : nat) (h : Note) :
  (∀ p n, notes !! p = Some n → Note.is_heading n = true → p ∈ ps) →
  assign_ends (resolved_end notes) ps notes !! p = Some h →
  Note.is_heading h = true →
  let notes' := assign_ends (resolved_end notes) ps notes in
  Note.end_nindex h
  = Some (Z.min (sibling_boundary notes' p h) (ancestor_boundary notes' p h)) ∧
  (consistent notes → headings_begin notes →
   Note.begin_nindex h = Some (Z.of_nat p + 1)%Z ∧
   (Z.of_nat p + 1
    ≤ Z.min (sibling_boundary notes' p h) (ancestor_boundary notes' p h)
    ≤ Z.of_nat (length notes'))%Z).
Proof.
  intros Hps Hp Hh notes'.
  assert (Hcore : core <$> notes = core <$> notes').
  { symmetry. apply assign_ends_core. }
  destruct (assign_ends_inv _ _ _ _ _ Hp) as (n & Hn & Hhn & Hb & He).
  rewrite (core_is_heading h n Hhn) in Hh.
  split.
  - rewrite (He (Hps p n Hn Hh)). unfold resolved_end. rewrite Hn.
    by destruct (boundaries_same notes notes' p n h) as [-> ->].
  - intros Hc Hbegin.
    assert (Hc' : consistent notes') by (by eapply consistent_core).
    split.
    + rewrite Hb, (Hbegin p n Hn Hh). by rewrite (consistent_lookup _ _ _ Hc Hn).
    + pose proof (lookup_lt_Some _ _ _ Hp) as Hlt. fold notes' in Hlt.
      unfold sibling_boundary, ancestor_boundary.
      pose proof (boundary_bounds notes' p
                    (λ h', (Note.level_of h'.2 =? Note.level_of h)%Z) Hc' Hlt).
      pose proof (boundary_bounds notes' p
                    (λ h', (Note.level_of h'.2 <=? Note.level_of h)%Z) Hc' Hlt).
      lia.
Qed.

(** X21.  When a heading marker is configured, the level names are
    pairwise distinct, the level of every heading has a name, the [nindex]
    fields are the positions and every heading begins its range behind
    itself, then after [_complete_headings] the range of the heading at
    position p begins at p + 1 and ends not before p + 1 and not behind
    the end of the store. *)
Theorem complete_headings_range_bounds (notes notes' : list Note)
    (r : Result unit) (p : nat) (h : Note) :
  is_Some (heading_char self) → NoDup (level_names self) →
  valid_levels self notes → consistent notes → headings_begin notes →
  _complete_headings self notes = (r, notes') →
  notes' !! p = Some h → Note.is_heading h = true →
  ∃ e, Note.begin_nindex h = Some (Z.of_nat p + 1)%Z ∧
       Note.end_nindex h = Some e ∧
       (Z.of_nat p + 1 ≤ e ≤ Z.of_nat (length notes'))%Z.
Proof.
  intros Hhc Hnd Hvalid Hc Hbegin Hrun Hp Hh.
  destruct (complete_headings_resolved self notes Hhc Hnd Hvalid)
    as (ps & Hrun' & Hps).
  rewrite Hrun in Hrun'. injection Hrun' as -> ->.
  destruct (resolved_ranges notes ps p h Hps Hp Hh) as [He Hb].
  destruct (Hb Hc Hbegin) as [Hb1 Hb2].
  eexists. split; [done|]. split; [exact He|done].
Qed.

(** X22.  Under a well-formed configuration with distinct level names, in
    the store that [_make_notes] builds from the empty one the range of
    every heading ends at the smaller of its sibling boundary and its
    ancestor boundary; and when no error was collected, the range of the
    heading at position p begins at p + 1 and ends not before p + 1 and
    not behind the end of the store. *)
Theorem make_notes_ranges (text : str) (errors : list exn) (notes : list Note)
    (p : nat) (h : Note) :
  well_formed self → NoDup (level_names self) →
  _make_notes self text [] = (Ok errors, notes) →
  notes !! p = Some h → Note.is_heading h = true →
  Note.end_nindex h
  = Some (Z.min (sibling_boundary notes p h) (ancestor_boundary notes p h)) ∧
  (errors = [] →
   Note.begin_nindex h = Some (Z.of_nat p + 1)%Z ∧
   (Z.of_nat p + 1
    ≤ Z.min (sibling_boundary notes p h) (ancestor_boundary notes p h)
    ≤ Z.of_nat (length notes))%Z).
Proof.
  intros Hwf Hnd Hrun Hp Hh.
  destruct (make_notes_run self Hwf Hnd text)
    as (notes0 & errors0 & ps & _ & Hps & Hinv & Hrun').
  rewrite Hrun in Hrun'. injection Hrun' as -> ->.
  destruct (resolved_ranges notes0 ps p h Hps Hp Hh) as [He Hb].
  split; [exact He|]. intros ->. apply Hb.
  - by apply Hinv.
  - apply headings_begin_iff. by apply Hinv.
Qed.

End ranges.

Lemma complete_headings_range_bounds_witness :
  let notes := Examples.chapters in
  let run := _complete_headings Examples.book notes in
  let h := returned (of_option IndexError (run.2 !! 1)) in
  is_Some (heading_char Examples.book) ∧ NoDup (level_names Examples.book) ∧
  valid_levels Examples.book notes ∧ consistent notes ∧ headings_begin notes ∧
  run = (run.1, run.2) ∧ run.2 !! 1 = Some h ∧ Note.is_heading h = true ∧
  ∃ e, Note.begin_nindex h = Some (Z.of_nat 1 + 1)%Z ∧
       Note.end_nindex h = Some e ∧
       (Z.of_nat 1 + 1 ≤ e ≤ Z.of_nat (length run.2))%Z.
Proof.
  intros notes run h.
  assert (H1 : is_Some (heading_char Examples.book)) by (by eexists).
  assert (H2 : NoDup (level_names Examples.book))
    by (apply (bool_decide_eq_true_1 _); by_compute).
  assert (H3 : valid_levels Examples.book notes)
    by (apply valid_levels_Forall, (bool_decide_eq_true_1 _); by_compute).
  assert (H4 : consistent notes) by by_compute.
  assert (H5 : headings_begin notes)
    by (apply headings_begin_Forall, (bool_decide_eq_true_1 _); by_compute).
  assert (H6 : run = (run.1, run.2)) by apply surjective_pairing.
  assert (H7 : run.2 !! 1 = Some h) by by_compute.
  assert (H8 : Note.is_heading h = true) by by_compute.
  split; [exact H1|]. split; [exact H2|]. split; [exact H3|].
  split; [exact H4|]. split; [exact H5|]. split; [exact H6|].
  split; [exact H7|]. split; [exact H8|].
  exact (complete_headings_range_bounds Examples.book notes run.2 run.1 1 h
           H1 H2 H3 H4 H5 H6 H7 H8).
Defined.

Lemma make_notes_ranges_witness :
  let text := Examples.lines ["# A"; "## B"; "x"; "## C"; "# D"; "y"] in
  let run := _make_notes Examples.book text [] in
  let h := returned (of_option IndexError (run.2 !! 0)) in
  well_formed Examples.book ∧ NoDup (level_names Examples.book) ∧
  run = (Ok [], run.2) ∧ run.2 !! 0 = Some h ∧ Note.is_heading h = true ∧
  Note.end_nindex h = Some 4%Z ∧
  Note.end_nindex h
  = Some (Z.min (sibling_boundary run.2 0 h) (ancestor_boundary run.2 0 h)) ∧
  Note.begin_nindex h = Some (Z.of_nat 0 + 1)%Z ∧
  (Z.of_nat 0 + 1
   ≤ Z.min (sibling_boundary run.2 0 h) (ancestor_boundary run.2 0 h)
   ≤ Z.of_nat (length run.2))%Z.
Proof.
  intros text run h.
  assert (H2 : NoDup (level_names Examples.book))
    by (apply (bool_decide_eq_true_1 _); by_compute).
  assert (H3 : run = (Ok [], run.2)) by (apply pair_eq_snd; by_compute).
  assert (H4 : run.2 !! 0 = Some h) by by_compute.
  assert (H5 : Note.is_heading h = true) by by_compute.
  split; [exact book_well_formed|]. split; [exact H2|]. split; [exact H3|].
  split; [exact H4|]. split; [exact H5|]. split; [by_compute|].
  destruct (make_notes_ranges Examples.book text [] run.2 0 h
              book_well_formed H2 H3 H4 H5) as [He Hb].
  split; [exact He|]. exact (Hb eq_refl).
Defined.

(** ** The queries *)

Section queries.

Context {V : Type}.
Variable truthy : V → bool.
Variable as_compare : V → Note → gmap string V → bool.
Variable EQUALS : Note → gmap string V → bool.

Lemma or_None_head {A} (l : list A) : or_None l ≫= head = head l.
Proof. by destruct l. Qed.

Lemma head_filter_find {A} (f : A → bool) (l : list A) :
  head (List.filter f l) = List.find f l.
Proof. induction l as [|x l IH]; simpl; [done|]. by destruct (f x). Qed.

Lemma filter_negb_Permutation {A} (f : A → bool) (l : list A) :
  l ≡ₚ List.filter f l ++ List.filter (λ x, negb (f x)) l.
Proof.
  induction l as [|x l IH]; simpl; [done|]. destruct (f x); simpl.
  - by constructor.
  - rewrite <-Permutation_middle. by constructor.
Qed.

Lemma filter_sublist {A} (f : A → bool) (l : list A) : List.filter f l `sublist_of` l.
Proof.
  induction l as [|x l IH]; simpl; [done|].
  destruct (f x); by constructor.
Qed.

Lemma or_None_default {A} (l : list A) : default [] (or_None l) = l.
Proof. by destruct l. Qed.

(** X23.  [get] returns the first Note of what [get_list] returns, and
    [iget] the first of what [iget_list] returns; each returns None exactly
    when the other does. *)
Theorem get_head_of_get_list (kwargs : gmap string V) (notes : list Note) :
  get truthy as_compare EQUALS kwargs notes
  = get_list truthy as_compare EQUALS kwargs notes ≫= head ∧
  iget truthy as_compare EQUALS kwargs notes
  = iget_list truthy as_compare EQUALS kwargs notes ≫= head ∧
  (get truthy as_compare EQUALS kwargs notes = None
   ↔ get_list truthy as_compare EQUALS kwargs notes = None) ∧
  (iget truthy as_compare EQUALS kwargs notes = None
   ↔ iget_list truthy as_compare EQUALS kwargs notes = None).
Proof.
  unfold get, get_list, iget, iget_list.
  case_bool_decide; [done|].
  destruct (pop_compare _ _ _ _) as [compare kw].
  rewrite !or_None_head, !head_filter_find.
  split; [done|]. split; [done|].
  rewrite <-!head_filter_find.
  split; by destruct (List.filter _ notes).
Qed.

(** X24.  For keyword arguments that are not empty, the Notes that
    [get_list] returns and those that [iget_list] returns are together the
    Notes of the store, each once, where None stands for no Note. *)
Theorem get_list_iget_list_partition (kwargs : gmap string V) (notes : list Note) :
  kwargs ≠ ∅ →
  notes ≡ₚ default [] (get_list truthy as_compare EQUALS kwargs notes)
           ++ default [] (iget_list truthy as_compare EQUALS kwargs notes).
Proof.
  intros Hne. unfold get_list, iget_list.
  case_bool_decide; [done|].
  destruct (pop_compare _ _ _ _) as [compare kw].
  rewrite !or_None_default. apply filter_negb_Permutation.
Qed.

(** X25.  A list that [get_list] or [iget_list] returns is not empty and
    has Notes of the store in the order of the store. *)
Theorem get_list_not_empty (kwargs : gmap string V) (notes l : list Note) :
  get_list truthy as_compare EQUALS kwargs notes = Some l ∨
  iget_list truthy as_compare EQUALS kwargs notes = Some l →
  l ≠ [] ∧ l `sublist_of` notes.
Proof.
  unfold get_list, iget_list.
  case_bool_decide; [by intros [|]|].
  destruct (pop_compare _ _ _ _) as [compare kw].
  intros [Hl|Hl].
  - destruct (List.filter _ notes) as [|x k] eqn:E; [done|].
    injection Hl as <-. split; [done|]. rewrite <-E. apply filter_sublist.
  - destruct (List.filter _ notes) as [|x k] eqn:E; [done|].
    injection Hl as <-. split; [done|]. rewrite <-E. apply filter_sublist.
Qed.

End queries.

Lemma get_list_iget_list_partition_witness :
  let EQUALS : Note → gmap string str → bool :=
    λ note kwargs, bool_decide (kwargs !! "content" = Some (Note.content note)) in
  let truthy : str → bool := λ v, negb (str_eqb v []) in
  let as_compare : str → Note → gmap string str → bool := λ _, EQUALS in
  let kwargs : gmap string str := <["content" := lit "first"]> ∅ in
  kwargs ≠ ∅ ∧
  (Note.content <$> default [] (get_list truthy as_compare EQUALS kwargs
                                  Examples.two_notes)) = [lit "first"] ∧
  Examples.two_notes
  ≡ₚ default [] (get_list truthy as_compare EQUALS kwargs Examples.two_notes)
     ++ default [] (iget_list truthy as_compare EQUALS kwargs Examples.two_notes).
Proof.
  intros EQUALS truthy as_compare kwargs.
  assert (H : kwargs ≠ ∅) by apply insert_non_empty.
  split; [exact H|]. split; [by_compute|].
  exact (get_list_iget_list_partition truthy as_compare EQUALS kwargs
           Examples.two_notes H).
Defined.

Lemma get_list_not_empty_witness :
  let EQUALS : Note → gmap string str → bool :=
    λ note kwargs, bool_decide (kwargs !! "content" = Some (Note.content note)) in
  let truthy : str → bool := λ v, negb (str_eqb v []) in
  let as_compare : str → Note → gmap string str → bool := λ _, EQUALS in
  let kwargs : gmap string str := <["content" := lit "first"]> ∅ in
  let l := default [] (get_list truthy as_compare EQUALS kwargs Examples.two_notes) in
  get_list truthy as_compare EQUALS kwargs Examples.two_notes = Some l ∧
  l ≠ [] ∧ l `sublist_of` Examples.two_notes.
Proof.
  intros EQUALS truthy as_compare kwargs l.
  assert (H : get_list truthy as_compare EQUALS kwargs Examples.two_notes = Some l)
    by by_compute.
  split; [exact H|].
  exact (get_list_not_empty truthy as_compare EQUALS kwargs Examples.two_notes l
           (or_introl H)).
Defined.

(** ** From the note file to the logical lines *)

Section note_file.

Variable self : Config.

Lemma file_readlines_line (body rest : str) :
  LF ∉ body →
  file_readlines (body ++ LF :: rest) = (body ++ [LF]) :: file_readlines rest.
Proof.
  induction body as [|c body IH]; intros Hb; simpl; [done|].
  apply not_elem_of_cons in Hb as [Hc Hb].
  destruct (Ascii.eqb_spec c LF); [congruence|]. by rewrite IH.
Qed.

Lemma file_readlines_last (body : str) :
  LF ∉ body → body ≠ [] → file_readlines body = [body].
Proof.
  induction body as [|c body IH]; intros Hb Hne; [done|]. simpl.
  apply not_elem_of_cons in Hb as [Hc Hb].
  destruct (Ascii.eqb_spec c LF); [congruence|].
  destruct body as [|d body]; [done|]. by rewrite IH.
Qed.

Lemma file_readlines_file_lines (text : str) : file_lines (file_readlines text).
Proof.
  induction text as [|c text IH]; simpl; [constructor|].
  destruct (Ascii.eqb_spec c LF) as [->|Hc].
  - apply (file_lines_cons []); [apply not_elem_of_nil|done].
  - destruct IH as [|body Hb Hne|body lines Hb Hl].
    + apply file_lines_last; [|done].
      apply not_elem_of_cons. split; [done|apply not_elem_of_nil].
    + apply file_lines_last; [|done]. apply not_elem_of_cons. by split.
    + apply (file_lines_cons (c :: body)); [|done].
      apply not_elem_of_cons. by split.
Qed.

Lemma file_lines_filter (f : str → bool) (lines : list str) :
  file_lines lines → file_lines (List.filter f lines).
Proof.
  induction 1 as [|body Hb Hne|body lines Hb Hl IH]; simpl.
  - constructor.
  - destruct (f body); by constructor.
  - destruct (f (body ++ [LF])); [by constructor|done].
Qed.

Lemma file_readlines_join (lines : list str) :
  file_lines lines → file_readlines (mjoin lines) = lines.
Proof.
  induction 1 as [|body Hb Hne|body lines Hb Hl IH]; simpl.
  - done.
  - rewrite app_nil_r. by apply file_readlines_last.
  - rewrite <-app_assoc. simpl. by rewrite file_readlines_line, IH.
Qed.

(** [_parse_notes] joins the lines that it passes on. *)
Lemma parse_notes_passed (text : str) :
  _parse_notes self text = mjoin (List.filter (passed self) (file_readlines text)).
Proof.
  unfold _parse_notes.
  assert (H : ∀ lines raw,
            foldl (λ raw_notes line,
                     if match comments self with
                        | Some c => startswith (strip line) c
                        | None => false
                        end
                     then raw_notes
                     else if str_eqb (strip line) [] then raw_notes
                     else raw_notes ++ line) raw lines
            = raw ++ mjoin (List.filter (passed self) lines)).
  { induction lines as [|line lines IH]; intros raw; simpl;
      [by rewrite app_nil_r|].
    rewrite IH. unfold passed at 2.
    destruct (match comments self with Some c => _ | None => false end);
      simpl; [done|].
    destruct (str_eqb (strip line) []); simpl; [done|]. by rewrite app_assoc. }
  by rewrite H.
Qed.

(** X26.  [_parse_notes] changes nothing in a text that it has written:
    parsing twice gives what parsing once gives. *)
Theorem parse_notes_idempotent (text : str) :
  _parse_notes self (_parse_notes self text) = _parse_notes self text.
Proof.
  rewrite (parse_notes_passed (_parse_notes self text)), (parse_notes_passed text).
  rewrite file_readlines_join
    by apply file_lines_filter, file_readlines_file_lines.
  f_equal. induction (file_readlines text) as [|line lines IH]; simpl; [done|].
  destruct (passed self line) eqn:E; simpl; [|done]. by rewrite E, IH.
Qed.

Lemma find_single_app (c : ascii) (body rest : str) :
  c ∉ body → find [c] (body ++ c :: rest) = Some (length body).
Proof.
  induction body as [|a body IH]; intros Hb; simpl.
  - by rewrite Ascii.eqb_refl.
  - apply not_elem_of_cons in Hb as [Hc Hb].
    destruct (Ascii.eqb_spec c a); [congruence|]. simpl. by rewrite IH.
Qed.

Lemma find_single_none (c : ascii) (body : str) :
  c ∉ body → find [c] body = None.
Proof.
  induction body as [|a body IH]; intros Hb; simpl; [done|].
  apply not_elem_of_cons in Hb as [Hc Hb].
  destruct (Ascii.eqb_spec c a); [congruence|]. simpl. by rewrite IH.
Qed.

Lemma split_line (body rest : str) :
  LF ∉ body → split [LF] (body ++ LF :: rest) = body :: split [LF] rest.
Proof.
  intros Hb. rewrite split_unfold, find_single_app by done.
  rewrite take_app_length. simpl.
  replace (length body + 1) with (length body + length [LF]) by done.
  rewrite <-drop_drop, drop_app_length. done.
Qed.

Lemma split_last (body : str) : LF ∉ body → split [LF] body = [body].
Proof. intros Hb. by rewrite split_unfold, find_single_none. Qed.

Lemma lstrip_app (a b : str) :
  lstrip (a ++ b) = if bool_decide (lstrip a = []) then lstrip b else lstrip a ++ b.
Proof.
  induction a as [|c a IH]; simpl; [done|].
  destruct (isspace c); [done|]. by rewrite bool_decide_false.
Qed.

Lemma strip_line_break (body : str) : strip (body ++ [LF]) = strip body.
Proof.
  unfold strip. rewrite lstrip_app. case_bool_decide as E.
  - by rewrite E.
  - unfold rstrip. by rewrite rev_app_distr.
Qed.

Lemma strip_nil_inv (body : str) : strip body ≠ [] → body ≠ [].
Proof. by intros H ->. Qed.

(** The logical lines of a text made of lines that are not blank and open
    no block. *)
Lemma read_lines_file_lines (lines : list str) :
  file_lines lines →
  Forall (λ line, strip line ≠ []) lines →
  (∀ b, blocks self = Some b →
        Forall (λ line, startswith (strip line) b = false) lines) →
  read_lines self (split [LF] (mjoin lines)) = strip <$> lines.
Proof.
  induction 1 as [|body Hb Hne|body lines Hb Hl IH]; intros Hs Hblock.
  - simpl. destruct (blocks self) as [[|c b]|]; done.
  - simpl. rewrite app_nil_r, split_last by done. simpl.
    assert (Hy : yield_line body [] = [strip body]) by (by destruct body).
    destruct (blocks self) as [b|]; [|done].
    specialize (Hblock b eq_refl). apply Forall_inv in Hblock. by rewrite Hblock.
  - apply Forall_cons in Hs as [Hs1 Hs].
    simpl. rewrite <-app_assoc. simpl. rewrite split_line by done.
    rewrite strip_line_break in Hs1.
    assert (IH' : read_lines self (split [LF] (mjoin lines)) = strip <$> lines).
    { apply IH; [done|]. intros b Hsome. by eapply Forall_inv_tail, Hblock. }
    simpl. rewrite IH', strip_line_break.
    assert (Hy : yield_line body (strip <$> lines) = strip body :: (strip <$> lines)).
    { apply strip_nil_inv in Hs1. by destruct body. }
    destruct (blocks self) as [b|]; [|done].
    specialize (Hblock b eq_refl). apply Forall_inv in Hblock.
    rewrite strip_line_break in Hblock. by rewrite Hblock.
Qed.

(** X27.  When none of the lines that [_parse_notes] passes on opens a
    block, the logical lines that [_read_notes] yields from the text that
    [_parse_notes] has written are the lines of the note file that are
    neither blank nor comments, each stripped, in their order; none of
    them is empty and none starts with the comment marker. *)
Theorem read_parsed_notes (text : str) :
  (∀ b, blocks self = Some b →
        Forall (λ line, startswith (strip line) b = false)
               (List.filter (passed self) (file_readlines text))) →
  _read_notes self (_parse_notes self text)
  = strip <$> List.filter (passed self) (file_readlines text) ∧
  Forall (λ content, content ≠ [] ∧
                     ∀ c, comments self = Some c → startswith content c = false)
         (_read_notes self (_parse_notes self text)).
Proof.
  intros Hblock.
  assert (Hp : Forall (λ line, passed self line = true)
                 (List.filter (passed self) (file_readlines text))).
  { apply Forall_forall. by intros line [_ ?]%elem_of_filter. }
  assert (Heq : _read_notes self (_parse_notes self text)
                = strip <$> List.filter (passed self) (file_readlines text)).
  { unfold _read_notes. rewrite parse_notes_passed.
    apply read_lines_file_lines; [|eapply Forall_impl; [exact Hp|]|done].
    - apply file_lines_filter, file_readlines_file_lines.
    - intros line [_ H]%andb_true_iff. apply negb_true_iff in H.
      unfold str_eqb in H. by apply bool_decide_eq_false in H. }
  split; [done|]. rewrite Heq. apply Forall_fmap.
  eapply Forall_impl; [exact Hp|].
  intros line [H1 H2]%andb_true_iff. simpl. split.
  - apply negb_true_iff in H2. unfold str_eqb in H2.
    by apply bool_decide_eq_false in H2.
  - intros c Hc. rewrite Hc in H1. by apply negb_true_iff in H1.
Qed.

End note_file.

Lemma read_parsed_notes_witness :
  let text := Examples.lines ["// a comment"; "# A"; ""; "   "; " t:: d "; "x"] in
  (∀ b, blocks commented_book = Some b →
        Forall (λ line, startswith (strip line) b = false)
               (List.filter (passed commented_book) (file_readlines text))) ∧
  _read_notes commented_book (_parse_notes commented_book text)
  = [lit "# A"; lit "t:: d"; lit "x"] ∧
  _read_notes commented_book (_parse_notes commented_book text)
  = strip <$> List.filter (passed commented_book) (file_readlines text) ∧
  Forall (λ content, content ≠ [] ∧
                     ∀ c, comments commented_book = Some c →
                          startswith content c = false)
         (_read_notes commented_book (_parse_notes commented_book text)).
Proof.
  intros text.
  assert (H : ∀ b, blocks commented_book = Some b →
                Forall (λ line, startswith (strip line) b = false)
                       (List.filter (passed commented_book) (file_readlines text))).
  { intros b [= <-]. apply (bool_decide_eq_true_1 _). by_compute. }
  split; [exact H|]. split; [by_compute|].
  exact (read_parsed_notes commented_book text H).
Defined.

(** ** The configuration file *)

Section config_file.

Lemma startswith_single (a c : ascii) (s : str) :
  startswith (c :: s) [a] = true → c = a.
Proof.
  cbn [startswith]. intros [H _]%andb_true_iff. symmetry. by apply Ascii.eqb_eq.
Qed.

(** A line of a file that starts with a line break is that line break. *)
Lemma file_lines_blank (lines : list str) (line : str) :
  file_lines lines → line ∈ lines → startswith line [LF] = true → line = [LF].
Proof.
  induction 1 as [|body Hb Hne|body lines Hb Hl IH].
  - by intros ?%elem_of_nil.
  - intros ->%list_elem_of_singleton Hs. destruct body as [|c body]; [done|].
    apply startswith_single in Hs. subst c. exfalso. apply Hb. by left.
  - intros [->|Hin]%elem_of_cons Hs; [|by apply IH].
    destruct body as [|c body]; [done|].
    apply startswith_single in Hs. subst c. exfalso. apply Hb. by left.
Qed.

Lemma misplaced_ge (lines : list str) (i : nat) :
  length lines ≤ i → misplaced lines i = false.
Proof.
  intros Hi. unfold misplaced. by rewrite (lookup_ge_None_2 lines i Hi).
Qed.

(** The loop of [_parse_config] from any index on. *)
Lemma parse_config_loop_spec (lines pre rest : list str) (raw : str) :
  lines = pre ++ rest →
  (∀ line, line ∈ lines → startswith line [LF] = true → line = [LF]) →
  (∀ j, j < length pre → misplaced lines j = false) →
  match parse_config_loop lines (length pre) rest raw with
  | inr raw_config =>
      (∀ i, misplaced lines i = false) ∧
      raw_config
      = raw ++ mjoin ((λ line, strip line ++ [LF])
                        <$> List.filter
                              (λ line, negb (startswith (strip line)
                                               CONFIG_IGNORE_PREFIX)) rest)
  | inl e =>
      ∃ i, misplaced lines i = true ∧ (∀ j, j < i → misplaced lines j = false) ∧
           e = if startswith (default [] (lines !! (i - 1) : option str)) [LF]
               then ExtraLine i else UnexpectedLine i
  end.
Proof.
  intros Hlines Hblank. revert pre raw Hlines.
  induction rest as [|line rest IH]; intros pre raw Hlines Hpre.
  - simpl. rewrite app_nil_r in *. subst pre. split; [|done].
    intros i. destruct (decide (i < length lines)); [by apply Hpre|].
    apply misplaced_ge. lia.
  - cbn [parse_config_loop].
    set (index := length pre).
    set (previous := default [] (lines !! (index - 1) : option str)).
    assert (Hline : lines !! index = Some line).
    { subst lines. unfold index. by rewrite list_lookup_middle. }
    assert (Hmis : misplaced lines index
                   = startswith line [LF] && negb (index =? 0)
                     && negb (startswith (strip previous) CONFIG_IGNORE_PREFIX)).
    { unfold misplaced. by rewrite Hline. }
    assert (Hnext : ∀ raw',
              misplaced lines index = false →
              match parse_config_loop lines (S index) rest raw' with
              | inr raw_config =>
                  (∀ i, misplaced lines i = false) ∧
                  raw_config
                  = raw' ++ mjoin ((λ line, strip line ++ [LF])
                                     <$> List.filter
                                           (λ line, negb (startswith (strip line)
                                                            CONFIG_IGNORE_PREFIX))
                                           rest)
              | inl e =>
                  ∃ i, misplaced lines i = true ∧
                       (∀ j, j < i → misplaced lines j = false) ∧
                       e = if startswith (default [] (lines !! (i - 1) : option str)) [LF]
                           then ExtraLine i else UnexpectedLine i
              end).
    { intros raw' Hok.
      replace (S index) with (length (pre ++ [line]))
        by (rewrite length_app; simpl; unfold index; lia).
      apply IH; [by rewrite <-app_assoc|].
      intros j. rewrite length_app. simpl. intros Hj.
      destruct (decide (j = index)) as [->|]; [done|].
      apply Hpre. unfold index in *. lia. }
    destruct (startswith line [LF] && negb (index =? 0) && startswith previous [LF])
      eqn:E1.
    { exists index. apply andb_true_iff in E1 as [E1 Hprev].
      assert (Hp : previous = [LF]).
      { apply Hblank; [|done]. unfold previous.
        destruct (lines !! (index - 1)) as [p|] eqn:Ep; [|done].
        by eapply list_elem_of_lookup_2. }
      split; [|split; [done|]].
      - rewrite Hmis, E1, Hp. done.
      - fold previous. by rewrite Hprev. }
    destruct (startswith line [LF] && negb (index =? 0)
              && negb (startswith (strip previous) CONFIG_IGNORE_PREFIX)) eqn:E2.
    { exists index. split; [done|]. split; [done|].
      fold previous. apply andb_true_iff in E2 as [E2 _]. rewrite E2 in E1.
      rewrite andb_true_l in E1. by rewrite E1. }
    cbn [List.filter].
    destruct (startswith (strip line) CONFIG_IGNORE_PREFIX) eqn:E3;
      cbn [negb fmap list_fmap mjoin list_join].
    + by apply Hnext.
    + specialize (Hnext (raw ++ strip line ++ [LF]) Hmis).
      destruct (parse_config_loop _ _ _ _); [done|].
      destruct Hnext as [? ->]. split; [done|]. by rewrite <-!app_assoc.
Qed.

(** X28.  [_parse_config] rejects a configuration file exactly when it has
    a blank line that is not its first line and does not follow a comment
    line: it then raises ExtraLine with the index of the first such line
    when the line before is blank too, and UnexpectedLine with that index
    otherwise.  Without such a line it writes the lines that are not
    comments, each stripped and with a line break behind it. *)
Theorem parse_config_outcome (text : str) :
  match _parse_config text with
  | inr raw_config =>
      (∀ i, misplaced (file_readlines text) i = false) ∧
      raw_config
      = mjoin ((λ line, strip line ++ [LF])
                 <$> List.filter (λ line, negb (startswith (strip line)
                                                   CONFIG_IGNORE_PREFIX))
                                 (file_readlines text))
  | inl e =>
      ∃ i, misplaced (file_readlines text) i = true ∧
           (∀ j, j < i → misplaced (file_readlines text) j = false) ∧
           e = if startswith (default [] (file_readlines text !! (i - 1) : option str)) [LF]
               then ExtraLine i else UnexpectedLine i
  end.
Proof.
  unfold _parse_config.
  apply (parse_config_loop_spec (file_readlines text) [] (file_readlines text) []).
  - done.
  - intros line. apply file_lines_blank, file_readlines_file_lines.
  - simpl. lia.
Qed.

(** *** Reading the attributes *)

Lemma reader_bind_inr {A B} (m : Reader A) (f : A → Reader B)
    (lines rest : list str) (b : B) :
  (m ≫= f) lines = inr (b, rest) →
  ∃ a lines', m lines = inr (a, lines') ∧ f a lines' = inr (b, rest).
Proof.
  unfold mbind, Reader_bind. destruct (m lines) as [e|[a lines']]; [done|].
  intros H. by exists a, lines'.
Qed.

Lemma next_n_inr (n : nat) (lines rest l : list str) :
  next_n n lines = inr (l, rest) → length l = n ∧ lines = l ++ rest.
Proof.
  revert lines l. induction n as [|n IH]; intros lines l; simpl.
  - by intros [= <- <-].
  - intros (x & l1 & Hx & (l' & l2 & Hl & H)%reader_bind_inr)%reader_bind_inr.
    injection H as <- <-. apply IH in Hl as [<- ->].
    destruct lines as [|y lines]; [done|]. by injection Hx as -> ->.
Qed.

Lemma str_or_None_Some (s t : str) : str_or_None s = Some t → t = s ∧ t ≠ [].
Proof. destruct s; [done|]. by intros [= <-]. Qed.

Lemma str_or_None_not_empty (s : str) : str_or_None s ≠ Some [].
Proof. by destruct s. Qed.

Lemma words_from_not_empty (word s : str) :
  Forall (λ w, w ≠ []) (words_from word s).
Proof.
  revert word. induction s as [|c s IH]; intros word; simpl.
  - destruct word as [|a word]; [done|]. constructor; [|done].
    intros H%(f_equal length). rewrite length_rev in H. done.
  - destruct (isspace c); [|apply IH].
    destruct word as [|a word]; [apply IH|]. constructor; [|apply IH].
    intros H%(f_equal length). rewrite length_rev in H. done.
Qed.

Section read_config.

Variable int : str → option Z.

Lemma read_int_inr (s : str) (lines rest : list str) (z : Z) :
  read_int int s lines = inr (z, rest) → int s = Some z ∧ rest = lines.
Proof. unfold read_int. destruct (int s); [|done]. by intros [= -> ->]. Qed.

Lemma read_headings_inr (lines rest : list str) (h : option (str * Z * list str)) :
  _read_headings int lines = inr (h, rest) →
  ∀ hc levels names, h = Some (hc, levels, names) →
                     hc ≠ [] ∧ length names = Z.to_nat levels.
Proof.
  unfold _read_headings. intros (hc0 & l0 & _ & H)%reader_bind_inr.
  destruct (str_or_None hc0) as [hc1|] eqn:E.
  - apply reader_bind_inr in H as (line & l1 & _ & H).
    apply reader_bind_inr in H as (lv & l2 & _ & H).
    apply reader_bind_inr in H as (names1 & l3 & [Hn _]%next_n_inr & H).
    injection H as <- <-. intros hc levels names [= <- <- <-].
    split; [|done]. by apply str_or_None_Some in E as [_ ?].
  - apply reader_bind_inr in H as (? & l1 & _ & H).
    apply reader_bind_inr in H as (? & l2 & _ & H).
    by injection H as <- <-.
Qed.

Lemma read_categories_inr (lines rest : list str) (c : list str * list str) :
  _read_categories int lines = inr (c, rest) → length c.1 = length c.2.
Proof.
  unfold _read_categories. intros (cn & l0 & _ & H)%reader_bind_inr.
  destruct (str_or_None cn) as [cn1|].
  - apply reader_bind_inr in H as (n & l1 & [Hn _]%read_int_inr & H).
    apply reader_bind_inr in H as (names & l2 & [Hnames _]%next_n_inr & H).
    apply reader_bind_inr in H as (n' & l3 & [Hn' _]%read_int_inr & H).
    apply reader_bind_inr in H as (prefixes & l4 & [Hprefixes _]%next_n_inr & H).
    injection H as <- <-. simpl. congruence.
  - apply reader_bind_inr in H as (? & l1 & _ & H).
    apply reader_bind_inr in H as (? & l2 & _ & H).
    by injection H as <- <-.
Qed.

Lemma read_extensions_inr (lines rest : list str) (x : list str * list (list str)) :
  _read_extensions int lines = inr (x, rest) →
  length x.1 = length x.2 ∧ Forall (Forall (λ w, w ≠ [])) x.2.
Proof.
  unfold _read_extensions. intros (xn & l0 & _ & H)%reader_bind_inr.
  destruct (str_or_None xn) as [xn1|].
  - apply reader_bind_inr in H as (n & l1 & [Hn _]%read_int_inr & H).
    apply reader_bind_inr in H as (names & l2 & [Hnames _]%next_n_inr & H).
    apply reader_bind_inr in H as (n' & l3 & [Hn' _]%read_int_inr & H).
    apply reader_bind_inr in H as (bounds & l4 & [Hbounds _]%next_n_inr & H).
    injection H as <- <-. simpl. rewrite length_fmap. split; [congruence|].
    apply Forall_fmap, Forall_forall. intros b _. apply words_from_not_empty.
  - apply reader_bind_inr in H as (? & l1 & _ & H).
    apply reader_bind_inr in H as (? & l2 & _ & H).
    injection H as <- <-. by split.
Qed.

(** What [_read_config] has assigned when it returns. *)
Lemma read_config_inr (text : str) (a : Attributes.t) :
  _read_config int text = inr a →
  13 ≤ length (file_readlines text) ∧
  Attributes.comments a ≠ Some [] ∧ Attributes.blocks a ≠ Some [] ∧
  Attributes.separator a ≠ Some [] ∧
  (∀ hc levels names,
     Attributes.headings a = Some (hc, levels, names) →
     hc ≠ [] ∧ length names = Z.to_nat levels) ∧
  length (Attributes.category_names a) = length (Attributes.category_prefixes a) ∧
  length (Attributes.extension_names a) = length (Attributes.extension_bounds a) ∧
  Forall (Forall (λ w, w ≠ [])) (Attributes.extension_bounds a).
Proof.
  unfold _read_config.
  destruct (Nat.ltb_spec (length (file_readlines text)) 13) as [|Hlen]; [done|].
  cbv zeta.
  match goal with
  | |- match ?m with inl _ => _ | inr _ => _ end = _ → _ =>
      destruct m as [e|[a' rest]] eqn:E; [done|]
  end.
  intros [= ->]. split; [done|].
  apply reader_bind_inr in E as (note_file & l1 & _ & E).
  apply reader_bind_inr in E as (comments & l2 & _ & E).
  apply reader_bind_inr in E as (blocks & l3 & _ & E).
  apply reader_bind_inr in E as (separator & l4 & _ & E).
  apply reader_bind_inr in E as (headings & l5 & Hh & E).
  apply reader_bind_inr in E as (categories & l6 & Hc & E).
  apply reader_bind_inr in E as (extensions & l7 & Hx & E).
  injection E as <- <-. simpl.
  split; [apply str_or_None_not_empty|]. split; [apply str_or_None_not_empty|].
  split; [apply str_or_None_not_empty|].
  split; [by eapply read_headings_inr|].
  split; [by eapply read_categories_inr|].
  by eapply read_extensions_inr.
Qed.

(** X29.  When [_read_config] returns, the temporary configuration file
    has at least 13 lines; the comment marker, the block delimiter and the
    separator are None or not empty; with a heading marker, the marker is
    not empty and there are as many level names as [levels] says, none for
    a negative number; there are as many category prefixes as category
    names and as many bounds tuples as extension names, and no part of a
    bounds tuple is empty. *)
Theorem read_config_attributes (text : str) (a : Attributes.t) :
  _read_config int text = inr a →
  13 ≤ length (file_readlines text) ∧
  Attributes.comments a ≠ Some [] ∧ Attributes.blocks a ≠ Some [] ∧
  Attributes.separator a ≠ Some [] ∧
  (∀ hc levels names,
     Attributes.headings a = Some (hc, levels, names) →
     hc ≠ [] ∧ length names = Z.to_nat levels) ∧
  length (Attributes.category_names a) = length (Attributes.category_prefixes a) ∧
  length (Attributes.extension_names a) = length (Attributes.extension_bounds a) ∧
  Forall (Forall (λ w, w ≠ [])) (Attributes.extension_bounds a).
Proof. apply read_config_inr. Qed.

Lemma bounds_pairs_not_empty (bounds : list (list str)) (pairs : list (str * str)) :
  Forall (Forall (λ w, w ≠ [])) bounds →
  bounds_pairs bounds = Some pairs →
  Forall (λ b : str * str, b.1 ≠ [] ∧ b.2 ≠ []) pairs.
Proof.
  unfold bounds_pairs. intros Hb. revert pairs.
  induction Hb as [|b bounds Hw _ IH]; intros pairs; simpl.
  - by intros [= <-].
  - destruct b as [|l [|r [|]]]; simpl; try done.
    destruct (mapM _ bounds) as [ps|]; simpl; [|done].
    intros [= <-]. constructor; [|by apply IH].
    apply Forall_cons in Hw as [Hl Hw]. apply Forall_cons in Hw as [Hr _]. done.
Qed.

(** X30.  A configuration that [_read_config] has read, in which every
    bounds tuple is a pair, is well-formed as soon as its heading marker,
    if it has one, is a single character and [levels] is at least 1. *)
Theorem read_config_well_formed (text : str) (a : Attributes.t) (self : Config) :
  _read_config int text = inr a →
  config_of a = Some self →
  (∀ hc, heading_char self = Some hc → length hc = 1 ∧ (1 ≤ levels self)%Z) →
  well_formed self.
Proof.
  intros (_ & _ & _ & Hsep & Hh & _ & _ & Hb)%read_config_inr Hcfg Hhc.
  unfold config_of in Hcfg.
  destruct (bounds_pairs (Attributes.extension_bounds a)) as [bounds|] eqn:Eb;
    [|done].
  injection Hcfg as <-. unfold well_formed. simpl in *.
  split; [|split; [done|by eapply bounds_pairs_not_empty]].
  destruct (Attributes.headings a) as [[[hc levels] names]|]; [|done]. simpl in *.
  destruct (Hhc hc eq_refl) as [Hlen Hlv].
  destruct (Hh hc levels names eq_refl) as [_ Hnames].
  split; [|split; lia].
  destruct hc as [|c [|]]; try done. by exists c.
Qed.

End read_config.

End config_file.

Lemma read_config_attributes_witness :
  let text := returned_text (_parse_config config_text) in
  let a := assigned (_read_config small_int text) in
  _parse_config config_text = inr text ∧
  _read_config small_int text = inr a ∧
  Attributes.headings a = Some (lit "#", 2%Z, [lit "Chapter"; lit "Section"]) ∧
  Attributes.extension_bounds a = [[lit "["; lit "]"]] ∧
  13 ≤ length (file_readlines text) ∧
  Attributes.comments a ≠ Some [] ∧ Attributes.blocks a ≠ Some [] ∧
  Attributes.separator a ≠ Some [] ∧
  (∀ hc levels names,
     Attributes.headings a = Some (hc, levels, names) →
     hc ≠ [] ∧ length names = Z.to_nat levels) ∧
  length (Attributes.category_names a) = length (Attributes.category_prefixes a) ∧
  length (Attributes.extension_names a) = length (Attributes.extension_bounds a) ∧
  Forall (Forall (λ w, w ≠ [])) (Attributes.extension_bounds a).
Proof.
  intros text a.
  assert (H : _read_config small_int text = inr a) by by_compute.
  split; [by_compute|]. split; [exact H|]. split; [by_compute|].
  split; [by_compute|].
  exact (read_config_attributes small_int text a H).
Defined.

Lemma read_config_well_formed_witness :
  let text := returned_text (_parse_config config_text) in
  let a := assigned (_read_config small_int text) in
  _read_config small_int text = inr a ∧
  config_of a = Some commented_book ∧
  (∀ hc, heading_char commented_book = Some hc →
         length hc = 1 ∧ (1 ≤ levels commented_book)%Z) ∧
  well_formed commented_book.
Proof.
  intros text a.
  assert (H1 : _read_config small_int text = inr a) by by_compute.
  assert (H2 : config_of a = Some commented_book) by by_compute.
  assert (H3 : ∀ hc, heading_char commented_book = Some hc →
                     length hc = 1 ∧ (1 ≤ levels commented_book)%Z).
  { intros hc [= <-]. split; [reflexivity|]. apply Z.leb_le. reflexivity. }
  split; [exact H1|]. split; [exact H2|]. split; [exact H3|].
  exact (read_config_well_formed small_int text a commented_book H1 H2 H3).
Defined.
